(** * Saliency-map generator of the brain-tumor classifier demo

    A shallow embedding of [generate_saliency_map]
    (src/brain_tumor_prediction.py, lines 54-102), of the array primitives
    it calls and of the script that calls it (the choice of the class, the
    explanation, the bar chart, the report and the chat, lines 27-51,
    104-143 and 171-326), followed by the properties of the pipeline and of
    the script.

    Conventions of the embedding:
    - float arrays are lists of rows of exact rationals ([Q]); the rounding
      of float32/float64 arithmetic, NaN and infinities are not modelled;
    - 8-bit arrays hold integers ([Z]) produced by an explicit conversion
      that truncates and wraps modulo 256;
    - Python exceptions are an explicit outcome; TensorFlow operations and
      file writes are recorded in a world that is threaded through the call;
    - the names read from the enclosing scope ([img], [uploaded_file],
      [output_dir]) are gathered in a record of globals;
    - the input tensor is one image (a batch of size 1) whose height and
      width exceed 1, so that [squeeze] removes the batch axis only;
    - the output directory exists and the name of the upload has an
      extension [cv2.imwrite] knows (the uploader accepts jpg, jpeg, png),
      so the two file writes succeed; what [open] and [cv2.imwrite] do with
      other names is not modelled, and the properties that depend on it
      are stated for the names of the uploader;
    - of the script, the calls that only render are left out; what the
      libraries decide is a parameter of the model: the decoding of the
      upload at a size, the two loaded classifiers, the answers of the
      generative model, the order [np.argsort] gives to equal values and
      the formatting of floats. *)

From Stdlib Require Import Strings.String Strings.Ascii Strings.Byte.
From Stdlib Require Import ZArith QArith Qround Qminmax Qabs List Lia Lqa Bool.
From Stdlib Require Import Permutation Sorted.
Import ListNotations.

Local Open Scope Z_scope.

(** ** numpy *)

Module Np.

(** A 2-D array is a list of rows. *)
Definition array2 (A : Type) : Type := list (list A).

(** [a] has [h] rows of [w] entries each. *)
Definition has_shape {A} (h w : nat) (a : array2 A) : Prop :=
  length a = h /\ Forall (fun r => length r = w) a.

Definition width {A} (a : array2 A) : nat :=
  match a with [] => 0%nat | r :: _ => length r end.

(** [a.shape == (h, w)] as a test. *)
Definition has_shapeb {A} (h w : nat) (a : array2 A) : bool :=
  Nat.eqb (length a) h && forallb (fun r => Nat.eqb (length r) w) a.

(** [np.ogrid[:n]]: the indices 0 .. n-1. *)
Definition ogrid (n : nat) : list Z := map Z.of_nat (seq 0 n).

(** Entry [a[i][j]], with a default outside the array. *)
Definition get {A} (d : A) (a : array2 A) (i j : nat) : A :=
  nth j (nth i a []) d.

Fixpoint zip_with {A B C} (f : A -> B -> C) (l : list A) (m : list B) : list C :=
  match l, m with
  | x :: l', y :: m' => f x y :: zip_with f l' m'
  | _, _ => []
  end.

(** [gradients * mask]: a float array times a boolean array of its shape. *)
Definition mul_mask (g : array2 Q) (mask : array2 bool) : array2 Q :=
  zip_with (zip_with (fun v (b : bool) => if b then v else 0%Q)) g mask.

(** [a[mask]] for one row. *)
Fixpoint select_row {A} (r : list A) (m : list bool) : list A :=
  match r, m with
  | v :: r', b :: m' => if b then v :: select_row r' m' else select_row r' m'
  | _, _ => []
  end.

(** [a[mask]]: the entries under the mask, in row-major order. *)
Fixpoint select {A} (a : array2 A) (mask : array2 bool) : list A :=
  match a, mask with
  | r :: a', m :: mask' => select_row r m ++ select a' mask'
  | _, _ => []
  end.

(** [a[mask] = vs] for one row: the new row and the values left over. *)
Fixpoint assign_row {A} (r : list A) (m : list bool) (vs : list A)
  : list A * list A :=
  match r, m with
  | v :: r', b :: m' =>
      if b then
        match vs with
        | x :: vs' => let (r2, rest) := assign_row r' m' vs' in (x :: r2, rest)
        | [] => let (r2, rest) := assign_row r' m' [] in (v :: r2, rest)
        end
      else let (r2, rest) := assign_row r' m' vs in (v :: r2, rest)
  | _, _ => (r, vs)
  end.

(** [a[mask] = vs]: the values are written back in row-major order.  numpy
    requires as many values as the mask has true entries, which is how the
    function is used here. *)
Fixpoint assign {A} (a : array2 A) (mask : array2 bool) (vs : list A)
  : array2 A :=
  match a, mask with
  | r :: a', m :: mask' =>
      let (r2, rest) := assign_row r m vs in r2 :: assign a' mask' rest
  | _, _ => a
  end.

(** [a.max()] and [a.min()]; numpy raises ValueError on an empty array,
    which is [None] here. *)
Definition amax (l : list Q) : option Q :=
  match l with
  | [] => None
  | x :: t => Some (fold_left Qmax t x)
  end.

Definition amin (l : list Q) : option Q :=
  match l with
  | [] => None
  | x :: t => Some (fold_left Qmin t x)
  end.

(** [a < b] on floats. *)
Definition Qltb (a b : Q) : bool := negb (Qle_bool b a).

(** Ascending sort used by the percentile. *)
Fixpoint insert_sorted (x : Q) (l : list Q) : list Q :=
  match l with
  | [] => [x]
  | y :: t => if Qle_bool x y then x :: l else y :: insert_sorted x t
  end.

Fixpoint sort (l : list Q) : list Q :=
  match l with
  | [] => []
  | x :: t => insert_sorted x (sort t)
  end.

(** [np.percentile(a, p)] with numpy's default linear interpolation: the
    value at the virtual index [p/100 * (n - 1)] of the sorted data.  (On an
    empty array numpy gives nan; the function is never called on one, since
    [max] has raised before.) *)
Definition percentile (l : list Q) (p : Z) : Q :=
  let s := sort l in
  let n := Z.of_nat (length l) in
  let virtual_index := ((p # 100) * inject_Z (n - 1))%Q in
  let previous := Qfloor virtual_index in
  let next := Z.min (previous + 1) (n - 1) in
  let gamma := (virtual_index - inject_Z previous)%Q in
  let lo := nth (Z.to_nat previous) s 0%Q in
  let hi := nth (Z.to_nat next) s 0%Q in
  (lo + (hi - lo) * gamma)%Q.

(** [a[a < t] = 0]. *)
Definition zero_below (t : Q) (a : array2 Q) : array2 Q :=
  map (map (fun v => if Qltb v t then 0%Q else v)) a.

(** Conversion of a float to an integer: truncation toward zero. *)
Definition Qtrunc (q : Q) : Z :=
  if Qle_bool 0 q then Qfloor q else Qceiling q.

(** [astype(np.uint8)] on one float: truncate, then keep the low 8 bits. *)
Definition astype_uint8 (q : Q) : Z := Qtrunc q mod 256.

End Np.

(** ** The circular mask (lines 68-71) *)

(** [center = (shape[0] // 2, shape[1] // 2)] *)
Definition center (h w : nat) : Z * Z := (Z.of_nat h / 2, Z.of_nat w / 2).

(** [radius = min(center[0], center[1]) - 10] *)
Definition radius (h w : nat) : Z :=
  Z.min (fst (center h w)) (snd (center h w)) - 10.

(** [(x - center[0])**2 + (y - center[1])**2 <= radius**2], where [y] is the
    row index and [x] the column index. *)
Definition in_circle (h w : nat) (y x : Z) : bool :=
  (x - fst (center h w)) ^ 2 + (y - snd (center h w)) ^ 2 <=? radius h w ^ 2.

(** [y, x = np.ogrid[:shape[0], :shape[1]]] and the comparison, broadcast
    to a [h] x [w] boolean array. *)
Definition mask (h w : nat) : Np.array2 bool :=
  map (fun y => map (fun x => in_circle h w y x) (Np.ogrid w)) (Np.ogrid h).

(** ** OpenCV

    The library routines the function calls, as OpenCV documents them. *)

Module Cv2.

(** [cvRound]: rounding to the nearest integer, halves to the even one. *)
Definition cvRound (q : Q) : Z :=
  let f := Qfloor q in
  let r := (q - inject_Z f)%Q in
  if Np.Qltb r (1 # 2) then f
  else if Np.Qltb (1 # 2) r then f + 1
  else if Z.even f then f else f + 1.

(** [saturate_cast<uchar>] *)
Definition saturate_uint8 (z : Z) : Z := Z.max 0 (Z.min 255 z).

(** Source sample of destination index [d] under INTER_LINEAR: the index of
    the left (upper) neighbour and the weight of the right (lower) one. *)
Definition src_coord (src dst d : nat) : nat * Q :=
  let scale := (Z.of_nat src # Pos.of_nat dst)%Q in
  let f := ((inject_Z (Z.of_nat d) + (1 # 2)) * scale - (1 # 2))%Q in
  let s := Qfloor f in
  if s <? 0 then (0%nat, 0%Q)
  else if Z.of_nat src - 1 <=? s then (Nat.pred src, 0%Q)
  else (Z.to_nat s, (f - inject_Z s)%Q).

(** The destination pixel (y, x): [blend fy fx a b c d] interpolates between
    its four source neighbours [a b / c d]. *)
Definition resize_pixel {A} (dflt : A) (blend : Q -> Q -> A -> A -> A -> A -> A)
    (src : Np.array2 A) (sh sw h w y x : nat) : A :=
  let (sy, fy) := src_coord sh h y in
  let sy' := Nat.min (S sy) (Nat.pred sh) in
  let (sx, fx) := src_coord sw w x in
  let sx' := Nat.min (S sx) (Nat.pred sw) in
  blend fy fx (Np.get dflt src sy sx) (Np.get dflt src sy sx')
              (Np.get dflt src sy' sx) (Np.get dflt src sy' sx').

(** [cv2.resize(src, dsize)] with [dsize = (width, height)] and the default
    bilinear interpolation.  An empty source or an empty [dsize] is an
    error ([None]); a source that already has the requested size is copied
    unchanged. *)
Definition resize {A} (dflt : A) (blend : Q -> Q -> A -> A -> A -> A -> A)
    (src : Np.array2 A) (dsize : nat * nat) : option (Np.array2 A) :=
  let (w, h) := dsize in
  let sh := length src in
  let sw := Np.width src in
  if Nat.eqb sh 0 || Nat.eqb sw 0 || Nat.eqb w 0 || Nat.eqb h 0 then None
  else if Nat.eqb sh h && Nat.eqb sw w then Some src
  else Some
    (map (fun y =>
            map (fun x => resize_pixel dflt blend src sh sw h w y x) (seq 0 w))
         (seq 0 h)).

Definition blend_float (fy fx a b c d : Q) : Q :=
  ((1 - fy) * ((1 - fx) * a + fx * b) + fy * ((1 - fx) * c + fx * d))%Q.

Definition blend_uint8 (fy fx : Q) (a b c d : Z) : Z :=
  saturate_uint8
    (cvRound (blend_float fy fx (inject_Z a) (inject_Z b) (inject_Z c) (inject_Z d))).

Definition blend_rgb (fy fx : Q) (a b c d : Z * Z * Z) : Z * Z * Z :=
  let '(a0, a1, a2) := a in
  let '(b0, b1, b2) := b in
  let '(c0, c1, c2) := c in
  let '(d0, d1, d2) := d in
  (blend_uint8 fy fx a0 b0 c0 d0, blend_uint8 fy fx a1 b1 c1 d1,
   blend_uint8 fy fx a2 b2 c2 d2).

Definition resize_float := resize 0%Q blend_float.
Definition resize_rgb := resize (0, 0, 0) blend_rgb.

(** The 11-tap Gaussian kernel for sigma = 0.3*((11-1)*0.5 - 1) + 0.8 = 2:
    weights exp(-(k-5)^2/8), here to six decimal places, normalised to sum
    to one. *)
Definition gaussian_weights : list Z :=
  [43937; 135335; 324652; 606531; 882497; 1000000;
   882497; 606531; 324652; 135335; 43937].

Definition gaussian_kernel : list Q :=
  map (fun w => (w # 4985904)%Q) gaussian_weights.

(** BORDER_REFLECT_101: [gfedcb|abcdefgh|gfedcba]. *)
Definition reflect101 (n : nat) (p : Z) : nat :=
  if (n <=? 1)%nat then 0%nat
  else
    let period := 2 * (Z.of_nat n - 1) in
    let m := p mod period in
    Z.to_nat (if m <? Z.of_nat n then m else period - m).

(** Sum of the samples weighted by the kernel (kept in lowest terms). *)
Definition weighted_sum (samples : list Q) : Q :=
  fold_right (fun t acc => Qred (t + acc)) 0%Q
             (Np.zip_with Qmult gaussian_kernel samples).

(** [cv2.GaussianBlur(src, (11, 11), 0)]: the kernel applied along the rows
    and then along the columns. *)
Definition blur_rows (g : Np.array2 Q) : Np.array2 Q :=
  map (fun r =>
         map (fun x =>
                weighted_sum
                  (map (fun k => nth (reflect101 (length r) (Z.of_nat x + k - 5)) r 0%Q)
                       (Np.ogrid 11)))
             (seq 0 (length r)))
      g.

Definition blur_cols (g : Np.array2 Q) : Np.array2 Q :=
  map (fun y =>
         map (fun x =>
                weighted_sum
                  (map (fun k =>
                          Np.get 0%Q g (reflect101 (length g) (Z.of_nat y + k - 5)) x)
                       (Np.ogrid 11)))
             (seq 0 (length (nth y g []))))
      (seq 0 (length g)).

Definition GaussianBlur (g : Np.array2 Q) : Np.array2 Q :=
  blur_cols (blur_rows g).

(** COLORMAP_JET: entry [i] of the 256-entry table has the channels
    clamp(1.5 - |4 * i / 255 - c|) for c = 3 (red), 2 (green), 1 (blue),
    scaled to 8 bits.  Entry 0 is the dark blue (128, 0, 0) in BGR order. *)
Definition clamp01 (q : Q) : Q := Qmax 0 (Qmin 1 q).

Definition jet_channel (c i : Z) : Z :=
  cvRound (255 * clamp01 ((3 # 2) - Qabs ((4 * i # 255) - inject_Z c))).

Definition jet_red (i : Z) : Z := jet_channel 3 i.
Definition jet_green (i : Z) : Z := jet_channel 2 i.

(** The table of OpenCV holds the ramps rounded to the nearest integer.  It
    was computed in floats: at the entry 159 the blue ramp, a tie at 1.5,
    fell below the tie, and the table holds 1 there. *)
Definition jet_blue (i : Z) : Z :=
  if i =? 159 then 1 else jet_channel 1 i.

(** [cv2.applyColorMap(src, cv2.COLORMAP_JET)]: a BGR image. *)
Definition applyColorMap (src : Np.array2 Z) : Np.array2 (Z * Z * Z) :=
  map (map (fun v => (jet_blue v, jet_green v, jet_red v))) src.

(** [cv2.cvtColor] with COLOR_BGR2RGB or COLOR_RGB2BGR: the outer channels
    are exchanged. *)
Definition swap_channels (a : Np.array2 (Z * Z * Z)) : Np.array2 (Z * Z * Z) :=
  map (map (fun '(c0, c1, c2) => (c2, c1, c0))) a.

End Cv2.

(** ** Outcomes and effects *)

Inductive exn : Type :=
| InvalidArgumentError   (* tf.errors.InvalidArgumentError *)
| ValueError             (* Python / numpy ValueError *)
| Cv2Error.              (* cv2.error *)

(** Files hold the bytes written to them or an image written by
    [cv2.imwrite] (given in BGR order). *)
Inductive file : Type :=
| Raw (bytes : list byte)
| Encoded (bgr : Np.array2 (Z * Z * Z)).

Inductive tf_op : Type :=
| OpConvertToTensor | OpWatch | OpCall | OpStridedSlice | OpGradient | OpAbs | OpReduceMax.

Inductive event : Type :=
| TensorOp (op : tf_op)
| FileWrite (path : string) (content : file).

(** The world is the log of what has been done so far, latest first. *)
Definition world : Type := list event.

Inductive outcome (A : Type) : Type :=
| Returned (a : A)
| Raised (e : exn).
Arguments Returned {A} a.
Arguments Raised {A} e.

Definition M (A : Type) : Type := world -> outcome A * world.

Definition ret {A} (a : A) : M A := fun w => (Returned a, w).

Definition raise {A} (e : exn) : M A := fun w => (Raised e, w).

Definition bind {A B} (c : M A) (k : A -> M B) : M B :=
  fun w =>
    match c w with
    | (Returned a, w') => k a w'
    | (Raised e, w') => (Raised e, w')
    end.

Definition tell (ev : event) : M unit := fun w => (Returned tt, ev :: w).

(** A library call that returns [None] raises [e]. *)
Definition or_raise {A} (e : exn) (o : option A) : M A :=
  match o with Some a => ret a | None => raise e end.

Notation "x <- c ;; k" := (bind c (fun x => k))
  (at level 61, c at next level, right associativity).
Notation "c ;;; k" := (bind c (fun _ => k))
  (at level 61, right associativity).

(** The content of [path] after the writes of [w]. *)
Fixpoint read_file (w : world) (path : string) : option file :=
  match w with
  | [] => None
  | FileWrite p c :: w' => if String.eqb p path then Some c else read_file w' path
  | _ :: w' => read_file w' path
  end.

(** ** TensorFlow: the classifier and its gradient *)

Module Tf.

(** One image of a batch: height x width x 3 channels. *)
Definition tensor : Type := Np.array2 (Q * Q * Q).

(** A classifier gives the scores of its classes and, when it is
    differentiable, the gradient of one score with respect to the input. *)
Record classifier : Type := {
  predict : tensor -> list Q;
  score_gradient : nat -> tensor -> option tensor
}.

(** [predictions[:, k]]: an index from [-n] to [n - 1] selects a column,
    negative ones counting from the end; any other index is an
    InvalidArgumentError.  The result is the selected column. *)
Definition slice_column (predictions : list Q) (k : Z) : M nat :=
  let n := Z.of_nat (length predictions) in
  if (- n <=? k) && (k <? n)
  then tell (TensorOp OpStridedSlice) ;;; ret (Z.to_nat (if k <? 0 then k + n else k))
  else raise InvalidArgumentError.

(** [tf.reduce_max(tf.math.abs(g), axis=-1)] *)
Definition abs_reduce_max (g : tensor) : Np.array2 Q :=
  map (map (fun '(c0, c1, c2) => Qmax (Qmax (Qabs c0) (Qabs c1)) (Qabs c2))) g.

End Tf.

(** ** Names of the enclosing scope *)

Record upload : Type := {
  name : string;
  getbuffer : list byte
}.

(** [img] is the 8-bit RGB picture loaded from the upload and
    [uploaded_file] the upload itself. *)
Record globals : Type := {
  img : Np.array2 (byte * byte * byte);
  uploaded_file : upload
}.

Definition output_dir : string := "saliency_maps".

(** The names the uploader of line 176 hands over, for which both writes
    of lines 95-100 succeed in the output directory: no directory part, no
    NUL, and one of the extensions jpg, jpeg, png, which [cv2.imwrite] can
    encode. *)
Fixpoint has_char (c : ascii) (s : string) : bool :=
  match s with
  | EmptyString => false
  | String d rest => Ascii.eqb c d || has_char c rest
  end.

Definition ends_with (suffix s : string) : bool :=
  (String.length suffix <=? String.length s)%nat
  && String.eqb (substring (String.length s - String.length suffix)
                   (String.length suffix) s) suffix.

Definition plain_image_name (s : string) : bool :=
  negb (has_char "/" s) && negb (has_char Ascii.zero s)
  && (ends_with ".jpg" s || ends_with ".jpeg" s || ends_with ".png" s).

(** [os.path.join(a, b)] *)
Definition path_join (a b : string) : string :=
  match b with
  | String "/"%char _ => b
  | _ =>
      match a with
      | EmptyString => b
      | _ =>
          if String.eqb (substring (String.length a - 1) 1 a) "/"
          then (a ++ b)%string
          else (a ++ "/" ++ b)%string
      end
  end.

(** [image.img_to_array(img)]: the picture as a float array. *)
Definition img_to_array (i : Np.array2 (byte * byte * byte)) : Tf.tensor :=
  map (map (fun '(r, g, b) =>
              (inject_Z (Z.of_N (Byte.to_N r)),
               inject_Z (Z.of_N (Byte.to_N g)),
               inject_Z (Z.of_N (Byte.to_N b))))) i.

(** ** The steps of [generate_saliency_map] *)

(** Lines 55-64: the forward pass, the selection of the class score, its
    gradient, and the reduction to one channel.  The batch has one image,
    so [squeeze] leaves its height x width map. *)
Definition class_gradients (model : Tf.classifier) (img_array : Tf.tensor)
    (class_index : Z) : M (Np.array2 Q) :=
  img_tensor <- (tell (TensorOp OpConvertToTensor) ;;; ret img_array) ;;
  tell (TensorOp OpWatch) ;;;
  predictions <- (tell (TensorOp OpCall) ;;; ret (Tf.predict model img_tensor)) ;;
  target_class <- Tf.slice_column predictions class_index ;;
  gradients <- (tell (TensorOp OpGradient) ;;;
                or_raise ValueError (Tf.score_gradient model target_class img_tensor)) ;;
  tell (TensorOp OpAbs) ;;;
  tell (TensorOp OpReduceMax) ;;;
  ret (Tf.abs_reduce_max gradients).

(** Lines 75-78: min-max normalisation of the entries under the mask.
    [gradients] is the array already multiplied by the mask. *)
Definition normalize (gradients : Np.array2 Q) (mask : Np.array2 bool)
  : option (Np.array2 Q) :=
  let brain_gradients := Np.select gradients mask in
  match Np.amax brain_gradients, Np.amin brain_gradients with
  | Some mx, Some mn =>
      if Np.Qltb mn mx then
        let brain_gradients :=
          map (fun v => ((v - mn) / (mx - mn))%Q) brain_gradients in
        Some (Np.assign gradients mask brain_gradients)
      else Some gradients
  | _, _ => None
  end.

(** Lines 80-81: the 80th percentile of the entries under the mask, and the
    zeroing of every entry of the array below it. *)
Definition threshold (gradients : Np.array2 Q) (mask : Np.array2 bool) : Q :=
  Np.percentile (Np.select gradients mask) 80.

Definition apply_threshold (gradients : Np.array2 Q) (mask : Np.array2 bool)
  : Np.array2 Q :=
  Np.zero_below (threshold gradients mask) gradients.

(** Lines 68-81 on the resized map: mask, normalisation, threshold. *)
Definition masked_saliency (gradients : Np.array2 Q) : option (Np.array2 Q) :=
  let mask := mask (length gradients) (Np.width gradients) in
  let gradients := Np.mul_mask gradients mask in
  match normalize gradients mask with
  | Some gradients => Some (apply_threshold gradients mask)
  | None => None
  end.

(** Line 85, argument: [np.uint8(255 * gradients)]. *)
Definition to_uint8 (gradients : Np.array2 Q) : Np.array2 Z :=
  map (map (fun v => Np.astype_uint8 (255 * v))) gradients.

(** Lines 83-88: blur, colour map, channel order, resize. *)
Definition make_heatmap (gradients : Np.array2 Q) (img_size : nat * nat)
  : option (Np.array2 (Z * Z * Z)) :=
  let gradients := Cv2.GaussianBlur gradients in
  let heatmap := Cv2.applyColorMap (to_uint8 gradients) in
  let heatmap := Cv2.swap_channels heatmap in
  Cv2.resize_rgb heatmap img_size.

(** Broadcasting of two dimensions: equal, or one of them 1. *)
Definition broadcast_dim (a b : nat) : option nat :=
  if Nat.eqb a b then Some a
  else if Nat.eqb a 1 then Some b
  else if Nat.eqb b 1 then Some a
  else None.

(** Entry of an array broadcast to a larger shape. *)
Definition broadcast_get {A} (d : A) (a : Np.array2 A) (y x : nat) : A :=
  Np.get d a (if Nat.eqb (length a) 1 then 0%nat else y)
             (if Nat.eqb (Np.width a) 1 then 0%nat else x).

(** One channel of line 91 followed by line 92. *)
Definition blend_channel (heat : Z) (original : Q) : Z :=
  Np.astype_uint8 (inject_Z heat * (7 # 10) + original * (3 # 10)).

(** One pixel of lines 91-92. *)
Definition blend_pixel (heat : Z * Z * Z) (original : Q * Q * Q) : Z * Z * Z :=
  let '(h0, h1, h2) := heat in
  let '(o0, o1, o2) := original in
  (blend_channel h0 o0, blend_channel h1 o1, blend_channel h2 o2).

(** Lines 90-92: [heatmap * 0.7 + img_to_array(img) * 0.3], then
    [astype(np.uint8)].  The sum raises ValueError when the two shapes do
    not broadcast. *)
Definition superimpose (heatmap : Np.array2 (Z * Z * Z)) (original : Tf.tensor)
  : option (Np.array2 (Z * Z * Z)) :=
  match broadcast_dim (length heatmap) (length original),
        broadcast_dim (Np.width heatmap) (Np.width original) with
  | Some h, Some w =>
      Some (map (fun y =>
              map (fun x =>
                     blend_pixel
                       (broadcast_get (0, 0, 0) heatmap y x)
                       (broadcast_get (0%Q, 0%Q, 0%Q) original y x))
                  (seq 0 w))
              (seq 0 h))
  | _, _ => None
  end.

(** Lines 66-92 without the effects: from the raw gradient map to the
    composite, or the exception raised on the way. *)
Definition composite (G : globals) (gradients : Np.array2 Q)
    (img_size : nat * nat) : M (Np.array2 (Z * Z * Z)) :=
  gradients <- or_raise Cv2Error (Cv2.resize_float gradients img_size) ;;
  gradients <- or_raise ValueError (masked_saliency gradients) ;;
  heatmap <- or_raise Cv2Error (make_heatmap gradients img_size) ;;
  or_raise ValueError (superimpose heatmap (img_to_array (img G))).

(** Lines 94-100: the upload and then the composite are written to the
    same file of the output directory.  Both writes are taken to succeed,
    as they do for a [plain_image_name]; for another name [open] can
    raise, and [cv2.imwrite] can raise cv2.error or write nothing, which
    the model leaves out. *)
Definition save_files (G : globals) (superimposed_img : Np.array2 (Z * Z * Z))
  : M unit :=
  let img_path := path_join output_dir (name (uploaded_file G)) in
  tell (FileWrite img_path (Raw (getbuffer (uploaded_file G)))) ;;;
  let saliency_map_path := ("saliency_maps/" ++ name (uploaded_file G))%string in
  tell (FileWrite saliency_map_path (Encoded (Cv2.swap_channels superimposed_img))).

(** [generate_saliency_map(model, img_array, class_index, img_size)],
    lines 54-102. *)
Definition generate_saliency_map (G : globals) (model : Tf.classifier)
    (img_array : Tf.tensor) (class_index : Z) (img_size : nat * nat)
  : M (Np.array2 (Z * Z * Z)) :=
  gradients <- class_gradients model img_array class_index ;;
  superimposed_img <- composite G gradients img_size ;;
  save_files G superimposed_img ;;;
  ret superimposed_img.

(** ** Vocabulary of the properties and concrete inputs *)


(** The entries that are neither zero nor equal to [t]. *)
Definition above_count (t : Q) (l : list Q) : nat :=
  length (filter (fun v => negb (Qeq_bool v 0) && negb (Qeq_bool v t)) l).

(** The entries that are not zero. *)
Definition nonzero_count (l : list Q) : nat :=
  length (filter (fun v => negb (Qeq_bool v 0)) l).

(** The tensor operations of lines 55-64, latest first. *)
Definition gradient_ops : list event :=
  [TensorOp OpReduceMax; TensorOp OpAbs; TensorOp OpGradient;
   TensorOp OpStridedSlice; TensorOp OpCall; TensorOp OpWatch;
   TensorOp OpConvertToTensor].

(** The two files written by lines 94-100, latest first. *)
Definition file_writes (G : globals) (c : Np.array2 (Z * Z * Z)) : list event :=
  [FileWrite ("saliency_maps/" ++ name (uploaded_file G))
             (Encoded (Cv2.swap_channels c));
   FileWrite (path_join output_dir (name (uploaded_file G)))
             (Raw (getbuffer (uploaded_file G)))].

(** A call is valid when the class index is an index of the scores, the
    classifier has a gradient at the input (a non-empty rectangular map),
    the picture of the enclosing scope has the height [snd img_size] and
    the width [fst img_size], and the circular mask of that size has a pixel
    (which is the case of every square size, see [mask_center_square]). *)
Record valid_call (G : globals) (model : Tf.classifier) (img_array : Tf.tensor)
    (class_index : Z) (img_size : nat * nat) : Prop := {
  valid_index :
    0 <= class_index < Z.of_nat (length (Tf.predict model img_array));
  valid_gradient :
    exists g h0 w0,
      Tf.score_gradient model (Z.to_nat class_index) img_array = Some g /\
      Np.has_shape h0 w0 g /\ (0 < h0)%nat /\ (0 < w0)%nat;
  valid_img : Np.has_shape (snd img_size) (fst img_size) (img G);
  valid_mask :
    exists y x, (y < snd img_size)%nat /\ (x < fst img_size)%nat /\
      in_circle (snd img_size) (fst img_size) (Z.of_nat y) (Z.of_nat x) = true
}.

Definition is_uint8 (z : Z) : Prop := 0 <= z <= 255.

Definition is_rgb8 (p : Z * Z * Z) : Prop :=
  let '(c0, c1, c2) := p in is_uint8 c0 /\ is_uint8 c1 /\ is_uint8 c2.

(** The property in the words of the specification: the call fails with
    InvalidArgument and no tensor operation has been performed. *)
Definition raises_before_tensor_computation {A} (run : M A) : Prop :=
  exists w', run [] = (Raised InvalidArgumentError, w') /\
             forall op, ~ In (TensorOp op) w'.

(** A property of every entry of an array. *)
Definition all_entries {A} (P : A -> Prop) (a : Np.array2 A) : Prop :=
  Forall (Forall P) a.

(** The composite value in the words of the specification:
    0.3 * original + 0.7 * heatmap, clipped to [0, 255], as an integer. *)
Definition clipped_blend (heat : Z) (original : Q) : Z :=
  Np.Qtrunc (Qmax 0 (Qmin 255 ((3 # 10) * original + (7 # 10) * inject_Z heat))).

Definition clipped_blend_pixel (heat : Z * Z * Z) (original : Q * Q * Q)
  : Z * Z * Z :=
  let '(h0, h1, h2) := heat in
  let '(o0, o1, o2) := original in
  (clipped_blend h0 o0, clipped_blend h1 o1, clipped_blend h2 o2).

(** The same sum truncated to an integer, with neither clipping nor
    reduction modulo 256. *)
Definition truncated_blend (heat : Z) (original : Q) : Z :=
  Np.Qtrunc ((3 # 10) * original + (7 # 10) * inject_Z heat).

Definition truncated_blend_pixel (heat : Z * Z * Z) (original : Q * Q * Q)
  : Z * Z * Z :=
  let '(h0, h1, h2) := heat in
  let '(o0, o1, o2) := original in
  (truncated_blend h0 o0, truncated_blend h1 o1, truncated_blend h2 o2).

Definition in_0_255 (q : Q) : Prop := (0 <= q)%Q /\ (q <= 255)%Q.

Definition is_rgb_float (p : Q * Q * Q) : Prop :=
  let '(c0, c1, c2) := p in in_0_255 c0 /\ in_0_255 c1 /\ in_0_255 c2.

Definition is_zero (q : Q) : Prop := (q == 0)%Q.

Definition is_zero3 (p : Q * Q * Q) : Prop :=
  let '(c0, c1, c2) := p in is_zero c0 /\ is_zero c1 /\ is_zero c2.

(** The colour of the value 0 in the palette, in RGB order. *)
Definition jet_zero : Z * Z * Z := (0, 0, 128).

(** "0.3 times the original image only", as 8-bit values. *)
Definition darken_channel (original : Q) : Z :=
  Np.astype_uint8 (original * (3 # 10)).

Definition darken_pixel (original : Q * Q * Q) : Z * Z * Z :=
  let '(o0, o1, o2) := original in
  (darken_channel o0, darken_channel o1, darken_channel o2).

Definition darkened_original (i : Np.array2 (byte * byte * byte))
  : Np.array2 (Z * Z * Z) :=
  map (map darken_pixel) (img_to_array i).

(** A stub classifier of four classes whose gradient is the constant [c]
    at every pixel and channel. *)
Definition constant_gradient_stub (c : Q) : Tf.classifier :=
  {| Tf.predict := fun _ => [1 # 4; 1 # 4; 1 # 4; 1 # 4]%Q;
     Tf.score_gradient := fun _ t => Some (map (map (fun _ => (c, c, c))) t) |}.

(** A square picture of one grey level, and the input tensor made of it. *)
Definition gray_image (n : nat) (v : byte) : Np.array2 (byte * byte * byte) :=
  repeat (repeat (v, v, v) n) n.

Definition gray_tensor (n : nat) (v : Q) : Tf.tensor :=
  repeat (repeat (v, v, v) n) n.

Definition scan : upload := {| name := "scan.png"; getbuffer := [] |}.

Definition gray_globals (n : nat) (v : byte) : globals :=
  {| img := gray_image n v; uploaded_file := scan |}.

(** A map of one value. *)
Definition constant_map (n : nat) (c : Q) : Np.array2 Q := repeat (repeat c n) n.

(** A 3 x 3 map and a mask with a cross of five pixels. *)
Definition small_map : Np.array2 Q :=
  [[9; 2; 9]; [4; 5; 6]; [9; 8; 9]]%Q.

Definition small_mask : Np.array2 bool :=
  [[false; true; false]; [true; true; true]; [false; true; false]].

(** The bound of the specification on the pixels left by the threshold:
    at most 20% of the pixels under the mask are non-zero. *)
Definition at_most_fifth_nonzero (thresholded : Np.array2 Q)
    (m : Np.array2 bool) : Prop :=
  (5 * nonzero_count (Np.select thresholded m)
   <= length (Np.select thresholded m))%nat.

(** ** The script around the function (lines 178-326)

    One run of the script on an upload.  The calls that only render
    ([st.write], [st.image], [st.markdown], [st.plotly_chart]) are left
    out, the display of the chat history apart. *)

(** [np.argmax(a)]: the index of the first occurrence of the maximum;
    ValueError ([None]) on an empty sequence. *)
Fixpoint argmax_from (best : Q) (best_index i : nat) (l : list Q) : nat :=
  match l with
  | [] => best_index
  | v :: t =>
      if Np.Qltb best v then argmax_from v i (S i) t
      else argmax_from best best_index (S i) t
  end.

Definition argmax (l : list Q) : option nat :=
  match l with
  | [] => None
  | v :: t => Some (argmax_from v 0 1 t)
  end.

(** Line 191. *)
Definition labels : list string :=
  ["Glioma"; "Meningioma"; "No tumor"; "Pituitary"]%string.

(** Lines 179-189: the model chosen with the radio button decides the
    size of the input. *)
Inductive selected_model : Type :=
| TransferLearningXception
| CustomCNN.

Definition img_size_of (selected : selected_model) : nat * nat :=
  match selected with
  | TransferLearningXception => (299%nat, 299%nat)
  | CustomCNN => (224%nat, 224%nat)
  end.

(** Lines 193-195: [img_to_array(img)], one batch axis, divided by 255. *)
Definition input_tensor (i : Np.array2 (byte * byte * byte)) : Tf.tensor :=
  map (map (fun '(r, g, b) => (r / 255, g / 255, b / 255)%Q)) (img_to_array i).

(** Exceptions of the script. *)
Inductive script_exn : Type :=
| UnidentifiedImageError        (* image.load_img, line 192 *)
| ArgmaxOfEmpty                 (* ValueError of np.argmax, line 199 *)
| IndexError                    (* labels[class_index], line 200 *)
| SaliencyError (e : exn)       (* raised by generate_saliency_map, line 210 *)
| FileNotFoundError             (* Image.open, line 46 *)
| GenerationError.              (* generate_content, line 49 *)

Inductive script_outcome (A : Type) : Type :=
| Done (a : A)
| Failed (e : script_exn).
Arguments Done {A} a.
Arguments Failed {A} e.

(** Lines 28-44: the prompt of the explanation.  [float_repr] is Python's
    conversion of a float to text. *)
Definition explanation_prompt (float_repr : Q -> string)
    (model_prediction : string) (confidence : Q) : string :=
  ("You are an expert neurologist. You are tasked with explaining a saliency map of a brain tumor MRI scan.
The saliency map was generated by a deep learning model that was trained to classify brain tumors
as either glioma, meningioma, pituitary, or no tumor.

The saliency map highlights the regions of the image that the machine learning model is focusing on
to make the prediction.

The deep learning model predicted the image to be of class '"
   ++ model_prediction ++ "' with a confidence of "
   ++ float_repr (confidence * 100)%Q ++ "%.

In your response:
- Explain what regions of the brain the model is focusing on, based on the saliency map. Refer to the regions highlighted
  in light cyan, those are the regions where the model is focusing on.
- Explain possible reasons why the model made the prediction it did.
- Don’t mention anything like 'The saliency map highlights the regions the model is focusing on, which are in light cyan'
  in your explanation.
- Keep your explanation to 4 sentences max.
")%string.

(** [generate_explanation(img_path, model_prediction, confidence)], lines
    27-51.  [Image.open] fails when there is no file at [img_path]; [llm]
    is the answer of the generative model to a prompt and a picture, or
    [None] when the request fails. *)
Definition generate_explanation (llm : string -> file -> option string)
    (float_repr : Q -> string) (img_path model_prediction : string)
    (confidence : Q) (w : world) : script_outcome string :=
  let prompt := explanation_prompt float_repr model_prediction confidence in
  match read_file w img_path with
  | None => Failed FileNotFoundError
  | Some img =>
      match llm prompt img with
      | None => Failed GenerationError
      | Some text => Done text
      end
  end.

(** What a run has computed when it reaches line 267. *)
Record analysis : Type := {
  prediction : list Q;
  class_index : nat;
  result : string;
  saliency_map : Np.array2 (Z * Z * Z);
  explanation : string
}.

(** Lines 178-210 and 266-267: the picture is loaded at the size of the
    chosen model, classified, explained by its saliency map and by the
    generative model.  [load_img] decodes the upload and resizes it to
    (height, width), or fails on bytes that are no picture; [models] are
    the two loaded classifiers. *)
Definition analyse
    (load_img : upload -> nat * nat -> option (Np.array2 (byte * byte * byte)))
    (models : selected_model -> Tf.classifier)
    (llm : string -> file -> option string) (float_repr : Q -> string)
    (selected : selected_model) (uploaded_file : upload) (w : world)
  : script_outcome analysis * world :=
  let model := models selected in
  let img_size := img_size_of selected in
  match load_img uploaded_file img_size with
  | None => (Failed UnidentifiedImageError, w)
  | Some img =>
      let img_array := input_tensor img in
      let prediction := Tf.predict model img_array in
      match argmax prediction with
      | None => (Failed ArgmaxOfEmpty, w)
      | Some class_index =>
          match nth_error labels class_index with
          | None => (Failed IndexError, w)
          | Some result =>
              match generate_saliency_map
                      {| img := img; uploaded_file := uploaded_file |}
                      model img_array (Z.of_nat class_index) img_size w with
              | (Raised e, w') => (Failed (SaliencyError e), w')
              | (Returned saliency_map, w') =>
                  let saliency_map_path :=
                    ("saliency_maps/" ++ name uploaded_file)%string in
                  match generate_explanation llm float_repr saliency_map_path
                          result (nth class_index prediction 0%Q) w' with
                  | Failed e => (Failed e, w')
                  | Done explanation =>
                      (Done {| prediction := prediction;
                               class_index := class_index;
                               result := result;
                               saliency_map := saliency_map;
                               explanation := explanation |}, w')
                  end
              end
          end
      end
  end.

(** ** The bar chart (lines 242-251) *)

(** [np.argsort(a)] returns the indices of [a] in the order of ascending
    values.  The order among equal values depends on the sorting kernel, so
    the routine is a parameter of the model and this is its contract. *)
Definition is_argsort (p : list Q) (idx : list nat) : Prop :=
  Permutation idx (seq 0 (length p)) /\
  StronglySorted (fun i j => (nth i p 0 <= nth j p 0)%Q) idx.

(** An instance of the routine: insertion of the indices, the first of
    equal values first. *)
Fixpoint insert_index (p : list Q) (i : nat) (idx : list nat) : list nat :=
  match idx with
  | [] => [i]
  | j :: t =>
      if Np.Qltb (nth j p 0%Q) (nth i p 0%Q) then j :: insert_index p i t
      else i :: j :: t
  end.

Definition insertion_argsort (p : list Q) : list nat :=
  fold_right (insert_index p) [] (seq 0 (length p)).

(** [[l[i] for i in idx]] and [a[idx]]: IndexError ([None]) on an index past
    the end. *)
Fixpoint take_indices {A} (l : list A) (idx : list nat) : option (list A) :=
  match idx with
  | [] => Some []
  | i :: t =>
      match nth_error l i, take_indices l t with
      | Some v, Some r => Some (v :: r)
      | _, _ => None
      end
  end.

(** Line 243. *)
Definition sorted_indices (argsort : list Q -> list nat)
    (probabilities : list Q) : list nat :=
  rev (argsort probabilities).

(** Line 244. *)
Definition sorted_labels (argsort : list Q -> list nat)
    (probabilities : list Q) : option (list string) :=
  take_indices labels (sorted_indices argsort probabilities).

(** Line 245. *)
Definition sorted_probabilities (argsort : list Q -> list nat)
    (probabilities : list Q) : option (list Q) :=
  take_indices probabilities (sorted_indices argsort probabilities).

(** Line 251. *)
Definition marker_color (result : string) (sorted_labels : list string)
  : list string :=
  map (fun label => if String.eqb label result then "red" else "blue")%string
      sorted_labels.

(** ** The report (lines 104-143) *)

(** Lines 108-119.  [fmt2] is the format [:.2f] of a float. *)
Definition report_head (fmt2 : Q -> string) (model_prediction : string)
    (confidence : Q) (explanation : string) : string :=
  ("
    Brain Tumor MRI Analysis Report
    ============================================
    **Prediction Summary**
    - Predicted Class: "
   ++ model_prediction
   ++ "
    - Confidence: "
   ++ fmt2 (confidence * 100)%Q
   ++ "%

    **Explanations**
    "
   ++ explanation
   ++ "

    **Prediction Probabilities**
    ")%string.

(** Line 121. *)
Definition report_line (fmt2 : Q -> string) (label : string) (prob : Q)
  : string :=
  ("    - " ++ label ++ ": " ++ fmt2 prob ++ "%
")%string.

(** Lines 123-142: a plain string, not a formatted one. *)
Definition report_tail : string :=
  "
    **Historical Cases and Insights**
    - Glioma: Often appears in cerebral hemispheres; aggressive.
    - Meningioma: Typically benign and slow-growing.
    - Pituitary Tumor: Common in the pituitary gland; treatable.
    - No Tumor: Indicates a healthy brain scan.

    **Next Steps for Doctors**
    - Confirm results with additional diagnostic tests such as biopsy or advanced imaging.
    - Collaborate with radiologists to validate model interpretations.
    - Use highlighted regions from saliency maps for targeted analysis.

    **Next Steps for Patient Care**
    - Schedule follow-ups with specialists (e.g., neurologists or oncologists).
    - Discuss potential treatment plans based on findings.
    - Provide educational resources to patients about their diagnosis.

    **Uploaded Image Path**
    {img_path}
    "%string.

(** [generate_report(img_path, model_prediction, confidence, explanation,
    sorted_labels, sorted_probabilities)]. *)
Definition generate_report (fmt2 : Q -> string)
    (img_path model_prediction : string) (confidence : Q)
    (explanation : string) (sorted_labels : list string)
    (sorted_probabilities : list Q) : string :=
  let report := report_head fmt2 model_prediction confidence explanation in
  let report :=
    fold_left (fun report '(label, prob) =>
                 (report ++ report_line fmt2 label prob)%string)
              (combine sorted_labels sorted_probabilities) report in
  (report ++ report_tail)%string.

(** Lines 242-245 and 315-322: the report of a run; [None] is the
    IndexError of line 244. *)
Definition comprehensive_report (argsort : list Q -> list nat)
    (fmt2 : Q -> string) (uploaded_file : upload) (a : analysis)
  : option string :=
  let probabilities := prediction a in
  match sorted_labels argsort probabilities,
        sorted_probabilities argsort probabilities with
  | Some sorted_labels, Some sorted_probabilities =>
      let saliency_map_path :=
        ("saliency_maps/" ++ name uploaded_file)%string in
      Some (generate_report fmt2 saliency_map_path (result a)
              (nth (class_index a) (prediction a) 0%Q) (explanation a)
              sorted_labels
              (map (fun q => (q * 100)%Q) sorted_probabilities))
  | _, _ => None
  end.

(** ** The chat (lines 273-310) *)








(** ** Vocabulary of the further properties *)

(** A value of the unit interval. *)
Definition in_unit (q : Q) : Prop := (0 <= q)%Q /\ (q <= 1)%Q.


(** A path that begins with a slash. *)
Definition is_absolute (s : string) : bool :=
  match s with
  | String "/"%char _ => true
  | _ => false
  end.

(** The events of a list are tensor operations only. *)
Definition tensor_only (evs : list event) : Prop :=
  Forall (fun ev => exists op, ev = TensorOp op) evs.

(** ** Concrete inputs of the script and of the steps *)

(** A square map whose entries grow along the rows. *)
Definition ramp_map (n : nat) : Np.array2 Q :=
  map (fun y => map (fun x => inject_Z (Z.of_nat (y * n + x))) (seq 0 n))
      (seq 0 n).


(** An upload whose name is an absolute path. *)
Definition absolute_scan : upload :=
  {| name := "/tmp/scan.png"; getbuffer := [x89; x50; x4e; x47] |}.

(** A loader that returns a grey picture of the size asked for, the stub
    for both models, and canned answers of the generative model and of the
    formatting of floats. *)
Definition gray_load_img (_ : upload) (size : nat * nat)
  : option (Np.array2 (byte * byte * byte)) :=
  Some (repeat (repeat (x80, x80, x80) (snd size)) (fst size)).

Definition stub_models (_ : selected_model) : Tf.classifier :=
  constant_gradient_stub 1.

Definition canned_llm (prompt : string) (_ : file) : option string :=
  Some ("answer to: " ++ prompt)%string.

Definition canned_fmt (q : Q) : string :=
  if Qeq_bool q 60 then "60.00"%string else "other"%string.

(** Scores of a run and what the run has computed from them. *)
Definition sample_scores : list Q := [1 # 10; 6 # 10; 1 # 10; 2 # 10]%Q.

Definition sample_analysis : analysis :=
  {| prediction := sample_scores;
     class_index := 1;
     result := "Meningioma";
     saliency_map := [];
     explanation := "see the map" |}.



(** * Properties *)

(** ** Checks of the embedding on small inputs *)

(** [np.percentile([1, 2, 3, 4, 5], 80)] is 4.2 and
    [np.percentile([3, 1, 2], 80)] is 2.6. *)
Example percentile_of_five : (Np.percentile [1; 2; 3; 4; 5] 80 == 42 # 10)%Q.
Proof. vm_compute. reflexivity. Qed.

Example percentile_of_three : (Np.percentile [3; 1; 2] 80 == 26 # 10)%Q.
Proof. vm_compute. reflexivity. Qed.

(** Boolean indexing reads and writes in row-major order. *)
Example select_small : Np.select small_map small_mask = [2; 4; 5; 6; 8]%Q.
Proof. reflexivity. Qed.

Example assign_small :
  Np.assign small_map small_mask [0; 0; 1; 0; 0]%Q
  = [[9; 0; 9]; [0; 1; 0]; [9; 0; 9]]%Q.
Proof. reflexivity. Qed.

(** Casts to 8 bits truncate toward zero and wrap. *)
Example astype_uint8_examples :
  map Np.astype_uint8 [128; 2559 # 10; 300; -1; - (1 # 2)]%Q = [128; 255; 44; 255; 0].
Proof. vm_compute. reflexivity. Qed.

(** The mask of a 22 x 22 map: centre (11, 11), radius 1, five pixels. *)
Example mask_22 :
  radius 22 22 = 1 /\ length (Np.select (mask 22 22) (mask 22 22)) = 5%nat.
Proof. split; vm_compute; reflexivity. Qed.

(** A single row becomes four columns: [cv2.resize] of [[0, 1]] to (4, 1)
    is [[0, 0.25, 0.75, 1]]. *)
Example resize_row :
  match Cv2.resize_float [[0; 1]]%Q (4%nat, 1%nat) with
  | Some [[a; b; c; d]] => (a == 0 /\ b == 1 # 4 /\ c == 3 # 4 /\ d == 1)%Q
  | _ => False
  end.
Proof. vm_compute. repeat split; reflexivity. Qed.

(** Borders are reflected without repeating the edge pixel. *)
Example reflect101_examples :
  map (Cv2.reflect101 5) [-2; -1; 0; 4; 5; 6] = [2; 1; 0; 4; 3; 2]%nat.
Proof. reflexivity. Qed.

(** The kernel sums to one: the blur keeps a constant map. *)
Example blur_constant :
  forallb (forallb (fun v => Qeq_bool v 1))
          (Cv2.GaussianBlur (constant_map 12 1)) = true.
Proof. vm_compute. reflexivity. Qed.

(** Ends and middle of the palette, in BGR order. *)
Example jet_examples :
  map (fun i => (Cv2.jet_blue i, Cv2.jet_green i, Cv2.jet_red i)) [0; 128; 255]
  = [(128, 0, 0); (126, 255, 130); (0, 0, 128)].
Proof. vm_compute. reflexivity. Qed.

Example path_join_example :
  path_join output_dir "scan.png" = "saliency_maps/scan.png"%string /\
  path_join output_dir "/tmp/scan.png" = "/tmp/scan.png"%string.
Proof. split; reflexivity. Qed.

(** The entry 159 of the palette, in BGR order. *)
Example jet_entry_159 :
  (Cv2.jet_blue 159, Cv2.jet_green 159, Cv2.jet_red 159) = (1, 255, 254).
Proof. vm_compute. reflexivity. Qed.

(** ** Arrays: shapes and entries *)

Create HintDb shapes.

Lemma has_shape_length {A} (h w : nat) (a : Np.array2 A) :
  Np.has_shape h w a -> length a = h.
Proof. intros [H _]; exact H. Qed.

Lemma has_shape_row {A} (h w : nat) (a : Np.array2 A) (y : nat) :
  Np.has_shape h w a -> (y < h)%nat -> length (nth y a []) = w.
Proof.
  intros [Hl Hr] Hy. rewrite Forall_forall in Hr.
  apply Hr, nth_In. lia.
Qed.

Lemma has_shape_width {A} (h w : nat) (a : Np.array2 A) :
  Np.has_shape h w a -> (0 < h)%nat -> Np.width a = w.
Proof.
  intros [Hl Hr] Hh. destruct a as [|r a]; simpl in *; [lia|].
  now inversion Hr.
Qed.

Lemma has_shapeb_spec {A} (h w : nat) (a : Np.array2 A) :
  Np.has_shapeb h w a = true <-> Np.has_shape h w a.
Proof.
  unfold Np.has_shapeb, Np.has_shape.
  rewrite andb_true_iff, Nat.eqb_eq, forallb_forall, Forall_forall.
  split; intros [H1 H2]; split; auto; intros r Hr;
    specialize (H2 r Hr); now apply Nat.eqb_eq.
Qed.

(** An array built entry by entry has the shape of its index ranges. *)
Lemma tabulate_shape {A} (f : nat -> nat -> A) (h w : nat) :
  Np.has_shape h w (map (fun y => map (fun x => f y x) (seq 0 w)) (seq 0 h)).
Proof.
  split.
  - now rewrite length_map, length_seq.
  - apply Forall_forall. intros r Hr. apply in_map_iff in Hr.
    destruct Hr as [y [<- _]]. now rewrite length_map, length_seq.
Qed.

Lemma tabulate_get {A} (d : A) (f : nat -> nat -> A) (h w y x : nat) :
  (y < h)%nat -> (x < w)%nat ->
  Np.get d (map (fun y => map (fun x => f y x) (seq 0 w)) (seq 0 h)) y x = f y x.
Proof.
  intros Hy Hx. unfold Np.get.
  rewrite (nth_indep _ [] (map (fun x => f 0%nat x) (seq 0 w)))
    by now rewrite length_map, length_seq.
  rewrite (map_nth (fun y => map (fun x => f y x) (seq 0 w)) (seq 0 h) 0%nat y).
  rewrite seq_nth by lia. simpl.
  rewrite (nth_indep _ d (f y 0%nat)) by now rewrite length_map, length_seq.
  rewrite (map_nth (fun x => f y x) (seq 0 w) 0%nat x).
  now rewrite seq_nth by lia.
Qed.

Lemma map_map_shape {A B} (f : A -> B) (h w : nat) (a : Np.array2 A) :
  Np.has_shape h w a -> Np.has_shape h w (map (map f) a).
Proof.
  intros [Hl Hr]. split.
  - now rewrite length_map.
  - apply Forall_forall. intros r Hin. apply in_map_iff in Hin.
    destruct Hin as [r0 [<- Hr0]]. rewrite length_map.
    rewrite Forall_forall in Hr. now apply Hr.
Qed.

Lemma map_map_get {A B} (f : A -> B) (dA : A) (dB : B) (h w : nat)
    (a : Np.array2 A) (y x : nat) :
  Np.has_shape h w a -> (y < h)%nat -> (x < w)%nat ->
  Np.get dB (map (map f) a) y x = f (Np.get dA a y x).
Proof.
  intros Hs Hy Hx. unfold Np.get.
  pose proof (has_shape_row h w a y Hs Hy) as Hrow.
  destruct Hs as [Hl _].
  rewrite (nth_indep _ [] (map f [])) by (rewrite length_map; lia).
  rewrite (map_nth (map f) a [] y).
  rewrite (nth_indep _ dB (f dA)) by (rewrite length_map; lia).
  now rewrite (map_nth f).
Qed.

#[local] Hint Resolve tabulate_shape map_map_shape : shapes.

(** ** The mask *)

Lemma mask_shape (h w : nat) : Np.has_shape h w (mask h w).
Proof.
  unfold mask, Np.ogrid. rewrite map_map.
  assert (E : forall y : nat,
             map (fun x => in_circle h w (Z.of_nat y) x) (map Z.of_nat (seq 0 w))
             = map (fun x => in_circle h w (Z.of_nat y) (Z.of_nat x)) (seq 0 w))
    by (intros; apply map_map).
  erewrite map_ext by (intros; apply E).
  apply (tabulate_shape (fun y x => in_circle h w (Z.of_nat y) (Z.of_nat x))).
Qed.

Lemma mask_get (h w y x : nat) :
  (y < h)%nat -> (x < w)%nat ->
  Np.get false (mask h w) y x = in_circle h w (Z.of_nat y) (Z.of_nat x).
Proof.
  intros Hy Hx. unfold mask, Np.ogrid. rewrite map_map.
  assert (E : forall y : nat,
             map (fun x => in_circle h w (Z.of_nat y) x) (map Z.of_nat (seq 0 w))
             = map (fun x => in_circle h w (Z.of_nat y) (Z.of_nat x)) (seq 0 w))
    by (intros; apply map_map).
  erewrite map_ext by (intros; apply E).
  now apply (tabulate_get false (fun y x => in_circle h w (Z.of_nat y) (Z.of_nat x))).
Qed.

(** On a square map the centre and the radius are those of the inscribed
    circle, less the margin. *)
Lemma square_in_circle (n : nat) (y x : Z) :
  in_circle n n y x = true <->
  (x - Z.of_nat n / 2) ^ 2 + (y - Z.of_nat n / 2) ^ 2 <= (Z.of_nat n / 2 - 10) ^ 2.
Proof.
  unfold in_circle, radius, center. simpl fst; simpl snd.
  rewrite Z.min_id. apply Z.leb_le.
Qed.

(** The centre pixel of a square map is under the mask. *)
Lemma mask_center_square (n : nat) :
  (1 <= n)%nat ->
  Np.get false (mask n n) (n / 2) (n / 2) = true.
Proof.
  intros Hn.
  assert (Hc : (n / 2 < n)%nat) by (apply Nat.div_lt; lia).
  rewrite mask_get by assumption.
  apply square_in_circle.
  rewrite Nat2Z.inj_div. simpl (Z.of_nat 2).
  rewrite Z.sub_diag. nia.
Qed.

(** ** Masked selection and assignment *)

Lemma zip_with_length {A B C} (f : A -> B -> C) (l : list A) (m : list B) :
  length l = length m -> length (Np.zip_with f l m) = length l.
Proof.
  revert m. induction l as [|a l IH]; intros [|b m] H; simpl in *; try lia.
  now rewrite IH by lia.
Qed.

Lemma zip_with_nth {A B C} (f : A -> B -> C) (dA : A) (dB : B) (dC : C)
    (l : list A) (m : list B) (i : nat) :
  (i < length l)%nat -> (i < length m)%nat ->
  nth i (Np.zip_with f l m) dC = f (nth i l dA) (nth i m dB).
Proof.
  revert m i. induction l as [|a l IH]; intros [|b m] [|i] Hl Hm;
    simpl in *; try lia; auto.
  apply IH; lia.
Qed.

Lemma zip_with_rows_shape {A B C} (f : A -> B -> C) (h w : nat)
    (a : Np.array2 A) (b : Np.array2 B) :
  Np.has_shape h w a -> Np.has_shape h w b ->
  Np.has_shape h w (Np.zip_with (Np.zip_with f) a b).
Proof.
  revert h b. induction a as [|r a IH]; intros h b [Ha Hra] [Hb Hrb].
  - simpl in *. split; [exact Ha | constructor].
  - destruct b as [|s b]; simpl in *; [lia|].
    inversion Hra; inversion Hrb; subst.
    destruct (IH (length a) b) as [E1 E2]; [split; auto | split; auto; lia |].
    split; [simpl; lia|]. constructor; auto.
    rewrite zip_with_length; lia.
Qed.

Lemma zip_with_rows_get {A B C} (f : A -> B -> C) (dA : A) (dB : B) (dC : C)
    (h w : nat) (a : Np.array2 A) (b : Np.array2 B) (y x : nat) :
  Np.has_shape h w a -> Np.has_shape h w b -> (y < h)%nat -> (x < w)%nat ->
  Np.get dC (Np.zip_with (Np.zip_with f) a b) y x
  = f (Np.get dA a y x) (Np.get dB b y x).
Proof.
  intros Ha Hb Hy Hx. unfold Np.get.
  pose proof (has_shape_row h w a y Ha Hy) as Ra.
  pose proof (has_shape_row h w b y Hb Hy) as Rb.
  destruct Ha as [La _], Hb as [Lb _].
  rewrite (zip_with_nth (Np.zip_with f) [] [] []) by lia.
  apply zip_with_nth; lia.
Qed.

Lemma mul_mask_shape (h w : nat) (g : Np.array2 Q) (m : Np.array2 bool) :
  Np.has_shape h w g -> Np.has_shape h w m -> Np.has_shape h w (Np.mul_mask g m).
Proof. apply zip_with_rows_shape. Qed.

Lemma mul_mask_get (h w : nat) (g : Np.array2 Q) (m : Np.array2 bool) (y x : nat) :
  Np.has_shape h w g -> Np.has_shape h w m -> (y < h)%nat -> (x < w)%nat ->
  Np.get 0%Q (Np.mul_mask g m) y x
  = if Np.get false m y x then Np.get 0%Q g y x else 0%Q.
Proof.
  intros. unfold Np.mul_mask.
  now rewrite (zip_with_rows_get _ 0%Q false 0%Q h w).
Qed.

(** The entries selected after the multiplication by the mask are the
    entries of the map itself: nothing outside the mask is selected. *)
Lemma select_row_mul_mask (r : list Q) (m : list bool) :
  Np.select_row (Np.zip_with (fun v (b : bool) => if b then v else 0%Q) r m) m
  = Np.select_row r m.
Proof.
  revert m. induction r as [|v r IH]; intros [|b m]; simpl; auto.
  destruct b; now rewrite IH.
Qed.

Lemma select_mul_mask (g : Np.array2 Q) (m : Np.array2 bool) :
  Np.select (Np.mul_mask g m) m = Np.select g m.
Proof.
  unfold Np.mul_mask. revert m.
  induction g as [|r g IH]; intros [|mr m]; simpl; auto.
  now rewrite select_row_mul_mask, IH.
Qed.

Lemma select_row_map {A B} (f : A -> B) (r : list A) (m : list bool) :
  Np.select_row (map f r) m = map f (Np.select_row r m).
Proof.
  revert m. induction r as [|v r IH]; intros [|b m]; simpl; auto.
  destruct b; simpl; now rewrite IH.
Qed.

Lemma select_map {A B} (f : A -> B) (a : Np.array2 A) (m : Np.array2 bool) :
  Np.select (map (map f) a) m = map f (Np.select a m).
Proof.
  revert m. induction a as [|r a IH]; intros [|mr m]; simpl; auto.
  now rewrite select_row_map, IH, map_app.
Qed.

Lemma select_row_In {A} (d : A) (r : list A) (m : list bool) (x : nat) :
  (x < length r)%nat -> nth x m false = true ->
  In (nth x r d) (Np.select_row r m).
Proof.
  revert m x. induction r as [|v r IH]; intros [|b m] [|x] Hx Hm;
    simpl in *; try lia; try discriminate.
  - subst b. now left.
  - destruct b; [right|]; apply IH; auto; lia.
Qed.

(** A pixel under the mask is among the selected entries. *)
Lemma select_In {A} (d : A) (a : Np.array2 A) (m : Np.array2 bool) (y x : nat) :
  (y < length a)%nat -> (x < length (nth y a []))%nat ->
  Np.get false m y x = true ->
  In (Np.get d a y x) (Np.select a m).
Proof.
  unfold Np.get. revert m y.
  induction a as [|r a IH]; intros [|mr m] [|y] Hy Hx Hm;
    simpl in *; try lia; try (destruct x; discriminate).
  - apply in_or_app. left. now apply select_row_In.
  - apply in_or_app. right. apply IH; auto; lia.
Qed.

(** Selected entries come from pixels under the mask. *)
Lemma select_row_inv {A} (d : A) (r : list A) (m : list bool) (v : A) :
  In v (Np.select_row r m) ->
  exists x, (x < length r)%nat /\ nth x m false = true /\ nth x r d = v.
Proof.
  revert m. induction r as [|u r IH]; intros [|b m] H; simpl in *; try tauto.
  destruct b.
  - destruct H as [<- | H].
    + exists 0%nat. repeat split; auto; lia.
    + destruct (IH m H) as [x [H1 [H2 H3]]]. exists (S x). repeat split; auto; lia.
  - destruct (IH m H) as [x [H1 [H2 H3]]]. exists (S x). repeat split; auto; lia.
Qed.

Lemma select_inv {A} (d : A) (a : Np.array2 A) (m : Np.array2 bool) (v : A) :
  In v (Np.select a m) ->
  exists y x, (y < length a)%nat /\ (x < length (nth y a []))%nat /\
              Np.get false m y x = true /\ Np.get d a y x = v.
Proof.
  unfold Np.get. revert m.
  induction a as [|r a IH]; intros [|mr m] H; simpl in *; try tauto.
  apply in_app_or in H. destruct H as [H | H].
  - destruct (select_row_inv d r mr v H) as [x [H1 [H2 H3]]].
    exists 0%nat, x. repeat split; auto; lia.
  - destruct (IH m H) as [y [x [H1 [H2 [H3 H4]]]]].
    exists (S y), x. repeat split; auto; lia.
Qed.

(** Writing back a function of the selected entries changes exactly the
    pixels under the mask. *)
Lemma assign_row_map_select {A} (f : A -> A) (r : list A) (m : list bool)
    (rest : list A) :
  length r = length m ->
  Np.assign_row r m (map f (Np.select_row r m) ++ rest)
  = (Np.zip_with (fun v (b : bool) => if b then f v else v) r m, rest).
Proof.
  revert m. induction r as [|v r IH]; intros [|b m] H; simpl in *;
    try discriminate; auto.
  destruct b; simpl; rewrite IH by lia; reflexivity.
Qed.

Lemma assign_map_select {A} (f : A -> A) (h w : nat) (a : Np.array2 A)
    (m : Np.array2 bool) (rest : list A) :
  Np.has_shape h w a -> Np.has_shape h w m ->
  Np.assign a m (map f (Np.select a m) ++ rest)
  = Np.zip_with (Np.zip_with (fun v (b : bool) => if b then f v else v)) a m.
Proof.
  revert h m. induction a as [|r a IH]; intros h [|mr m] [Ha Hra] [Hm Hrm];
    simpl in *; auto; subst h; try discriminate.
  inversion Hra; inversion Hrm; subst.
  rewrite map_app, <- app_assoc, assign_row_map_select by lia.
  f_equal. apply (IH (length a)); split; auto; lia.
Qed.

#[local] Hint Resolve mask_shape zip_with_rows_shape mul_mask_shape : shapes.

(** ** Minimum and maximum of the selected entries *)

Lemma fold_max_ge (t : list Q) (x : Q) :
  (x <= fold_left Qmax t x)%Q /\
  forall v, In v t -> (v <= fold_left Qmax t x)%Q.
Proof.
  revert x. induction t as [|u t IH]; intros x; simpl.
  - split; [apply Qle_refl | tauto].
  - destruct (IH (Qmax x u)) as [H1 H2]. split.
    + eapply Qle_trans; [apply Q.le_max_l | exact H1].
    + intros v [<- | Hv]; auto.
      eapply Qle_trans; [apply Q.le_max_r | exact H1].
Qed.

Lemma fold_min_le (t : list Q) (x : Q) :
  (fold_left Qmin t x <= x)%Q /\
  forall v, In v t -> (fold_left Qmin t x <= v)%Q.
Proof.
  revert x. induction t as [|u t IH]; intros x; simpl.
  - split; [apply Qle_refl | tauto].
  - destruct (IH (Qmin x u)) as [H1 H2]. split.
    + eapply Qle_trans; [exact H1 | apply Q.le_min_l].
    + intros v [<- | Hv]; auto.
      eapply Qle_trans; [exact H1 | apply Q.le_min_r].
Qed.

Lemma amax_ge (l : list Q) (mx v : Q) :
  Np.amax l = Some mx -> In v l -> (v <= mx)%Q.
Proof.
  destruct l as [|x t]; simpl; [discriminate|].
  intros E Hv. inversion E; subst.
  destruct (fold_max_ge t x) as [H1 H2]. destruct Hv as [<- | Hv]; auto.
Qed.

Lemma amin_le (l : list Q) (mn v : Q) :
  Np.amin l = Some mn -> In v l -> (mn <= v)%Q.
Proof.
  destruct l as [|x t]; simpl; [discriminate|].
  intros E Hv. inversion E; subst.
  destruct (fold_min_le t x) as [H1 H2]. destruct Hv as [<- | Hv]; auto.
Qed.

(** The maximum and the minimum are entries of the list. *)
Lemma Qmax_cases (x u : Q) : Qmax x u = x \/ Qmax x u = u.
Proof. unfold Qmax, GenericMinMax.gmax. destruct (x ?= u)%Q; auto. Qed.

Lemma Qmin_cases (x u : Q) : Qmin x u = x \/ Qmin x u = u.
Proof. unfold Qmin, GenericMinMax.gmin. destruct (x ?= u)%Q; auto. Qed.

Lemma fold_max_In (t : list Q) (x : Q) : In (fold_left Qmax t x) (x :: t).
Proof.
  revert x. induction t as [|u t IH]; intros x; simpl; [now left|].
  destruct (IH (Qmax x u)) as [H | H].
  - rewrite <- H. destruct (Qmax_cases x u) as [E | E]; rewrite E; auto.
  - right. now right.
Qed.

Lemma fold_min_In (t : list Q) (x : Q) : In (fold_left Qmin t x) (x :: t).
Proof.
  revert x. induction t as [|u t IH]; intros x; simpl; [now left|].
  destruct (IH (Qmin x u)) as [H | H].
  - rewrite <- H. destruct (Qmin_cases x u) as [E | E]; rewrite E; auto.
  - right. now right.
Qed.

Lemma amax_In (l : list Q) (mx : Q) : Np.amax l = Some mx -> In mx l.
Proof.
  destruct l as [|x t]; simpl; [discriminate|].
  intros E; inversion E; subst. apply fold_max_In.
Qed.

Lemma amin_In (l : list Q) (mn : Q) : Np.amin l = Some mn -> In mn l.
Proof.
  destruct l as [|x t]; simpl; [discriminate|].
  intros E; inversion E; subst. apply fold_min_In.
Qed.

Lemma amax_nonempty (l : list Q) : l <> [] -> exists mx, Np.amax l = Some mx.
Proof. destruct l; [congruence | eexists; reflexivity]. Qed.

Lemma amin_nonempty (l : list Q) : l <> [] -> exists mn, Np.amin l = Some mn.
Proof. destruct l; [congruence | eexists; reflexivity]. Qed.

Lemma Qltb_lt (a b : Q) : Np.Qltb a b = true <-> (a < b)%Q.
Proof.
  unfold Np.Qltb. rewrite negb_true_iff. split; intros H.
  - apply Qnot_le_lt. intros C. apply Qle_bool_iff in C. congruence.
  - destruct (Qle_bool b a) eqn:E; auto.
    apply Qle_bool_iff in E. exfalso. now apply (Qlt_not_le a b).
Qed.

Lemma Qltb_ge (a b : Q) : Np.Qltb a b = false <-> (b <= a)%Q.
Proof.
  unfold Np.Qltb. rewrite negb_false_iff. apply Qle_bool_iff.
Qed.

(** Min-max rescaling sends the interval [mn, mx] to [0, 1]. *)
Lemma rescale_range (mn mx v : Q) :
  (mn < mx)%Q -> (mn <= v)%Q -> (v <= mx)%Q ->
  (0 <= (v - mn) / (mx - mn) /\ (v - mn) / (mx - mn) <= 1)%Q.
Proof.
  intros Hlt Hlo Hhi.
  assert (Hd : (0 < mx - mn)%Q) by lra.
  split.
  - apply Qle_shift_div_l; [exact Hd | lra].
  - apply Qle_shift_div_r; [exact Hd | lra].
Qed.

(** ** Normalisation (lines 73-78) *)

(** C2.  When the maximum of the entries under the mask exceeds their
    minimum, the normalisation step rescales every pixel under the mask to
    (v - min) / (max - min), a value of [0, 1]; every pixel outside the mask
    is zero; and the minimum and maximum are taken over the entries of the
    map under the mask only (the selection after the multiplication by the
    mask is the selection of the map itself). *)
Theorem normalize_in_mask (h w : nat) (g : Np.array2 Q) (m : Np.array2 bool)
    (mn mx : Q) :
  Np.has_shape h w g -> Np.has_shape h w m ->
  Np.amax (Np.select (Np.mul_mask g m) m) = Some mx ->
  Np.amin (Np.select (Np.mul_mask g m) m) = Some mn ->
  (mn < mx)%Q ->
  Np.select (Np.mul_mask g m) m = Np.select g m /\
  exists g',
    normalize (Np.mul_mask g m) m = Some g' /\
    Np.has_shape h w g' /\
    forall y x, (y < h)%nat -> (x < w)%nat ->
      (Np.get false m y x = true ->
         Np.get 0%Q g' y x = ((Np.get 0%Q g y x - mn) / (mx - mn))%Q /\
         (0 <= Np.get 0%Q g' y x)%Q /\ (Np.get 0%Q g' y x <= 1)%Q) /\
      (Np.get false m y x = false -> Np.get 0%Q g' y x = 0%Q).
Proof.
  intros Hg Hm Hmx Hmn Hlt.
  split; [apply select_mul_mask|].
  pose proof (mul_mask_shape h w g m Hg Hm) as Hgm.
  unfold normalize. rewrite Hmx, Hmn.
  apply Qltb_lt in Hlt. rewrite Hlt. apply Qltb_lt in Hlt.
  eexists. split; [reflexivity|].
  rewrite <- (app_nil_r (map _ _)).
  rewrite (assign_map_select _ h w) by assumption.
  split; [now apply zip_with_rows_shape|].
  intros y x Hy Hx.
  rewrite (zip_with_rows_get _ 0%Q false 0%Q h w) by assumption.
  rewrite (mul_mask_get h w) by assumption.
  split; intros Hb; rewrite Hb; [|reflexivity].
  split; [reflexivity|].
  assert (Hin : In (Np.get 0%Q g y x) (Np.select (Np.mul_mask g m) m)).
  { rewrite select_mul_mask. apply select_In; auto.
    - destruct Hg as [Hl _]; lia.
    - rewrite (has_shape_row h w) by assumption. exact Hx. }
  apply rescale_range; auto.
  - now apply (amin_le _ _ _ Hmn).
  - now apply (amax_ge _ _ _ Hmx).
Qed.

(** The normalisation step succeeds as soon as one pixel is under the
    mask, and keeps the shape of the map. *)
Lemma normalize_some (h w : nat) (gm : Np.array2 Q) (m : Np.array2 bool) :
  Np.has_shape h w gm -> Np.has_shape h w m ->
  Np.select gm m <> [] ->
  exists g', normalize gm m = Some g' /\ Np.has_shape h w g'.
Proof.
  intros Hg Hm Hne. unfold normalize.
  destruct (amax_nonempty _ Hne) as [mx ->].
  destruct (amin_nonempty _ Hne) as [mn ->].
  destruct (Np.Qltb mn mx).
  - eexists. split; [reflexivity|].
    rewrite <- (app_nil_r (map _ _)).
    rewrite (assign_map_select _ h w) by assumption.
    now apply zip_with_rows_shape.
  - eexists. split; [reflexivity | assumption].
Qed.

Lemma select_nonempty {A} (a : Np.array2 A) (m : Np.array2 bool) (h w y x : nat) :
  Np.has_shape h w a -> (y < h)%nat -> (x < w)%nat ->
  Np.get false m y x = true -> Np.select a m <> [].
Proof.
  intros Ha Hy Hx Hb E.
  pose proof (has_shape_row h w a y Ha Hy) as Hrow.
  destruct (nth y a []) as [|d r] eqn:Er; [simpl in Hrow; lia|].
  assert (Hin : In (Np.get d a y x) (Np.select a m)).
  { apply select_In; auto.
    - destruct Ha; lia.
    - rewrite Er, Hrow. exact Hx. }
  rewrite E in Hin. exact Hin.
Qed.

Lemma apply_threshold_shape (h w : nat) (g : Np.array2 Q) (m : Np.array2 bool) :
  Np.has_shape h w g -> Np.has_shape h w (apply_threshold g m).
Proof. intros. unfold apply_threshold, Np.zero_below. auto with shapes. Qed.

(** Lines 68-81 succeed on a map with a pixel under its mask. *)
Lemma masked_saliency_some (h w : nat) (g : Np.array2 Q) (y x : nat) :
  Np.has_shape h w g -> (y < h)%nat -> (x < w)%nat ->
  in_circle h w (Z.of_nat y) (Z.of_nat x) = true ->
  exists g', masked_saliency g = Some g' /\ Np.has_shape h w g'.
Proof.
  intros Hg Hy Hx Hc. unfold masked_saliency.
  rewrite (has_shape_length h w g Hg).
  rewrite (has_shape_width h w g Hg) by lia.
  assert (Hm : Np.has_shape h w (mask h w)) by auto with shapes.
  assert (Hgm : Np.has_shape h w (Np.mul_mask g (mask h w))) by auto with shapes.
  destruct (normalize_some h w _ _ Hgm Hm) as [g1 [E1 S1]].
  - apply (select_nonempty _ _ h w y x); auto. now rewrite mask_get.
  - rewrite E1. eexists. split; [reflexivity|].
    now apply apply_threshold_shape.
Qed.

(** ** The mask is not empty on square maps (lines 68-80) *)

(** C10.  For every square output size of side at least 1 the centre pixel
    (side//2, side//2) is under the mask, so the selection [gradients[mask]]
    is not empty: its maximum and minimum exist and the steps up to the
    percentile threshold raise nothing. *)
Theorem square_mask_nonempty (n : nat) (g : Np.array2 Q) :
  (1 <= n)%nat -> Np.has_shape n n g ->
  Np.get false (mask n n) (n / 2) (n / 2) = true /\
  Np.select (Np.mul_mask g (mask n n)) (mask n n) <> [] /\
  (exists mx mn,
     Np.amax (Np.select (Np.mul_mask g (mask n n)) (mask n n)) = Some mx /\
     Np.amin (Np.select (Np.mul_mask g (mask n n)) (mask n n)) = Some mn) /\
  exists g', masked_saliency g = Some g' /\ Np.has_shape n n g'.
Proof.
  intros Hn Hg.
  assert (Hc : (n / 2 < n)%nat) by (apply Nat.div_lt; lia).
  pose proof (mask_center_square n Hn) as Hcenter.
  assert (Hne : Np.select (Np.mul_mask g (mask n n)) (mask n n) <> []).
  { apply (select_nonempty _ _ n n (n / 2) (n / 2)); auto.
    apply mul_mask_shape; [assumption | apply mask_shape]. }
  split; [exact Hcenter|]. split; [exact Hne|]. split.
  - destruct (amax_nonempty _ Hne) as [mx Emx].
    destruct (amin_nonempty _ Hne) as [mn Emn]. now exists mx, mn.
  - apply (masked_saliency_some n n g (n / 2) (n / 2)); auto.
    now rewrite <- mask_get.
Qed.

(** ** The margin left by the mask (lines 68-71) *)



(** ** The percentile (line 80) *)

Lemma insert_sorted_perm (x : Q) (l : list Q) :
  Permutation (x :: l) (Np.insert_sorted x l).
Proof.
  induction l as [|y t IH]; simpl; [reflexivity|].
  destruct (Qle_bool x y); [reflexivity|].
  rewrite perm_swap. now constructor.
Qed.

Lemma sort_perm (l : list Q) : Permutation l (Np.sort l).
Proof.
  induction l as [|x t IH]; simpl; [constructor|].
  rewrite <- insert_sorted_perm. now constructor.
Qed.

Lemma sort_length (l : list Q) : length (Np.sort l) = length l.
Proof. symmetry. apply Permutation_length, sort_perm. Qed.

Lemma insert_sorted_sorted (x : Q) (l : list Q) :
  StronglySorted Qle l -> StronglySorted Qle (Np.insert_sorted x l).
Proof.
  induction 1 as [|y t Hs IH Hy]; simpl.
  - constructor; constructor.
  - destruct (Qle_bool x y) eqn:E.
    + apply Qle_bool_iff in E. constructor; [now constructor|].
      constructor; [exact E|].
      eapply Forall_impl; [|exact Hy]. intros z Hz.
      now apply Qle_trans with y.
    + assert (Hyx : (y <= x)%Q).
      { apply Qlt_le_weak, Qnot_le_lt. intros C.
        apply Qle_bool_iff in C. congruence. }
      constructor; [exact IH|].
      apply (Permutation_Forall (insert_sorted_perm x t)).
      now constructor.
Qed.

Lemma sort_sorted (l : list Q) : StronglySorted Qle (Np.sort l).
Proof.
  induction l as [|x t IH]; simpl; [constructor|].
  now apply insert_sorted_sorted.
Qed.

Lemma sorted_nth_le (s : list Q) (i j : nat) :
  StronglySorted Qle s -> (i <= j)%nat -> (j < length s)%nat ->
  (nth i s 0 <= nth j s 0)%Q.
Proof.
  intros Hs. revert i j.
  induction Hs as [|a t Hs IH Ha]; intros i j Hij Hj; simpl in *; [lia|].
  destruct i as [|i], j as [|j]; try lia.
  - apply Qle_refl.
  - rewrite Forall_forall in Ha. apply Ha, nth_In. lia.
  - apply IH; lia.
Qed.

(** In a sorted list, the entries above a bound on the k-th entry are among
    the entries after the k-th. *)
Lemma count_above_sorted (s : list Q) (t : Q) (k : nat) :
  StronglySorted Qle s -> (k < length s)%nat -> (nth k s 0 <= t)%Q ->
  (length (filter (fun v => Np.Qltb t v) s) + (k + 1) <= length s)%nat.
Proof.
  intros Hs. revert k.
  induction Hs as [|a u Hs IH Ha]; intros k Hk Ht; simpl in *; [lia|].
  assert (Hat : (a <= t)%Q).
  { destruct k as [|k]; [exact Ht|].
    apply Qle_trans with (nth k u 0%Q); [|exact Ht].
    rewrite Forall_forall in Ha. apply Ha, nth_In. lia. }
  apply Qltb_ge in Hat. rewrite Hat.
  destruct k as [|k].
  - pose proof (filter_length_le (fun v => Np.Qltb t v) u). lia.
  - specialize (IH k ltac:(lia) Ht). lia.
Qed.

Lemma filter_length_perm {A} (p : A -> bool) (l l' : list A) :
  Permutation l l' -> length (filter p l) = length (filter p l').
Proof.
  induction 1 as [| x l l' _ IH | x y l | l l' l'' _ IH1 _ IH2]; simpl; auto.
  - destruct (p x); simpl; now rewrite IH.
  - destruct (p x), (p y); reflexivity.
  - now rewrite IH1.
Qed.

(** The virtual index of the 80th percentile and its integer part. *)
Lemma virtual_index_bounds (n : Z) :
  1 <= n ->
  let v := ((80 # 100) * inject_Z (n - 1))%Q in
  0 <= Qfloor v <= n - 1 /\ 4 * n - 8 <= 5 * Qfloor v /\
  (0 <= v - inject_Z (Qfloor v))%Q.
Proof.
  intros Hn v.
  pose proof (Qfloor_le v) as H1. pose proof (Qlt_floor v) as H2.
  assert (Hv : (v == inject_Z (4 * (n - 1)) / 5)%Q).
  { unfold v. rewrite inject_Z_mult. field. }
  assert (H5 : (inject_Z (5 * Qfloor v) <= inject_Z (4 * (n - 1)))%Q).
  { rewrite inject_Z_mult. rewrite Hv in H1 at 2. 
    apply (Qmult_le_l _ _ (/ 5)); [reflexivity|].
    rewrite Qmult_assoc. 
    setoid_replace (/ 5 * inject_Z 5)%Q with 1%Q by reflexivity.
    rewrite Qmult_1_l. rewrite Qmult_comm. exact H1. }
  assert (H6 : (inject_Z (4 * (n - 1)) < inject_Z (5 * (Qfloor v + 1)))%Q).
  { rewrite (inject_Z_mult 5). rewrite Hv in H2 at 1.
    apply (Qmult_lt_l _ _ (/ 5)); [reflexivity|].
    rewrite (Qmult_assoc (/ 5)).
    setoid_replace (/ 5 * inject_Z 5)%Q with 1%Q by reflexivity.
    rewrite Qmult_1_l. rewrite Qmult_comm. exact H2. }
  rewrite <- Zle_Qle in H5. rewrite <- Zlt_Qlt in H6.
  repeat split; try lia. lra.
Qed.

(** The percentile is at least the sorted entry at the integer part of its
    virtual index. *)
Lemma percentile_ge_previous (l : list Q) :
  l <> [] ->
  let k := Z.to_nat (Qfloor ((80 # 100) * inject_Z (Z.of_nat (length l) - 1))) in
  (k < length l)%nat /\ (nth k (Np.sort l) 0 <= Np.percentile l 80)%Q.
Proof.
  intros Hne k.
  assert (Hn : 1 <= Z.of_nat (length l)) by (destruct l; simpl in *; [congruence | lia]).
  destruct (virtual_index_bounds _ Hn) as [[Hk0 Hk1] [_ Hgamma]].
  split; [unfold k; lia|].
  unfold Np.percentile.
  set (v := ((80 # 100) * inject_Z (Z.of_nat (length l) - 1))%Q) in *.
  set (lo := nth (Z.to_nat (Qfloor v)) (Np.sort l) 0%Q).
  set (hi := nth (Z.to_nat (Z.min (Qfloor v + 1) (Z.of_nat (length l) - 1)))
                 (Np.sort l) 0%Q).
  assert (Hlohi : (lo <= hi)%Q).
  { apply sorted_nth_le; [apply sort_sorted | lia | rewrite sort_length; lia]. }
  fold lo in k. unfold k. fold lo.
  assert (Hprod : (0 <= (hi - lo) * (v - inject_Z (Qfloor v)))%Q).
  { apply Qmult_le_0_compat; [lra | exact Hgamma]. }
  lra.
Qed.

(** At most ceil((n - 1) / 5) of n values are strictly above their 80th
    percentile. *)
Lemma count_above_percentile (l : list Q) :
  (5 * length (filter (fun v => Np.Qltb (Np.percentile l 80) v) l)
   <= length l + 3)%nat.
Proof.
  destruct l as [|x l0] eqn:El; [simpl; lia|]. rewrite <- El.
  assert (Hne : l <> []) by (rewrite El; discriminate).
  destruct (percentile_ge_previous l Hne) as [Hk Ht].
  assert (Hn : 1 <= Z.of_nat (length l)) by lia.
  destruct (virtual_index_bounds _ Hn) as [[Hk0 Hk1] [H5 _]].
  set (k := Z.to_nat (Qfloor ((80 # 100) * inject_Z (Z.of_nat (length l) - 1)))) in *.
  pose proof (count_above_sorted (Np.sort l) (Np.percentile l 80) k
                (sort_sorted l) ltac:(rewrite sort_length; exact Hk) Ht) as Hc.
  rewrite <- (filter_length_perm _ _ _ (sort_perm l)) in Hc.
  rewrite sort_length in Hc.
  assert (Hkz : Z.of_nat k = Qfloor ((80 # 100) * inject_Z (Z.of_nat (length l) - 1)))
    by (unfold k; lia).
  lia.
Qed.

(** ** The percentile threshold (lines 80-81) *)

Lemma filter_length_impl {A} (p q : A -> bool) (l : list A) :
  (forall v, p v = true -> q v = true) ->
  (length (filter p l) <= length (filter q l))%nat.
Proof.
  intros Hpq. induction l as [|v l IH]; simpl; [lia|].
  destruct (p v) eqn:Ep.
  - rewrite (Hpq v Ep). simpl. lia.
  - destruct (q v); simpl; lia.
Qed.

Lemma filter_length_map {A B} (p : B -> bool) (f : A -> B) (l : list A) :
  length (filter p (map f l)) = length (filter (fun v => p (f v)) l).
Proof.
  induction l as [|v l IH]; simpl; [reflexivity|].
  destruct (p (f v)); simpl; now rewrite IH.
Qed.

(** C4, amended.  The threshold step sets every entry strictly below the
    threshold to zero and leaves every other entry unchanged.  Of the n
    pixels under the mask, those that are still non-zero afterwards with a
    value other than the threshold itself number at most ceil((n - 1) / 5),
    that is 20% of n rounded up; pixels equal to the threshold are kept as
    well, whatever their number. *)
Theorem threshold_keeps_top (h w : nat) (g : Np.array2 Q) (m : Np.array2 bool) :
  Np.has_shape h w g -> Np.has_shape h w m ->
  (forall y x, (y < h)%nat -> (x < w)%nat ->
     Np.get 0%Q (apply_threshold g m) y x
     = if Np.Qltb (Np.get 0%Q g y x) (threshold g m) then 0%Q
       else Np.get 0%Q g y x) /\
  (5 * above_count (threshold g m) (Np.select (apply_threshold g m) m)
   <= length (Np.select g m) + 3)%nat.
Proof.
  intros Hg Hm. split.
  - intros y x Hy Hx. unfold apply_threshold, Np.zero_below.
    now rewrite (map_map_get _ 0%Q 0%Q h w).
  - unfold apply_threshold, Np.zero_below, above_count.
    rewrite select_map, filter_length_map.
    fold (threshold g m).
    eapply Nat.le_trans; [|apply (count_above_percentile (Np.select g m))].
    apply Nat.mul_le_mono_l. apply filter_length_impl.
    intros v Hv. apply andb_true_iff in Hv. destruct Hv as [H0 Ht].
    fold (threshold g m). 
    destruct (Np.Qltb v (threshold g m)) eqn:E.
    + rewrite negb_true_iff in H0. discriminate H0.
    + apply Qltb_ge in E. apply Qltb_lt.
      rewrite negb_true_iff in Ht.
      apply Qle_lt_or_eq in E. destruct E as [E | E]; [exact E|].
      assert (Qeq_bool v (threshold g m) = true)
        by (apply Qeq_bool_iff; now symmetry).
      congruence.
Qed.

(** ** Shapes through the OpenCV steps *)

Lemma resize_same {A} (d : A) (blend : Q -> Q -> A -> A -> A -> A -> A)
    (h w : nat) (src : Np.array2 A) :
  Np.has_shape h w src -> (0 < h)%nat -> (0 < w)%nat ->
  Cv2.resize d blend src (w, h) = Some src.
Proof.
  intros Hs Hh Hw. unfold Cv2.resize.
  rewrite (has_shape_width h w src Hs Hh), (has_shape_length h w src Hs).
  destruct h, w; try lia. simpl. now rewrite !Nat.eqb_refl.
Qed.

Lemma resize_shape {A} (d : A) (blend : Q -> Q -> A -> A -> A -> A -> A)
    (sh sw h w : nat) (src : Np.array2 A) :
  Np.has_shape sh sw src -> (0 < sh)%nat -> (0 < sw)%nat ->
  (0 < h)%nat -> (0 < w)%nat ->
  exists r, Cv2.resize d blend src (w, h) = Some r /\ Np.has_shape h w r.
Proof.
  intros Hs Hsh Hsw Hh Hw. unfold Cv2.resize.
  rewrite (has_shape_width sh sw src Hs Hsh), (has_shape_length sh sw src Hs).
  destruct (Nat.eqb_spec sh 0), (Nat.eqb_spec sw 0), (Nat.eqb_spec w 0),
    (Nat.eqb_spec h 0); try lia. simpl.
  destruct (Nat.eqb sh h && Nat.eqb sw w) eqn:E.
  - apply andb_true_iff in E. destruct E as [E1 E2].
    apply Nat.eqb_eq in E1, E2. subst.
    eexists; split; [reflexivity | assumption].
  - eexists; split; [reflexivity|].
    apply (tabulate_shape (Cv2.resize_pixel d blend src sh sw h w)).
Qed.

Lemma blur_rows_shape (h w : nat) (g : Np.array2 Q) :
  Np.has_shape h w g -> Np.has_shape h w (Cv2.blur_rows g).
Proof.
  intros [Hl Hr]. unfold Cv2.blur_rows. split.
  - now rewrite length_map.
  - apply Forall_forall. intros r Hin. apply in_map_iff in Hin.
    destruct Hin as [r0 [<- Hr0]]. rewrite length_map, length_seq.
    rewrite Forall_forall in Hr. now apply Hr.
Qed.

Lemma blur_cols_shape (h w : nat) (g : Np.array2 Q) :
  Np.has_shape h w g -> Np.has_shape h w (Cv2.blur_cols g).
Proof.
  intros Hg. pose proof Hg as [Hl Hr]. unfold Cv2.blur_cols. split.
  - now rewrite length_map, length_seq.
  - apply Forall_forall. intros r Hin. apply in_map_iff in Hin.
    destruct Hin as [y [<- Hy]]. rewrite length_map, length_seq.
    apply in_seq in Hy. apply (has_shape_row h w); [assumption | lia].
Qed.

Lemma GaussianBlur_shape (h w : nat) (g : Np.array2 Q) :
  Np.has_shape h w g -> Np.has_shape h w (Cv2.GaussianBlur g).
Proof. intros. unfold Cv2.GaussianBlur. now apply blur_cols_shape, blur_rows_shape. Qed.

#[local] Hint Resolve blur_rows_shape blur_cols_shape GaussianBlur_shape : shapes.

(** The heat map has the shape of the map it is computed from; the resize
    of line 88 then copies it. *)
Lemma make_heatmap_some (h w : nat) (g : Np.array2 Q) :
  Np.has_shape h w g -> (0 < h)%nat -> (0 < w)%nat ->
  make_heatmap g (w, h)
  = Some (Cv2.swap_channels
            (Cv2.applyColorMap (to_uint8 (Cv2.GaussianBlur g)))) /\
  Np.has_shape h w
    (Cv2.swap_channels (Cv2.applyColorMap (to_uint8 (Cv2.GaussianBlur g)))).
Proof.
  intros Hg Hh Hw.
  assert (Hs : Np.has_shape h w
            (Cv2.swap_channels (Cv2.applyColorMap (to_uint8 (Cv2.GaussianBlur g))))).
  { unfold Cv2.swap_channels, Cv2.applyColorMap, to_uint8. auto with shapes. }
  split; [|exact Hs].
  unfold make_heatmap, Cv2.resize_rgb. now apply resize_same.
Qed.

(** ** The composite (lines 90-92) *)

Lemma img_to_array_shape (h w : nat) (i : Np.array2 (byte * byte * byte)) :
  Np.has_shape h w i -> Np.has_shape h w (img_to_array i).
Proof. apply map_map_shape. Qed.

Lemma broadcast_dim_refl (n : nat) : broadcast_dim n n = Some n.
Proof. unfold broadcast_dim. now rewrite Nat.eqb_refl. Qed.

Lemma broadcast_get_same {A} (d : A) (h w : nat) (a : Np.array2 A) (y x : nat) :
  Np.has_shape h w a -> (y < h)%nat -> (x < w)%nat ->
  broadcast_get d a y x = Np.get d a y x.
Proof.
  intros Ha Hy Hx. unfold broadcast_get.
  rewrite (has_shape_length h w a Ha), (has_shape_width h w a Ha) by lia.
  destruct (Nat.eqb_spec h 1), (Nat.eqb_spec w 1); subst;
    repeat match goal with
           | H : (?v < 1)%nat |- _ => assert (v = 0%nat) by lia; subst v; clear H
           end; reflexivity.
Qed.

(** The composite in terms of its entries. *)
Lemma superimpose_entries (heatmap : Np.array2 (Z * Z * Z)) (original : Tf.tensor)
    (c : Np.array2 (Z * Z * Z)) :
  superimpose heatmap original = Some c ->
  exists h w,
    broadcast_dim (length heatmap) (length original) = Some h /\
    broadcast_dim (Np.width heatmap) (Np.width original) = Some w /\
    Np.has_shape h w c /\
    forall y x, (y < h)%nat -> (x < w)%nat ->
      Np.get (0, 0, 0) c y x
      = blend_pixel (broadcast_get (0, 0, 0) heatmap y x)
                    (broadcast_get (0%Q, 0%Q, 0%Q) original y x).
Proof.
  unfold superimpose.
  destruct (broadcast_dim (length heatmap) (length original)) as [h|]; [|discriminate].
  destruct (broadcast_dim (Np.width heatmap) (Np.width original)) as [w|]; [|discriminate].
  intros E. inversion E; subst c; clear E.
  exists h, w. split; [reflexivity|]. split; [reflexivity|]. split.
  - apply (tabulate_shape (fun y x =>
      blend_pixel (broadcast_get (0, 0, 0) heatmap y x)
                  (broadcast_get (0%Q, 0%Q, 0%Q) original y x))).
  - intros y x Hy Hx.
    apply (tabulate_get (0, 0, 0) (fun y x =>
      blend_pixel (broadcast_get (0, 0, 0) heatmap y x)
                  (broadcast_get (0%Q, 0%Q, 0%Q) original y x))); assumption.
Qed.

Lemma superimpose_same_shape (h w : nat) (heatmap : Np.array2 (Z * Z * Z))
    (original : Tf.tensor) :
  Np.has_shape h w heatmap -> Np.has_shape h w original ->
  (0 < h)%nat -> (0 < w)%nat ->
  exists c,
    superimpose heatmap original = Some c /\ Np.has_shape h w c /\
    forall y x, (y < h)%nat -> (x < w)%nat ->
      Np.get (0, 0, 0) c y x
      = blend_pixel (Np.get (0, 0, 0) heatmap y x)
                    (Np.get (0%Q, 0%Q, 0%Q) original y x).
Proof.
  intros Hh Ho Hpos Wpos.
  destruct (superimpose heatmap original) as [c|] eqn:E.
  - destruct (superimpose_entries _ _ _ E) as [h' [w' [E1 [E2 [Hs Hget]]]]].
    rewrite (has_shape_length h w _ Hh), (has_shape_length h w _ Ho),
      broadcast_dim_refl in E1.
    rewrite (has_shape_width h w _ Hh), (has_shape_width h w _ Ho),
      broadcast_dim_refl in E2 by lia.
    inversion E1; inversion E2; subst h' w'.
    exists c. split; [reflexivity|]. split; [exact Hs|].
    intros y x Hy Hx. rewrite Hget by assumption.
    now rewrite (broadcast_get_same _ h w heatmap), (broadcast_get_same _ h w original).
  - exfalso. unfold superimpose in E.
    rewrite (has_shape_length h w _ Hh), (has_shape_length h w _ Ho),
      broadcast_dim_refl in E.
    rewrite (has_shape_width h w _ Hh), (has_shape_width h w _ Ho),
      broadcast_dim_refl in E by lia.
    discriminate.
Qed.

(** ** Runs of [generate_saliency_map] *)

(** Unfolding of the sequencing operations. *)
Ltac unfold_run := unfold bind, tell, ret, raise, or_raise.

Lemma class_gradients_returns (model : Tf.classifier) (t : Tf.tensor) (k : Z)
    (g : Tf.tensor) (w : world) :
  0 <= k < Z.of_nat (length (Tf.predict model t)) ->
  Tf.score_gradient model (Z.to_nat k) t = Some g ->
  class_gradients model t k w
  = (Returned (Tf.abs_reduce_max g), gradient_ops ++ w).
Proof.
  intros Hk Hg.
  unfold class_gradients, Tf.slice_column; unfold_run.
  assert (E1 : (- Z.of_nat (length (Tf.predict model t)) <=? k)
               && (k <? Z.of_nat (length (Tf.predict model t))) = true).
  { apply andb_true_iff. split; [apply Z.leb_le | apply Z.ltb_lt]; lia. }
  simpl. rewrite E1.
  assert (E2 : (k <? 0) = false) by (apply Z.ltb_ge; lia).
  rewrite E2, Hg. reflexivity.
Qed.

(** An index outside [-n, n - 1] stops the call at the slicing of the
    predictions, after the forward pass. *)
Lemma class_gradients_raises (model : Tf.classifier) (t : Tf.tensor) (k : Z)
    (w : world) :
(k < - Z.of_nat (length (Tf.predict model t))) \/
  (Z.of_nat (length (Tf.predict model t)) <= k) ->
  class_gradients model t k w
  = (Raised InvalidArgumentError,
     TensorOp OpCall :: TensorOp OpWatch :: TensorOp OpConvertToTensor :: w).
Proof.
  intros Hk.
  unfold class_gradients, Tf.slice_column; unfold_run.
  assert (E1 : (- Z.of_nat (length (Tf.predict model t)) <=? k)
               && (k <? Z.of_nat (length (Tf.predict model t))) = false).
  { apply andb_false_iff. destruct Hk; [left; apply Z.leb_gt | right; apply Z.ltb_ge]; lia. }
  simpl. rewrite E1. reflexivity.
Qed.

(** The steps of lines 66-92 leave the world as it is. *)
Lemma composite_world (G : globals) (g : Np.array2 Q) (size : nat * nat) (w : world) :
  snd (composite G g size w) = w.
Proof.
  unfold composite; unfold_run.
  destruct (Cv2.resize_float g size); simpl; auto.
  destruct (masked_saliency a); simpl; auto.
  destruct (make_heatmap a0 size); simpl; auto.
  destruct (superimpose a1 (img_to_array (img G))); simpl; auto.
Qed.

Lemma composite_returns (G : globals) (g g1 g2 : Np.array2 Q)
    (heatmap c : Np.array2 (Z * Z * Z)) (size : nat * nat) (w : world) :
  Cv2.resize_float g size = Some g1 ->
  masked_saliency g1 = Some g2 ->
  make_heatmap g2 size = Some heatmap ->
  superimpose heatmap (img_to_array (img G)) = Some c ->
  composite G g size w = (Returned c, w).
Proof.
  intros E1 E2 E3 E4. unfold composite; unfold_run.
  rewrite E1. simpl. rewrite E2. simpl. rewrite E3. simpl. rewrite E4.
  reflexivity.
Qed.

Lemma composite_inv (G : globals) (g : Np.array2 Q) (c : Np.array2 (Z * Z * Z))
    (size : nat * nat) (w w' : world) :
  composite G g size w = (Returned c, w') ->
  exists g1 g2 heatmap,
    Cv2.resize_float g size = Some g1 /\
    masked_saliency g1 = Some g2 /\
    make_heatmap g2 size = Some heatmap /\
    superimpose heatmap (img_to_array (img G)) = Some c.
Proof.
  unfold composite; unfold_run.
  destruct (Cv2.resize_float g size) as [g1|] eqn:E1; simpl;
    [|intros E; discriminate E].
  destruct (masked_saliency g1) as [g2|] eqn:E2; simpl;
    [|intros E; discriminate E].
  destruct (make_heatmap g2 size) as [hm|] eqn:E3; simpl;
    [|intros E; discriminate E].
  destruct (superimpose hm (img_to_array (img G))) as [c'|] eqn:E4; simpl;
    [|intros E; discriminate E].
  intros E. inversion E; subst. now exists g1, g2, hm.
Qed.

Lemma generate_saliency_map_returns (G : globals) (model : Tf.classifier)
    (t : Tf.tensor) (k : Z) (size : nat * nat) (w w1 : world)
    (g : Np.array2 Q) (c : Np.array2 (Z * Z * Z)) :
  class_gradients model t k w = (Returned g, w1) ->
  composite G g size w1 = (Returned c, w1) ->
  generate_saliency_map G model t k size w
  = (Returned c, file_writes G c ++ w1).
Proof.
  intros E1 E2. unfold generate_saliency_map, bind at 1. rewrite E1.
  unfold bind at 1. rewrite E2.
  reflexivity.
Qed.

(** After a call that returns, the file of the output directory named
    after the upload holds the composite: the copy of the upload written
    first is overwritten. *)
Lemma generate_saliency_map_saves (G : globals) (model : Tf.classifier)
    (t : Tf.tensor) (k : Z) (size : nat * nat) (w w1 : world)
    (g : Np.array2 Q) (c : Np.array2 (Z * Z * Z)) :
  class_gradients model t k w = (Returned g, w1) ->
  composite G g size w1 = (Returned c, w1) ->
  read_file (snd (generate_saliency_map G model t k size w))
            ("saliency_maps/" ++ name (uploaded_file G))
  = Some (Encoded (Cv2.swap_channels c)).
Proof.
  intros E1 E2.
  rewrite (generate_saliency_map_returns G model t k size w w1 g c E1 E2).
  unfold file_writes. cbn [snd app read_file].
  now rewrite String.eqb_refl.
Qed.

Lemma generate_saliency_map_inv (G : globals) (model : Tf.classifier)
    (t : Tf.tensor) (k : Z) (size : nat * nat) (w w' : world)
    (c : Np.array2 (Z * Z * Z)) :
  generate_saliency_map G model t k size w = (Returned c, w') ->
  exists g w1,
    class_gradients model t k w = (Returned g, w1) /\
    composite G g size w1 = (Returned c, w1).
Proof.
  unfold generate_saliency_map, bind at 1.
  destruct (class_gradients model t k w) as [[g|e] w1] eqn:E1;
    [|intros E; discriminate E].
  unfold bind at 1.
  pose proof (composite_world G g size w1) as Hw.
  destruct (composite G g size w1) as [[c'|e] w2] eqn:E2;
    [|intros E; discriminate E].
  simpl in Hw. subst w2.
  unfold save_files, bind, tell, ret. intros E. inversion E; subst.
  now exists g, w1.
Qed.

(** ** Valid calls *)



(** Every step of a valid call succeeds. *)
Lemma valid_call_steps (G : globals) (model : Tf.classifier) (t : Tf.tensor)
    (k : Z) (size : nat * nat) :
  valid_call G model t k size ->
  exists g g1 g2 c,
    Tf.score_gradient model (Z.to_nat k) t = Some g /\
    Cv2.resize_float (Tf.abs_reduce_max g) size = Some g1 /\
    Np.has_shape (snd size) (fst size) g1 /\
    masked_saliency g1 = Some g2 /\
    Np.has_shape (snd size) (fst size) g2 /\
    make_heatmap g2 size
    = Some (Cv2.swap_channels (Cv2.applyColorMap (to_uint8 (Cv2.GaussianBlur g2)))) /\
    superimpose
      (Cv2.swap_channels (Cv2.applyColorMap (to_uint8 (Cv2.GaussianBlur g2))))
      (img_to_array (img G)) = Some c /\
    Np.has_shape (snd size) (fst size) c /\
    (forall y x, (y < snd size)%nat -> (x < fst size)%nat ->
       Np.get (0, 0, 0) c y x
       = blend_pixel
           (Np.get (0, 0, 0)
              (Cv2.swap_channels
                 (Cv2.applyColorMap (to_uint8 (Cv2.GaussianBlur g2)))) y x)
           (Np.get (0%Q, 0%Q, 0%Q) (img_to_array (img G)) y x)) /\
    forall w, generate_saliency_map G model t k size w
              = (Returned c, file_writes G c ++ gradient_ops ++ w).
Proof.
  intros [Hk [g [h0 [w0 [Hg [Hsg [Hh0 Hw0]]]]]] Himg [y [x [Hy [Hx Hc]]]]].
  destruct size as [wd ht]. simpl in *.
  assert (Hht : (0 < ht)%nat) by lia. assert (Hwd : (0 < wd)%nat) by lia.
  destruct (resize_shape 0%Q Cv2.blend_float h0 w0 ht wd (Tf.abs_reduce_max g))
    as [g1 [E1 S1]]; auto.
  { unfold Tf.abs_reduce_max. now apply map_map_shape. }
  destruct (masked_saliency_some ht wd g1 y x S1 Hy Hx Hc) as [g2 [E2 S2]].
  destruct (make_heatmap_some ht wd g2 S2 Hht Hwd) as [E3 S3].
  destruct (superimpose_same_shape ht wd _ (img_to_array (img G)) S3
              (img_to_array_shape _ _ _ Himg) Hht Hwd) as [c [E4 [S4 P4]]].
  exists g, g1, g2, c. repeat (split; [assumption|]).
  intros w.
  apply (generate_saliency_map_returns G model t k (wd, ht) w
           (gradient_ops ++ w) (Tf.abs_reduce_max g) c).
  - now apply class_gradients_returns.
  - exact (composite_returns G _ g1 g2 _ c (wd, ht) _ E1 E2 E3 E4).
Qed.

(** A square size with a picture of that size makes the mask condition
    hold. *)
Lemma square_valid_mask (n : nat) :
  (1 <= n)%nat ->
  exists y x, (y < n)%nat /\ (x < n)%nat /\
    in_circle n n (Z.of_nat y) (Z.of_nat x) = true.
Proof.
  intros Hn. assert (Hc : (n / 2 < n)%nat) by (apply Nat.div_lt; lia).
  exists (n / 2)%nat, (n / 2)%nat. repeat split; auto.
  rewrite <- mask_get by assumption. now apply mask_center_square.
Qed.

(** ** Shape and range of the composite (lines 85-102) *)


(** ** An index outside the range of the classes (lines 55-61) *)

(** C6, amended.  For every class index k with k >= n or k < -n, where n is
    the number of classes, generate_saliency_map fails with
    InvalidArgumentError; the failure is raised by the slicing of the
    predictions, after the conversion of the input and the forward pass of
    the classifier, before the gradient is computed and before any file is
    written. *)
Theorem out_of_range_index_raises (G : globals) (model : Tf.classifier)
    (img_array : Tf.tensor) (class_index : Z) (img_size : nat * nat) (w : world) :
  (class_index < - Z.of_nat (length (Tf.predict model img_array))) \/
  (Z.of_nat (length (Tf.predict model img_array)) <= class_index) ->
  generate_saliency_map G model img_array class_index img_size w
  = (Raised InvalidArgumentError,
     TensorOp OpCall :: TensorOp OpWatch :: TensorOp OpConvertToTensor :: w).
Proof.
  intros Hk. unfold generate_saliency_map, bind at 1.
  now rewrite class_gradients_raises.
Qed.

(** ** Dependence on the enclosing scope (lines 54-102) *)

(** C7, amended.  With the same four parameters and the same picture [img]
    of the enclosing scope, the computation of the composite (lines 55-92)
    has the same outcome in two calls, the same composite or the same
    exception, and two calls of generate_saliency_map that return give the
    same composite, whatever the upload and whatever has been done
    before. *)
Theorem composite_determined_by_parameters_and_img (G1 G2 : globals)
    (model : Tf.classifier) (img_array : Tf.tensor) (class_index : Z)
    (img_size : nat * nat) (w1 w2 : world) :
  img G1 = img G2 ->
  fst ((gradients <- class_gradients model img_array class_index ;;
        composite G1 gradients img_size) w1)
  = fst ((gradients <- class_gradients model img_array class_index ;;
          composite G2 gradients img_size) w2) /\
  (forall c1 c2,
     fst (generate_saliency_map G1 model img_array class_index img_size w1)
     = Returned c1 ->
     fst (generate_saliency_map G2 model img_array class_index img_size w2)
     = Returned c2 ->
     c1 = c2).
Proof.
  intros Himg.
  assert (H : fst ((gradients <- class_gradients model img_array class_index ;;
                    composite G1 gradients img_size) w1)
              = fst ((gradients <- class_gradients model img_array class_index ;;
                      composite G2 gradients img_size) w2)).
  { unfold class_gradients, composite, Tf.slice_column; unfold_run.
    rewrite Himg. simpl.
    destruct ((- Z.of_nat (length (Tf.predict model img_array)) <=? class_index)
              && (class_index <? Z.of_nat (length (Tf.predict model img_array))));
      [|reflexivity].
    repeat match goal with
           | |- context [match ?o with Some _ => _ | None => _ end] =>
               destruct o; simpl; try reflexivity
           end. }
  split; [exact H|].
  intros c1 c2 E1 E2.
  unfold generate_saliency_map, bind in E1, E2. unfold bind in H.
  destruct (class_gradients model img_array class_index w1) as [[g1|e1] v1];
    [|discriminate E1].
  destruct (class_gradients model img_array class_index w2) as [[g2|e2] v2];
    [|discriminate E2].
  destruct (composite G1 g1 img_size v1) as [[d1|e1] u1]; [|discriminate E1].
  destruct (composite G2 g2 img_size v2) as [[d2|e2] u2]; [|discriminate E2].
  unfold save_files, bind, tell, ret in E1, E2. simpl in H, E1, E2.
  congruence.
Qed.

(** ** The blend never leaves the 8-bit range (lines 90-92) *)

Lemma all_entries_get {A} (P : A -> Prop) (d : A) (a : Np.array2 A) (y x : nat) :
  all_entries P a -> P d -> P (Np.get d a y x).
Proof.
  intros Ha Hd. unfold Np.get.
  destruct (Nat.lt_ge_cases y (length a)) as [Hy | Hy].
  - assert (Hr : Forall P (nth y a [])).
    { unfold all_entries in Ha. rewrite Forall_forall in Ha. apply Ha, nth_In, Hy. }
    destruct (Nat.lt_ge_cases x (length (nth y a []))) as [Hx | Hx].
    + rewrite Forall_forall in Hr. apply Hr, nth_In, Hx.
    + now rewrite nth_overflow.
  - rewrite (nth_overflow a) by assumption. now destruct x.
Qed.

Lemma all_entries_broadcast_get {A} (P : A -> Prop) (d : A) (a : Np.array2 A)
    (y x : nat) :
  all_entries P a -> P d -> P (broadcast_get d a y x).
Proof. intros. unfold broadcast_get. now apply all_entries_get. Qed.

Lemma all_entries_map_map {A B} (P : B -> Prop) (f : A -> B) (a : Np.array2 A) :
  (forall v, P (f v)) -> all_entries P (map (map f) a).
Proof.
  intros Hf. unfold all_entries. apply Forall_forall. intros r Hr.
  apply in_map_iff in Hr. destruct Hr as [r0 [<- _]].
  apply Forall_forall. intros v Hv. apply in_map_iff in Hv.
  destruct Hv as [v0 [<- _]]. apply Hf.
Qed.

Lemma all_entries_tabulate {A} (P : A -> Prop) (f : nat -> nat -> A) (h w : nat) :
  (forall y x, P (f y x)) ->
  all_entries P (map (fun y => map (fun x => f y x) (seq 0 w)) (seq 0 h)).
Proof.
  intros Hf. unfold all_entries. apply Forall_forall. intros r Hr.
  apply in_map_iff in Hr. destruct Hr as [y [<- _]].
  apply Forall_forall. intros v Hv. apply in_map_iff in Hv.
  destruct Hv as [x [<- _]]. apply Hf.
Qed.

Lemma Qle_bool_false (a b : Q) : Qle_bool a b = false -> (b < a)%Q.
Proof.
  intros E. apply Qnot_le_lt. intros C. apply Qle_bool_iff in C. congruence.
Qed.

Lemma Qtrunc_comp (q q' : Q) : (q == q')%Q -> Np.Qtrunc q = Np.Qtrunc q'.
Proof.
  intros E. unfold Np.Qtrunc.
  destruct (Qle_bool 0 q) eqn:E1, (Qle_bool 0 q') eqn:E2.
  - now rewrite E.
  - apply Qle_bool_iff in E1. apply Qle_bool_false in E2. rewrite E in E1. lra.
  - apply Qle_bool_iff in E2. apply Qle_bool_false in E1. rewrite E in E1. lra.
  - now rewrite E.
Qed.

Lemma Qtrunc_range (q : Q) :
  (0 <= q)%Q -> (q <= 255)%Q -> 0 <= Np.Qtrunc q <= 255.
Proof.
  intros H0 H1. unfold Np.Qtrunc.
  apply Qle_bool_iff in H0. rewrite H0. apply Qle_bool_iff in H0.
  pose proof (Qfloor_resp_le _ _ H0) as A.
  pose proof (Qfloor_resp_le _ _ H1) as B.
  change 0%Q with (inject_Z 0) in A. change 255%Q with (inject_Z 255) in B.
  rewrite Qfloor_Z in A, B. lia.
Qed.

Lemma blend_channel_in_range (heat : Z) (original : Q) :
  is_uint8 heat -> in_0_255 original ->
  blend_channel heat original = clipped_blend heat original /\
  blend_channel heat original = truncated_blend heat original.
Proof.
  intros [Hh0 Hh1] [Ho0 Ho1].
  assert (A0 : (0 <= inject_Z heat)%Q) by (change 0%Q with (inject_Z 0); now rewrite <- Zle_Qle).
  assert (A1 : (inject_Z heat <= 255)%Q) by (change 255%Q with (inject_Z 255); now rewrite <- Zle_Qle).
  set (q := ((3 # 10) * original + (7 # 10) * inject_Z heat)%Q).
  assert (Hq0 : (0 <= q)%Q) by (unfold q; lra).
  assert (Hq1 : (q <= 255)%Q) by (unfold q; lra).
  assert (E : blend_channel heat original = Np.Qtrunc q).
  { unfold blend_channel, Np.astype_uint8.
    rewrite (Qtrunc_comp _ q) by (unfold q; ring).
    apply Z.mod_small. pose proof (Qtrunc_range q Hq0 Hq1). lia. }
  split; [|exact E].
  rewrite E. unfold clipped_blend. fold q. apply Qtrunc_comp.
  rewrite (Q.min_r 255 q) by exact Hq1.
  now rewrite (Q.max_r 0 q) by exact Hq0.
Qed.

Lemma blend_pixel_in_range (heat : Z * Z * Z) (original : Q * Q * Q) :
  is_rgb8 heat -> is_rgb_float original ->
  blend_pixel heat original = clipped_blend_pixel heat original /\
  blend_pixel heat original = truncated_blend_pixel heat original.
Proof.
  destruct heat as [[h0 h1] h2], original as [[o0 o1] o2].
  intros [H0 [H1 H2]] [O0 [O1 O2]]. simpl.
  destruct (blend_channel_in_range h0 o0 H0 O0) as [-> A0].
  destruct (blend_channel_in_range h1 o1 H1 O1) as [-> A1].
  destruct (blend_channel_in_range h2 o2 H2 O2) as [-> A2].
  split; [reflexivity|]. unfold clipped_blend in *.
  now rewrite A0, A1, A2.
Qed.

Lemma cvRound_range (q : Q) :
  (0 <= q)%Q -> (q <= 255)%Q -> is_uint8 (Cv2.cvRound q).
Proof.
  intros H0 H1. unfold is_uint8, Cv2.cvRound.
  pose proof (Qfloor_le q) as Hf.
  pose proof (Qfloor_resp_le _ _ H0) as A.
  change 0%Q with (inject_Z 0) in A. rewrite Qfloor_Z in A.
  assert (Hhalf : (1 # 2 <= q - inject_Z (Qfloor q))%Q -> Qfloor q + 1 <= 255).
  { intros Hr.
    assert (Hlt : (inject_Z (Qfloor q) < inject_Z 255)%Q)
      by (change (inject_Z 255) with 255%Q; lra).
    rewrite <- Zlt_Qlt in Hlt. lia. }
  assert (B : Qfloor q <= 255).
  { pose proof (Qfloor_resp_le _ _ H1) as B.
    change 255%Q with (inject_Z 255) in B. now rewrite Qfloor_Z in B. }
  destruct (Np.Qltb (q - inject_Z (Qfloor q)) (1 # 2)) eqn:E1; [lia|].
  apply Qltb_ge in E1. specialize (Hhalf E1).
  destruct (Np.Qltb (1 # 2) (q - inject_Z (Qfloor q))); [lia|].
  destruct (Z.even (Qfloor q)); lia.
Qed.

Lemma clamp01_range (q : Q) : (0 <= Cv2.clamp01 q)%Q /\ (Cv2.clamp01 q <= 1)%Q.
Proof.
  unfold Cv2.clamp01. split.
  - apply Q.le_max_l.
  - apply Q.max_lub; [lra | apply Q.le_min_l].
Qed.

Lemma jet_channel_range (c i : Z) : is_uint8 (Cv2.jet_channel c i).
Proof.
  unfold Cv2.jet_channel.
  destruct (clamp01_range ((3 # 2) - Qabs ((4 * i # 255) - inject_Z c)))
    as [H0 H1].
  apply cvRound_range; lra.
Qed.

Lemma jet_blue_range (i : Z) : is_uint8 (Cv2.jet_blue i).
Proof.
  unfold Cv2.jet_blue. destruct (i =? 159); [|apply jet_channel_range].
  unfold is_uint8. lia.
Qed.

Lemma saturate_uint8_range (z : Z) : is_uint8 (Cv2.saturate_uint8 z).
Proof. unfold is_uint8, Cv2.saturate_uint8. lia. Qed.

Lemma blend_rgb_range (fy fx : Q) (a b c d : Z * Z * Z) :
  is_rgb8 (Cv2.blend_rgb fy fx a b c d).
Proof.
  destruct a as [[a0 a1] a2], b as [[b0 b1] b2], c as [[c0 c1] c2],
    d as [[d0 d1] d2]. simpl.
  repeat split; apply saturate_uint8_range.
Qed.

(** Every entry of the heat map is an 8-bit colour. *)
Lemma make_heatmap_rgb8 (g : Np.array2 Q) (size : nat * nat)
    (heatmap : Np.array2 (Z * Z * Z)) :
  make_heatmap g size = Some heatmap -> all_entries is_rgb8 heatmap.
Proof.
  unfold make_heatmap, Cv2.resize_rgb, Cv2.resize. destruct size as [w h].
  set (src := Cv2.swap_channels (Cv2.applyColorMap (to_uint8 (Cv2.GaussianBlur g)))).
  assert (Hsrc : all_entries is_rgb8 src).
  { unfold src, Cv2.swap_channels, Cv2.applyColorMap. rewrite map_map.
    erewrite map_ext by (intros r; apply map_map).
    apply (all_entries_map_map is_rgb8
             (fun v => (Cv2.jet_red v, Cv2.jet_green v, Cv2.jet_blue v))).
    intros v. repeat split;
      try apply jet_channel_range; apply jet_blue_range. }
  destruct (_ || _); [discriminate|].
  destruct (_ && _); intros E; inversion E; subst; [exact Hsrc|].
  apply (all_entries_tabulate is_rgb8
           (Cv2.resize_pixel (0, 0, 0) Cv2.blend_rgb src (length src)
              (Np.width src) h w)).
  intros y x. unfold Cv2.resize_pixel.
  destruct (Cv2.src_coord (length src) h y), (Cv2.src_coord (Np.width src) w x).
  apply blend_rgb_range.
Qed.

Lemma img_to_array_range (i : Np.array2 (byte * byte * byte)) :
  all_entries is_rgb_float (img_to_array i).
Proof.
  unfold img_to_array.
  apply (all_entries_map_map is_rgb_float).
  intros [[r g] b].
  assert (H : forall c : byte, in_0_255 (inject_Z (Z.of_N (Byte.to_N c)))).
  { intros c. pose proof (Byte.to_N_bounded c) as Hb. unfold in_0_255.
    change 0%Q with (inject_Z 0). change 255%Q with (inject_Z 255).
    rewrite <- !Zle_Qle. lia. }
  repeat split; apply H.
Qed.

(** C9.  Whenever generate_saliency_map returns, each pixel of the composite
    is, channel by channel, 0.3 * original + 0.7 * heatmap clipped to
    [0, 255] and cast to an integer; the sum itself lies in [0, 255], so the
    conversion to 8 bits truncates it and never wraps modulo 256. *)
Theorem composite_is_clipped_blend (G : globals) (model : Tf.classifier)
    (img_array : Tf.tensor) (class_index : Z) (img_size : nat * nat)
    (w w' : world) (c : Np.array2 (Z * Z * Z)) :
  generate_saliency_map G model img_array class_index img_size w
  = (Returned c, w') ->
  exists gradients heatmap h wd,
    make_heatmap gradients img_size = Some heatmap /\
    Np.has_shape h wd c /\
    forall y x, (y < h)%nat -> (x < wd)%nat ->
      Np.get (0, 0, 0) c y x
      = clipped_blend_pixel
          (broadcast_get (0, 0, 0) heatmap y x)
          (broadcast_get (0%Q, 0%Q, 0%Q) (img_to_array (img G)) y x) /\
      Np.get (0, 0, 0) c y x
      = truncated_blend_pixel
          (broadcast_get (0, 0, 0) heatmap y x)
          (broadcast_get (0%Q, 0%Q, 0%Q) (img_to_array (img G)) y x).
Proof.
  intros Hrun.
  destruct (generate_saliency_map_inv _ _ _ _ _ _ _ _ Hrun) as [g [w1 [_ Hc]]].
  destruct (composite_inv _ _ _ _ _ _ Hc) as [g1 [g2 [heatmap [_ [_ [E3 E4]]]]]].
  destruct (superimpose_entries _ _ _ E4) as [h [wd [_ [_ [Hs Hget]]]]].
  exists g2, heatmap, h, wd. split; [exact E3|]. split; [exact Hs|].
  intros y x Hy Hx. rewrite Hget by assumption.
  apply blend_pixel_in_range.
  - apply all_entries_broadcast_get; [now apply (make_heatmap_rgb8 g2 img_size)|].
    unfold is_rgb8, is_uint8. lia.
  - apply all_entries_broadcast_get; [apply img_to_array_range|].
    unfold is_rgb_float, in_0_255. repeat split; lra.
Qed.

(** ** Degenerate gradient maps (lines 75-81) *)



(** ** Concrete calls *)

Lemma repeat_shape {A} (v : A) (h w : nat) :
  Np.has_shape h w (repeat (repeat v w) h).
Proof.
  split; [apply repeat_length|].
  apply Forall_forall. intros r Hr. apply repeat_spec in Hr. subst r.
  apply repeat_length.
Qed.

Lemma repeat_get {A} (d v : A) (h w y x : nat) :
  (y < h)%nat -> (x < w)%nat -> Np.get d (repeat (repeat v w) h) y x = v.
Proof.
  intros Hy Hx. unfold Np.get.
  assert (E : nth y (repeat (repeat v w) h) [] = repeat v w).
  { apply (repeat_spec h (repeat v w)), nth_In. now rewrite repeat_length. }
  rewrite E. apply (repeat_spec w v), nth_In. now rewrite repeat_length.
Qed.

(** Calls with the stub on a square grey picture are valid. *)
Lemma stub_call_valid (n : nat) (c : Q) (v : byte) (q : Q) :
  (1 <= n)%nat ->
  valid_call (gray_globals n v) (constant_gradient_stub c) (gray_tensor n q)
             0 (n, n).
Proof.
  intros Hn. constructor.
  - simpl. lia.
  - exists (map (map (fun _ => (c, c, c))) (gray_tensor n q)), n, n.
    split; [reflexivity|]. split; [|lia].
    apply map_map_shape, repeat_shape.
  - apply repeat_shape.
  - apply square_valid_mask, Hn.
Qed.

(** ** An all-zero gradient (lines 62-92) *)

Lemma all_entries_get_in {A} (P : A -> Prop) (d : A) (h w : nat)
    (a : Np.array2 A) (y x : nat) :
  all_entries P a -> Np.has_shape h w a -> (y < h)%nat -> (x < w)%nat ->
  P (Np.get d a y x).
Proof.
  intros Ha Hs Hy Hx. unfold Np.get.
  pose proof (has_shape_row h w a y Hs Hy) as Hrow.
  destruct Hs as [Hl _].
  assert (Hr : Forall P (nth y a [])).
  { unfold all_entries in Ha. rewrite Forall_forall in Ha. apply Ha, nth_In. lia. }
  rewrite Forall_forall in Hr. apply Hr, nth_In. lia.
Qed.

Lemma all_entries_map_impl {A B} (P : A -> Prop) (R : B -> Prop) (f : A -> B)
    (a : Np.array2 A) :
  all_entries P a -> (forall v, P v -> R (f v)) -> all_entries R (map (map f) a).
Proof.
  intros Ha Hf. unfold all_entries in *. rewrite Forall_forall in *.
  intros r Hr. apply in_map_iff in Hr. destruct Hr as [r0 [<- Hr0]].
  specialize (Ha r0 Hr0). rewrite Forall_forall in *.
  intros v Hv. apply in_map_iff in Hv. destruct Hv as [v0 [<- Hv0]]. auto.
Qed.

Lemma all_entries_select {A} (P : A -> Prop) (a : Np.array2 A)
    (m : Np.array2 bool) (v : A) :
  all_entries P a -> In v (Np.select a m) -> P v.
Proof.
  revert m. induction a as [|r a IH]; intros [|mr m] Ha Hv; simpl in *; try tauto.
  inversion Ha as [|? ? Hr Ha']; subst.
  apply in_app_or in Hv. destruct Hv as [Hv | Hv]; [|now apply (IH m)].
  clear IH Ha Ha'. revert mr Hv.
  induction r as [|u r IH]; intros [|b mr] Hv; simpl in *; try tauto.
  inversion Hr; subst. destruct b; [destruct Hv as [<- | Hv]|]; auto.
  - now apply (IH ltac:(assumption) mr).
  - now apply (IH ltac:(assumption) mr).
Qed.

Lemma mul_mask_zero (g : Np.array2 Q) (m : Np.array2 bool) :
  all_entries is_zero g -> all_entries is_zero (Np.mul_mask g m).
Proof.
  unfold Np.mul_mask, all_entries. revert m.
  induction g as [|r g IH]; intros [|mr m] Hg; simpl; try constructor.
  - inversion Hg as [|? ? Hr _]; subst. clear IH Hg. revert mr.
    induction r as [|v r IH]; intros [|b mr]; simpl; try constructor.
    + inversion Hr; subst. destruct b; [assumption | reflexivity].
    + inversion Hr; subst. now apply IH.
  - inversion Hg; subst. now apply IH.
Qed.

Lemma abs_reduce_max_zero (g : Tf.tensor) :
  all_entries is_zero3 g -> all_entries is_zero (Tf.abs_reduce_max g).
Proof.
  intros Hg. unfold Tf.abs_reduce_max.
  apply (all_entries_map_impl is_zero3 is_zero); [exact Hg|].
  intros [[c0 c1] c2] [H0 [H1 H2]]. unfold is_zero in *.
  rewrite H0, H1, H2. reflexivity.
Qed.

Lemma resize_float_zero (g g1 : Np.array2 Q) (size : nat * nat) :
  Cv2.resize_float g size = Some g1 ->
  all_entries is_zero g -> all_entries is_zero g1.
Proof.
  unfold Cv2.resize_float, Cv2.resize. destruct size as [w h].
  destruct (_ || _); [discriminate|].
  destruct (_ && _); intros E Hg; inversion E; subst; [exact Hg|].
  apply (all_entries_tabulate is_zero
           (Cv2.resize_pixel 0%Q Cv2.blend_float g (length g) (Np.width g) h w)).
  intros y x. unfold Cv2.resize_pixel.
  destruct (Cv2.src_coord (length g) h y) as [sy fy].
  destruct (Cv2.src_coord (Np.width g) w x) as [sx fx].
  assert (Z : forall i j, (Np.get 0%Q g i j == 0)%Q).
  { intros i j. apply (all_entries_get is_zero); [exact Hg | reflexivity]. }
  unfold is_zero, Cv2.blend_float. rewrite !Z. ring.
Qed.

Lemma normalize_zero (gm : Np.array2 Q) (m : Np.array2 bool) (g' : Np.array2 Q) :
  all_entries is_zero gm -> normalize gm m = Some g' -> g' = gm.
Proof.
  intros Hz. unfold normalize.
  destruct (Np.amax (Np.select gm m)) as [mx|] eqn:Emx; [|discriminate].
  destruct (Np.amin (Np.select gm m)) as [mn|] eqn:Emn; [|discriminate].
  assert (Hmx : is_zero mx)
    by (apply (all_entries_select is_zero gm m); [exact Hz | now apply amax_In]).
  assert (Hmn : is_zero mn)
    by (apply (all_entries_select is_zero gm m); [exact Hz | now apply amin_In]).
  assert (H : Np.Qltb mn mx = false).
  { apply Qltb_ge. unfold is_zero in *. rewrite Hmx, Hmn. apply Qle_refl. }
  rewrite H. intros E. now inversion E.
Qed.

Lemma masked_saliency_zero (g g' : Np.array2 Q) :
  all_entries is_zero g -> masked_saliency g = Some g' ->
  all_entries is_zero g'.
Proof.
  intros Hz. unfold masked_saliency.
  set (m := mask (length g) (Np.width g)).
  pose proof (mul_mask_zero g m Hz) as Hgm.
  destruct (normalize (Np.mul_mask g m) m) as [g1|] eqn:E; [|discriminate].
  apply (normalize_zero _ _ _ Hgm) in E. subst g1.
  intros E. inversion E; subst. unfold apply_threshold, Np.zero_below.
  apply (all_entries_map_impl is_zero is_zero); [exact Hgm|].
  intros v Hv. destruct (Np.Qltb v _); [reflexivity | exact Hv].
Qed.

Lemma weighted_sum_zero (samples : list Q) :
  Forall is_zero samples -> is_zero (Cv2.weighted_sum samples).
Proof.
  unfold Cv2.weighted_sum. generalize Cv2.gaussian_kernel as kernel.
  intros kernel Hs. revert kernel.
  induction Hs as [|s samples Hs0 _ IH]; intros [|c kernel];
    cbn [Np.zip_with fold_right]; try reflexivity.
  unfold is_zero in *. rewrite Qred_correct, IH, Hs0. ring.
Qed.

Lemma blur_rows_zero (g : Np.array2 Q) :
  all_entries is_zero g -> all_entries is_zero (Cv2.blur_rows g).
Proof.
  intros Hg. unfold Cv2.blur_rows, all_entries in *. rewrite Forall_forall in *.
  intros r' Hr'. apply in_map_iff in Hr'. destruct Hr' as [r [<- Hr]].
  specialize (Hg r Hr). apply Forall_forall. intros v Hv.
  apply in_map_iff in Hv. destruct Hv as [x [<- _]].
  apply weighted_sum_zero. apply Forall_forall. intros s Hs.
  apply in_map_iff in Hs. destruct Hs as [k [<- _]].
  destruct (Nat.lt_ge_cases (Cv2.reflect101 (length r) (Z.of_nat x + k - 5))
              (length r)) as [Hlt | Hge].
  - rewrite Forall_forall in Hg. apply Hg, nth_In, Hlt.
  - rewrite nth_overflow by assumption. reflexivity.
Qed.

Lemma blur_cols_zero (g : Np.array2 Q) :
  all_entries is_zero g -> all_entries is_zero (Cv2.blur_cols g).
Proof.
  intros Hg. unfold Cv2.blur_cols, all_entries. apply Forall_forall.
  intros r' Hr'. apply in_map_iff in Hr'. destruct Hr' as [y [<- _]].
  apply Forall_forall. intros v Hv.
  apply in_map_iff in Hv. destruct Hv as [x [<- _]].
  apply weighted_sum_zero. apply Forall_forall. intros s Hs.
  apply in_map_iff in Hs. destruct Hs as [k [<- _]].
  apply (all_entries_get is_zero); [exact Hg | reflexivity].
Qed.

Lemma GaussianBlur_zero (g : Np.array2 Q) :
  all_entries is_zero g -> all_entries is_zero (Cv2.GaussianBlur g).
Proof. intros. unfold Cv2.GaussianBlur. now apply blur_cols_zero, blur_rows_zero. Qed.

Lemma astype_uint8_zero (v : Q) : is_zero v -> Np.astype_uint8 (255 * v) = 0.
Proof.
  intros Hv. unfold Np.astype_uint8.
  rewrite (Qtrunc_comp _ 0%Q) by (unfold is_zero in Hv; rewrite Hv; ring).
  reflexivity.
Qed.

(** The heat map of an all-zero map is uniformly the colour of 0. *)
Lemma heatmap_of_zero (g : Np.array2 Q) :
  all_entries is_zero g ->
  all_entries (fun p => p = jet_zero)
    (Cv2.swap_channels (Cv2.applyColorMap (to_uint8 (Cv2.GaussianBlur g)))).
Proof.
  intros Hg.
  assert (H1 : all_entries (fun z => z = 0) (to_uint8 (Cv2.GaussianBlur g))).
  { unfold to_uint8.
    apply (all_entries_map_impl is_zero (fun z => z = 0));
      [now apply GaussianBlur_zero | apply astype_uint8_zero]. }
  assert (H2 : all_entries (fun p => p = (128, 0, 0))
                 (Cv2.applyColorMap (to_uint8 (Cv2.GaussianBlur g)))).
  { unfold Cv2.applyColorMap.
    apply (all_entries_map_impl (fun z => z = 0) (fun p => p = (128, 0, 0)));
      [exact H1|].
    intros v ->. vm_compute. reflexivity. }
  unfold Cv2.swap_channels.
  apply (all_entries_map_impl (fun p => p = (128, 0, 0)) (fun p => p = jet_zero));
    [exact H2|].
  intros v ->. reflexivity.
Qed.

(** The composite of a valid call whose gradient is zero everywhere. *)
Lemma zero_gradient_pixels (G : globals) (model : Tf.classifier) (t : Tf.tensor)
    (k : Z) (size : nat * nat) (g : Tf.tensor) :
  valid_call G model t k size ->
  Tf.score_gradient model (Z.to_nat k) t = Some g ->
  all_entries is_zero3 g ->
  exists c,
    (forall w, generate_saliency_map G model t k size w
               = (Returned c, file_writes G c ++ gradient_ops ++ w)) /\
    Np.has_shape (snd size) (fst size) c /\
    forall y x, (y < snd size)%nat -> (x < fst size)%nat ->
      Np.get (0, 0, 0) c y x
      = blend_pixel jet_zero (Np.get (0%Q, 0%Q, 0%Q) (img_to_array (img G)) y x).
Proof.
  intros Hv Hg Hz.
  destruct (valid_call_steps _ _ _ _ _ Hv)
    as [g' [g1 [g2 [c [Hg' [E1 [S1 [E2 [S2 [E3 [E4 [Hs [Hp Hrun]]]]]]]]]]]]].
  rewrite Hg in Hg'. inversion Hg'; subst g'.
  exists c. split; [exact Hrun|]. split; [exact Hs|].
  intros y x Hy Hx. rewrite Hp by assumption. f_equal.
  assert (Z2 : all_entries is_zero g2).
  { apply (masked_saliency_zero g1); [|exact E2].
    apply (resize_float_zero _ _ _ E1). now apply abs_reduce_max_zero. }
  assert (Hpos : (0 < snd size)%nat /\ (0 < fst size)%nat) by lia.
  destruct size as [wd ht]. simpl in *.
  destruct (make_heatmap_some ht wd g2 S2) as [_ S3]; try lia.
  apply (all_entries_get_in (fun p => p = jet_zero) (0, 0, 0) ht wd); auto.
  now apply heatmap_of_zero.
Qed.


(** Entries of the blurred map. *)
Lemma blur_rows_get (h w : nat) (g : Np.array2 Q) (y x : nat) :
  Np.has_shape h w g -> (y < h)%nat -> (x < w)%nat ->
  Np.get 0%Q (Cv2.blur_rows g) y x
  = Cv2.weighted_sum
      (map (fun k => nth (Cv2.reflect101 w (Z.of_nat x + k - 5)) (nth y g []) 0%Q)
           (Np.ogrid 11)).
Proof.
  intros Hg Hy Hx. pose proof (has_shape_row h w g y Hg Hy) as Hrow.
  destruct Hg as [Hl _]. unfold Np.get, Cv2.blur_rows.
  set (F := fun r : list Q => map _ (seq 0 (length r))).
  change [] with (F []) at 1. rewrite (map_nth F g [] y). unfold F.
  rewrite Hrow.
  rewrite (nth_indep _ 0%Q
             ((fun x0 => Cv2.weighted_sum
                 (map (fun k => nth (Cv2.reflect101 w (Z.of_nat x0 + k - 5))
                                    (nth y g []) 0%Q) (Np.ogrid 11))) 0%nat))
    by now rewrite length_map, length_seq.
  rewrite (map_nth (fun x0 => Cv2.weighted_sum
                 (map (fun k => nth (Cv2.reflect101 w (Z.of_nat x0 + k - 5))
                                    (nth y g []) 0%Q) (Np.ogrid 11)))).
  now rewrite seq_nth by lia.
Qed.

Lemma blur_cols_get (h w : nat) (g : Np.array2 Q) (y x : nat) :
  Np.has_shape h w g -> (y < h)%nat -> (x < w)%nat ->
  Np.get 0%Q (Cv2.blur_cols g) y x
  = Cv2.weighted_sum
      (map (fun k => Np.get 0%Q g (Cv2.reflect101 h (Z.of_nat y + k - 5)) x)
           (Np.ogrid 11)).
Proof.
  intros Hg Hy Hx. pose proof (has_shape_row h w g y Hg Hy) as Hrow.
  destruct Hg as [Hl _]. unfold Np.get at 1. unfold Cv2.blur_cols.
  rewrite Hl.
  set (F := fun y0 : nat => map _ (seq 0 (length (nth y0 g [])))).
  rewrite (nth_indep _ [] (F 0%nat)) by now rewrite length_map, length_seq.
  rewrite (map_nth F (seq 0 h) 0%nat y). rewrite seq_nth by lia. unfold F.
  simpl (0 + y)%nat. rewrite Hrow.
  rewrite (nth_indep _ 0%Q
             ((fun x0 => Cv2.weighted_sum
                 (map (fun k => Np.get 0%Q g (Cv2.reflect101 h (Z.of_nat y + k - 5)) x0)
                      (Np.ogrid 11))) 0%nat))
    by now rewrite length_map, length_seq.
  rewrite (map_nth (fun x0 => Cv2.weighted_sum
                 (map (fun k => Np.get 0%Q g (Cv2.reflect101 h (Z.of_nat y + k - 5)) x0)
                      (Np.ogrid 11)))).
  now rewrite seq_nth by lia.
Qed.

(** The taps of the pixel 0 stay within the first six rows (columns). *)
Lemma reflect101_near_origin (n : nat) (k : Z) :
  (6 <= n)%nat -> 0 <= k <= 10 -> (Cv2.reflect101 n (k - 5) <= 5)%nat.
Proof.
  intros Hn Hk. unfold Cv2.reflect101.
  destruct (Nat.leb_spec n 1); [lia|].
  set (period := 2 * (Z.of_nat n - 1)).
  assert (Hp : 10 <= period) by (unfold period; lia).
  destruct (Z.le_gt_cases 5 k) as [Hge | Hlt].
  - rewrite (Z.mod_small (k - 5) period) by lia.
    assert (E : (k - 5 <? Z.of_nat n) = true) by (apply Z.ltb_lt; lia).
    rewrite E. lia.
  - assert (Em : (k - 5) mod period = k - 5 + period).
    { symmetry. apply (Z.mod_unique (k - 5) period (-1)); lia. }
    rewrite Em.
    destruct (k - 5 + period <? Z.of_nat n) eqn:E.
    + apply Z.ltb_lt in E. unfold period in E. lia.
    + lia.
Qed.

Lemma ogrid_In (n : nat) (k : Z) : In k (Np.ogrid n) -> 0 <= k < Z.of_nat n.
Proof.
  unfold Np.ogrid. intros H. apply in_map_iff in H.
  destruct H as [i [<- Hi]]. apply in_seq in Hi. lia.
Qed.

(** After lines 68-81 every pixel outside the mask is zero. *)
Lemma masked_saliency_outside (h w : nat) (g g' : Np.array2 Q) (y x : nat) :
  Np.has_shape h w g -> masked_saliency g = Some g' ->
  (y < h)%nat -> (x < w)%nat ->
  in_circle h w (Z.of_nat y) (Z.of_nat x) = false ->
  Np.get 0%Q g' y x = 0%Q.
Proof.
  intros Hg E Hy Hx Hout. unfold masked_saliency in E.
  rewrite (has_shape_length h w g Hg) in E.
  rewrite (has_shape_width h w g Hg) in E by lia.
  pose proof (mask_shape h w) as Hm.
  pose proof (mul_mask_shape h w g _ Hg Hm) as Hgm.
  assert (Hmask : Np.get false (mask h w) y x = false)
    by now rewrite mask_get.
  assert (Hzero : Np.get 0%Q (Np.mul_mask g (mask h w)) y x = 0%Q)
    by now rewrite (mul_mask_get h w), Hmask.
  destruct (normalize (Np.mul_mask g (mask h w)) (mask h w)) as [g1|] eqn:En;
    [|discriminate].
  inversion E; subst g'; clear E.
  assert (H1 : Np.has_shape h w g1 /\ Np.get 0%Q g1 y x = 0%Q).
  { unfold normalize in En.
    destruct (Np.amax _) as [mx|]; [|discriminate].
    destruct (Np.amin _) as [mn|]; [|discriminate].
    destruct (Np.Qltb mn mx); inversion En; subst g1; clear En.
    - rewrite <- (app_nil_r (map _ _)).
      rewrite (assign_map_select _ h w) by assumption.
      split; [now apply zip_with_rows_shape|].
      rewrite (zip_with_rows_get _ 0%Q false 0%Q h w) by assumption.
      now rewrite Hmask.
    - now split. }
  destruct H1 as [S1 Z1].
  unfold apply_threshold, Np.zero_below.
  rewrite (map_map_get _ 0%Q 0%Q h w) by assumption.
  rewrite Z1. now destruct (Np.Qltb 0 _).
Qed.

(** On a square map of side at least 20 the 6 x 6 corner is outside the
    mask, so the heat map has the colour of 0 at the corner pixel. *)
Lemma corner_outside_mask (n : nat) (y x : nat) :
  (20 <= n)%nat -> (y <= 5)%nat -> (x <= 5)%nat ->
  in_circle n n (Z.of_nat y) (Z.of_nat x) = false.
Proof.
  intros Hn Hy Hx.
  destruct (in_circle n n (Z.of_nat y) (Z.of_nat x)) eqn:E; [|reflexivity].
  apply square_in_circle in E.
  assert (Hc : 10 <= Z.of_nat n / 2) by (apply Z.div_le_lower_bound; lia).
  nia.
Qed.

Lemma corner_heat (n : nat) (g : Np.array2 Q) :
  (20 <= n)%nat -> Np.has_shape n n g ->
  (forall y x, (y <= 5)%nat -> (x <= 5)%nat -> Np.get 0%Q g y x = 0%Q) ->
  Np.get (0, 0, 0)
    (Cv2.swap_channels (Cv2.applyColorMap (to_uint8 (Cv2.GaussianBlur g)))) 0 0
  = jet_zero.
Proof.
  intros Hn Hg Hz.
  pose proof (blur_rows_shape n n g Hg) as Hr.
  pose proof (GaussianBlur_shape n n g Hg) as Hb.
  assert (Z0 : is_zero (Np.get 0%Q (Cv2.GaussianBlur g) 0 0)).
  { unfold Cv2.GaussianBlur. rewrite (blur_cols_get n n) by (auto; lia).
    apply weighted_sum_zero, Forall_forall. intros s Hs.
    apply in_map_iff in Hs. destruct Hs as [k [<- Hk]].
    apply ogrid_In in Hk.
    pose proof (reflect101_near_origin n k ltac:(lia) ltac:(lia)) as Hy.
    simpl (Z.of_nat 0). rewrite Z.add_0_l.
    rewrite (blur_rows_get n n) by (auto; lia).
    apply weighted_sum_zero, Forall_forall. intros s Hs.
    apply in_map_iff in Hs. destruct Hs as [k' [<- Hk']].
    apply ogrid_In in Hk'.
    pose proof (reflect101_near_origin n k' ltac:(lia) ltac:(lia)) as Hx.
    simpl (Z.of_nat 0). rewrite Z.add_0_l.
    fold (Np.get 0%Q g (Cv2.reflect101 n (k - 5)) (Cv2.reflect101 n (k' - 5))).
    rewrite Hz by assumption. reflexivity. }
  unfold Cv2.swap_channels, Cv2.applyColorMap, to_uint8.
  rewrite (map_map_get _ (0, 0, 0) (0, 0, 0) n n);
    [|now repeat apply map_map_shape | lia | lia].
  rewrite (map_map_get _ 0 (0, 0, 0) n n);
    [|now repeat apply map_map_shape | lia | lia].
  rewrite (map_map_get _ 0%Q 0 n n) by (auto; lia).
  rewrite (astype_uint8_zero _ Z0). vm_compute. reflexivity.
Qed.

(** The corner pixel of the composite of a valid call on a square size of
    side at least 20, whatever the gradient. *)
Lemma square_call_corner (G : globals) (model : Tf.classifier) (t : Tf.tensor)
    (k : Z) (n : nat) :
  (20 <= n)%nat -> valid_call G model t k (n, n) ->
  exists c,
    (forall w, generate_saliency_map G model t k (n, n) w
               = (Returned c, file_writes G c ++ gradient_ops ++ w)) /\
    Np.has_shape n n c /\
    Np.get (0, 0, 0) c 0 0
    = blend_pixel jet_zero (Np.get (0%Q, 0%Q, 0%Q) (img_to_array (img G)) 0 0).
Proof.
  intros Hn Hv.
  destruct (valid_call_steps _ _ _ _ _ Hv)
    as [g [g1 [g2 [c [_ [_ [S1 [E2 [S2 [_ [_ [Hs [Hp Hrun]]]]]]]]]]]]].
  cbn [fst snd] in *.
  exists c. split; [exact Hrun|]. split; [exact Hs|].
  rewrite Hp by lia. f_equal.
  apply (corner_heat n); auto.
  intros y x Hy Hx.
  apply (masked_saliency_outside n n g1 g2); auto; try lia.
  now apply corner_outside_mask.
Qed.

Lemma gray_original (n : nat) (v : byte) (y x : nat) :
  (y < n)%nat -> (x < n)%nat ->
  Np.get (0%Q, 0%Q, 0%Q) (img_to_array (img (gray_globals n v))) y x
  = (inject_Z (Z.of_N (Byte.to_N v)), inject_Z (Z.of_N (Byte.to_N v)),
     inject_Z (Z.of_N (Byte.to_N v))).
Proof.
  intros Hy Hx. unfold img_to_array, gray_globals, img, gray_image.
  rewrite (map_map_get _ (v, v, v) (0%Q, 0%Q, 0%Q) n n)
    by (try apply repeat_shape; lia).
  now rewrite repeat_get by lia.
Qed.

(** C8, amended.  On the 299 x 299 mid-grey picture (grey level 128) with a
    classifier stub of constant gradient c, class index 0 and output size
    (299, 299), generate_saliency_map raises nothing and returns the blend
    0.3 * original + 0.7 * heatmap; the heat map has the palette colour of
    the value 0, RGB (0, 0, 128), at the corner pixel for every constant c
    and at every pixel when c is 0, so the composite there is (38, 38, 128),
    which is not 0.3 * original = (38, 38, 38). *)
Theorem constant_gradient_composite (c : Q) :
  exists comp w',
    generate_saliency_map (gray_globals 299 x80) (constant_gradient_stub c)
      (gray_tensor 299 (128 # 255)) 0 (299%nat, 299%nat) []
    = (Returned comp, w') /\
    Np.has_shape 299 299 comp /\
    Np.get (0, 0, 0) comp 0 0 = (38, 38, 128) /\
    ((c == 0)%Q ->
     forall y x, (y < 299)%nat -> (x < 299)%nat ->
       Np.get (0, 0, 0) comp y x = (38, 38, 128)).
Proof.
  assert (Hv : valid_call (gray_globals 299 x80) (constant_gradient_stub c)
                 (gray_tensor 299 (128 # 255)) 0 (299%nat, 299%nat))
    by (apply stub_call_valid; lia).
  destruct (square_call_corner _ _ _ _ 299 ltac:(lia) Hv) as [comp [Hrun [Hs H0]]].
  exists comp, (file_writes (gray_globals 299 x80) comp ++ gradient_ops ++ []).
  split; [apply Hrun|]. split; [exact Hs|]. split.
  - rewrite H0, gray_original by lia. vm_compute. reflexivity.
  - intros Hc y x Hy Hx.
    destruct (zero_gradient_pixels (gray_globals 299 x80) (constant_gradient_stub c)
                (gray_tensor 299 (128 # 255)) 0 (299%nat, 299%nat)
                (map (map (fun _ => (c, c, c))) (gray_tensor 299 (128 # 255)))
                Hv eq_refl) as [comp' [Hrun' [_ Hp]]].
    { apply (all_entries_map_map is_zero3). intros v. repeat split; exact Hc. }
    specialize (Hrun []). rewrite (Hrun' []) in Hrun.
    inversion Hrun; subst comp'.
    rewrite Hp, gray_original by (simpl; lia). vm_compute. reflexivity.
Qed.

(** ** Instances and counterexamples *)

(** The normalisation theorem on the 3 x 3 map: the entries under the cross
    range from 2 to 8. *)
Lemma normalize_in_mask_witness :
  Np.select (Np.mul_mask small_map small_mask) small_mask
  = Np.select small_map small_mask /\
  exists g',
    normalize (Np.mul_mask small_map small_mask) small_mask = Some g' /\
    Np.has_shape 3 3 g' /\
    forall y x, (y < 3)%nat -> (x < 3)%nat ->
      (Np.get false small_mask y x = true ->
         Np.get 0%Q g' y x = ((Np.get 0%Q small_map y x - 2) / (8 - 2))%Q /\
         (0 <= Np.get 0%Q g' y x)%Q /\ (Np.get 0%Q g' y x <= 1)%Q) /\
      (Np.get false small_mask y x = false -> Np.get 0%Q g' y x = 0%Q).
Proof.
  apply (normalize_in_mask 3 3 small_map small_mask 2 8).
  - apply has_shapeb_spec. reflexivity.
  - apply has_shapeb_spec. reflexivity.
  - reflexivity.
  - reflexivity.
  - reflexivity.
Defined.



(** C4, as stated, fails: on a 30 x 30 map of the constant 1 the mask has 81
    pixels, their 80th percentile is 1, no pixel is strictly below it, and
    all 81 are non-zero after the threshold step. *)
Lemma threshold_counterexample :
  exists g',
    masked_saliency (constant_map 30 1) = Some g' /\
    nonzero_count (Np.select g' (mask 30 30)) = 81%nat /\
    length (Np.select g' (mask 30 30)) = 81%nat /\
    ~ at_most_fifth_nonzero g' (mask 30 30).
Proof.
  eexists. split; [vm_compute; reflexivity|].
  split; [vm_compute; reflexivity|].
  split; [vm_compute; reflexivity|].
  unfold at_most_fifth_nonzero.
  replace (nonzero_count _) with 81%nat by (vm_compute; reflexivity).
  replace (length _) with 81%nat by (vm_compute; reflexivity).
  lia.
Qed.

Lemma threshold_keeps_top_witness :
  (forall y x, (y < 3)%nat -> (x < 3)%nat ->
     Np.get 0%Q (apply_threshold small_map small_mask) y x
     = if Np.Qltb (Np.get 0%Q small_map y x) (threshold small_map small_mask)
       then 0%Q else Np.get 0%Q small_map y x) /\
  (5 * above_count (threshold small_map small_mask)
         (Np.select (apply_threshold small_map small_mask) small_mask)
   <= length (Np.select small_map small_mask) + 3)%nat.
Proof.
  apply (threshold_keeps_top 3 3 small_map small_mask).
  - apply has_shapeb_spec. reflexivity.
  - apply has_shapeb_spec. reflexivity.
Defined.


Lemma square_mask_nonempty_witness :
  Np.get false (mask 3 3) (3 / 2) (3 / 2) = true /\
  Np.select (Np.mul_mask small_map (mask 3 3)) (mask 3 3) <> [] /\
  (exists mx mn,
     Np.amax (Np.select (Np.mul_mask small_map (mask 3 3)) (mask 3 3)) = Some mx /\
     Np.amin (Np.select (Np.mul_mask small_map (mask 3 3)) (mask 3 3)) = Some mn) /\
  exists g', masked_saliency small_map = Some g' /\ Np.has_shape 3 3 g'.
Proof.
  apply (square_mask_nonempty 3 small_map).
  - lia.
  - apply has_shapeb_spec. reflexivity.
Defined.

(** C6, as stated, fails: with the class index 4 and the four-class stub the
    call raises InvalidArgumentError, yet the world at that point holds the
    conversion of the input and the forward pass of the classifier. *)
Lemma index_4_counterexample :
  generate_saliency_map (gray_globals 3 x80) (constant_gradient_stub 1)
    (gray_tensor 3 (128 # 255)) 4 (3%nat, 3%nat) []
  = (Raised InvalidArgumentError,
     [TensorOp OpCall; TensorOp OpWatch; TensorOp OpConvertToTensor]) /\
  ~ raises_before_tensor_computation
      (generate_saliency_map (gray_globals 3 x80) (constant_gradient_stub 1)
         (gray_tensor 3 (128 # 255)) 4 (3%nat, 3%nat)).
Proof.
  assert (E : generate_saliency_map (gray_globals 3 x80) (constant_gradient_stub 1)
                (gray_tensor 3 (128 # 255)) 4 (3%nat, 3%nat) []
              = (Raised InvalidArgumentError,
                 [TensorOp OpCall; TensorOp OpWatch; TensorOp OpConvertToTensor]))
    by reflexivity.
  split; [exact E|].
  intros [w' [Hrun Hnone]]. rewrite E in Hrun. inversion Hrun; subst w'.
  apply (Hnone OpCall). now left.
Qed.

Lemma out_of_range_index_raises_witness :
  generate_saliency_map (gray_globals 3 x80) (constant_gradient_stub 1)
    (gray_tensor 3 (128 # 255)) 4 (3%nat, 3%nat) []
  = (Raised InvalidArgumentError,
     [TensorOp OpCall; TensorOp OpWatch; TensorOp OpConvertToTensor]).
Proof.
  apply (out_of_range_index_raises (gray_globals 3 x80) (constant_gradient_stub 1)
           (gray_tensor 3 (128 # 255)) 4 (3%nat, 3%nat) []).
  right. simpl. lia.
Defined.

(** C7, as stated, fails: two calls with the same classifier, input tensor,
    class index and size return different composites when the picture [img]
    of the enclosing scope differs (a mid-grey and a black picture here). *)
Lemma enclosing_img_counterexample :
  fst (generate_saliency_map (gray_globals 30 x80) (constant_gradient_stub 1)
         (gray_tensor 30 (128 # 255)) 0 (30%nat, 30%nat) [])
  <> fst (generate_saliency_map (gray_globals 30 x00) (constant_gradient_stub 1)
            (gray_tensor 30 (128 # 255)) 0 (30%nat, 30%nat) []).
Proof.
  intros E.
  apply (f_equal (fun o => match o with
                           | Returned c => Np.get (0, 0, 0) c 0 0
                           | Raised _ => (0, 0, 0)
                           end)) in E.
  vm_compute in E. discriminate E.
Qed.

(** Two calls on the 3 x 3 mid-grey picture, with different uploads and
    after different pasts. *)
Lemma composite_determined_by_parameters_and_img_witness :
  fst ((gradients <- class_gradients (constant_gradient_stub 0)
                       (gray_tensor 3 (128 # 255)) 0 ;;
        composite (gray_globals 3 x80) gradients (3%nat, 3%nat)) [])
  = fst ((gradients <- class_gradients (constant_gradient_stub 0)
                         (gray_tensor 3 (128 # 255)) 0 ;;
          composite
            {| img := gray_image 3 x80;
               uploaded_file := {| name := "other.jpg"; getbuffer := [x01] |} |}
            gradients (3%nat, 3%nat)) [TensorOp OpCall]) /\
  exists c1 c2,
    fst (generate_saliency_map (gray_globals 3 x80) (constant_gradient_stub 0)
           (gray_tensor 3 (128 # 255)) 0 (3%nat, 3%nat) [])
    = Returned c1 /\
    fst (generate_saliency_map
           {| img := gray_image 3 x80;
              uploaded_file := {| name := "other.jpg"; getbuffer := [x01] |} |}
           (constant_gradient_stub 0)
           (gray_tensor 3 (128 # 255)) 0 (3%nat, 3%nat) [TensorOp OpCall])
    = Returned c2 /\
    c1 = c2.
Proof.
  destruct (composite_determined_by_parameters_and_img
              (gray_globals 3 x80)
              {| img := gray_image 3 x80;
                 uploaded_file := {| name := "other.jpg"; getbuffer := [x01] |} |}
              (constant_gradient_stub 0)
              (gray_tensor 3 (128 # 255)) 0 (3%nat, 3%nat)
              [] [TensorOp OpCall] eq_refl) as [H1 H2].
  split; [exact H1|].
  exists (repeat (repeat (38, 38, 128) 3) 3),
         (repeat (repeat (38, 38, 128) 3) 3).
  assert (E1 : fst (generate_saliency_map (gray_globals 3 x80)
                      (constant_gradient_stub 0)
                      (gray_tensor 3 (128 # 255)) 0 (3%nat, 3%nat) [])
               = Returned (repeat (repeat (38, 38, 128) 3) 3))
    by (vm_compute; reflexivity).
  assert (E2 : fst (generate_saliency_map
                      {| img := gray_image 3 x80;
                         uploaded_file :=
                           {| name := "other.jpg"; getbuffer := [x01] |} |}
                      (constant_gradient_stub 0)
                      (gray_tensor 3 (128 # 255)) 0 (3%nat, 3%nat)
                      [TensorOp OpCall])
               = Returned (repeat (repeat (38, 38, 128) 3) 3))
    by (vm_compute; reflexivity).
  split; [exact E1|]. split; [exact E2|].
  exact (H2 _ _ E1 E2).
Defined.

(** C8, as stated, fails: on the 299 x 299 mid-grey picture, with the stub of
    constant gradient 0 as with the stub of constant gradient 1, the call
    returns a composite whose corner pixel is (38, 38, 128), whereas 0.3
    times the original is (38, 38, 38). *)
Lemma mid_gray_counterexample :
  Np.get (0, 0, 0) (darkened_original (img (gray_globals 299 x80))) 0 0
  = (38, 38, 38) /\
  (exists c w',
     generate_saliency_map (gray_globals 299 x80) (constant_gradient_stub 0)
       (gray_tensor 299 (128 # 255)) 0 (299%nat, 299%nat) []
     = (Returned c, w') /\
     Np.get (0, 0, 0) c 0 0 = (38, 38, 128) /\
     c <> darkened_original (img (gray_globals 299 x80))) /\
  (exists c w',
     generate_saliency_map (gray_globals 299 x80) (constant_gradient_stub 1)
       (gray_tensor 299 (128 # 255)) 0 (299%nat, 299%nat) []
     = (Returned c, w') /\
     Np.get (0, 0, 0) c 0 0 = (38, 38, 128) /\
     c <> darkened_original (img (gray_globals 299 x80))).
Proof.
  assert (Hd : Np.get (0, 0, 0) (darkened_original (img (gray_globals 299 x80))) 0 0
               = (38, 38, 38)).
  { unfold darkened_original.
    rewrite (map_map_get _ (0%Q, 0%Q, 0%Q) (0, 0, 0) 299 299)
      by (try (apply img_to_array_shape, repeat_shape); lia).
    rewrite gray_original by lia. vm_compute. reflexivity. }
  assert (H : forall q : Q,
    exists c w',
     generate_saliency_map (gray_globals 299 x80) (constant_gradient_stub q)
       (gray_tensor 299 (128 # 255)) 0 (299%nat, 299%nat) []
     = (Returned c, w') /\
     Np.get (0, 0, 0) c 0 0 = (38, 38, 128) /\
     c <> darkened_original (img (gray_globals 299 x80))).
  { intros q.
    destruct (square_call_corner (gray_globals 299 x80) (constant_gradient_stub q)
                (gray_tensor 299 (128 # 255)) 0 299 ltac:(lia)
                (stub_call_valid 299 q x80 (128 # 255) ltac:(lia)))
      as [c [Hrun [_ H0]]].
    assert (Hc : Np.get (0, 0, 0) c 0 0 = (38, 38, 128)).
    { rewrite H0, gray_original by lia. vm_compute. reflexivity. }
    exists c, (file_writes (gray_globals 299 x80) c ++ gradient_ops ++ []).
    split; [apply Hrun|]. split; [exact Hc|].
    intros E. rewrite E, Hd in Hc. discriminate Hc. }
  split; [exact Hd|]. split; apply H.
Qed.

(** The stub of constant gradient 0: the whole composite is (38, 38, 128). *)
Lemma constant_gradient_composite_witness :
  exists comp w',
    generate_saliency_map (gray_globals 299 x80) (constant_gradient_stub 0)
      (gray_tensor 299 (128 # 255)) 0 (299%nat, 299%nat) []
    = (Returned comp, w') /\
    Np.has_shape 299 299 comp /\
    forall y x, (y < 299)%nat -> (x < 299)%nat ->
      Np.get (0, 0, 0) comp y x = (38, 38, 128).
Proof.
  destruct (constant_gradient_composite 0) as [comp [w' [Hrun [Hs [_ Hall]]]]].
  exists comp, w'. split; [exact Hrun|]. split; [exact Hs|].
  apply Hall. reflexivity.
Defined.

(** A run on a 3 x 3 mid-grey picture with the stub of constant gradient 0:
    every pixel of the composite is (38, 38, 128). *)
Lemma composite_is_clipped_blend_witness :
  exists gradients heatmap h wd,
    make_heatmap gradients (3%nat, 3%nat) = Some heatmap /\
    Np.has_shape h wd (repeat (repeat (38, 38, 128) 3) 3) /\
    forall y x, (y < h)%nat -> (x < wd)%nat ->
      Np.get (0, 0, 0) (repeat (repeat (38, 38, 128) 3) 3) y x
      = clipped_blend_pixel
          (broadcast_get (0, 0, 0) heatmap y x)
          (broadcast_get (0%Q, 0%Q, 0%Q)
             (img_to_array (img (gray_globals 3 x80))) y x) /\
      Np.get (0, 0, 0) (repeat (repeat (38, 38, 128) 3) 3) y x
      = truncated_blend_pixel
          (broadcast_get (0, 0, 0) heatmap y x)
          (broadcast_get (0%Q, 0%Q, 0%Q)
             (img_to_array (img (gray_globals 3 x80))) y x).
Proof.
  apply (composite_is_clipped_blend (gray_globals 3 x80) (constant_gradient_stub 0)
           (gray_tensor 3 (128 # 255)) 0 (3%nat, 3%nat) []
           (file_writes (gray_globals 3 x80) (repeat (repeat (38, 38, 128) 3) 3)
              ++ gradient_ops)
           (repeat (repeat (38, 38, 128) 3) 3)).
  vm_compute. reflexivity.
Defined.

(** * Further properties of the code *)

(** ** Bounds through the percentile, the threshold and the blur *)

(** The percentile lies between any bounds of the data. *)
Lemma percentile_between (l : list Q) (a b : Q) :
  l <> [] -> (forall v, In v l -> (a <= v)%Q /\ (v <= b)%Q) ->
  (a <= Np.percentile l 80)%Q /\ (Np.percentile l 80 <= b)%Q.
Proof.
  intros Hne Hb.
  assert (Hn : 1 <= Z.of_nat (length l))
    by (destruct l; simpl in *; [congruence | lia]).
  destruct (virtual_index_bounds _ Hn) as [[Hk0 Hk1] [_ Hgamma]].
  unfold Np.percentile.
  set (v := ((80 # 100) * inject_Z (Z.of_nat (length l) - 1))%Q) in *.
  pose proof (Qlt_floor v) as Hlt.
  assert (Hg1 : (v - inject_Z (Qfloor v) <= 1)%Q).
  { rewrite inject_Z_plus in Hlt. change (inject_Z 1) with 1%Q in Hlt. lra. }
  assert (Hin : forall k, (k < length l)%nat ->
                  (a <= nth k (Np.sort l) 0)%Q /\ (nth k (Np.sort l) 0 <= b)%Q).
  { intros k Hk. apply Hb.
    apply (Permutation_in _ (Permutation_sym (sort_perm l))).
    apply nth_In. now rewrite sort_length. }
  destruct (Hin (Z.to_nat (Qfloor v)) ltac:(lia)) as [L1 L2].
  destruct (Hin (Z.to_nat (Z.min (Qfloor v + 1) (Z.of_nat (length l) - 1)))
              ltac:(lia)) as [H1 H2].
  set (lo := nth (Z.to_nat (Qfloor v)) (Np.sort l) 0%Q) in *.
  set (hi := nth (Z.to_nat (Z.min (Qfloor v + 1) (Z.of_nat (length l) - 1)))
                 (Np.sort l) 0%Q) in *.
  set (gm := (v - inject_Z (Qfloor v))%Q) in *.
  assert (E : (lo + (hi - lo) * gm == (1 - gm) * lo + gm * hi)%Q) by ring.
  rewrite E.
  assert (P1 : (0 <= (1 - gm) * (lo - a))%Q) by (apply Qmult_le_0_compat; lra).
  assert (P2 : (0 <= gm * (hi - a))%Q) by (apply Qmult_le_0_compat; lra).
  assert (P3 : (0 <= (1 - gm) * (b - lo))%Q) by (apply Qmult_le_0_compat; lra).
  assert (P4 : (0 <= gm * (b - hi))%Q) by (apply Qmult_le_0_compat; lra).
  split; lra.
Qed.

(** The map between lines 78 and 80, entry by entry. *)
Lemma masked_saliency_inv (h w : nat) (g g' : Np.array2 Q) :
  Np.has_shape h w g -> (0 < h)%nat -> masked_saliency g = Some g' ->
  exists g1 mx mn,
    Np.amax (Np.select g (mask h w)) = Some mx /\
    Np.amin (Np.select g (mask h w)) = Some mn /\
    g' = apply_threshold g1 (mask h w) /\
    Np.has_shape h w g1 /\
    forall y x, (y < h)%nat -> (x < w)%nat ->
      Np.get 0%Q g1 y x
      = if Np.get false (mask h w) y x
        then (if Np.Qltb mn mx
              then ((Np.get 0%Q g y x - mn) / (mx - mn))%Q
              else Np.get 0%Q g y x)
        else 0%Q.
Proof.
  intros Hg Hh E. unfold masked_saliency in E.
  rewrite (has_shape_length h w g Hg) in E.
  rewrite (has_shape_width h w g Hg) in E by lia.
  pose proof (mask_shape h w) as Hm.
  pose proof (mul_mask_shape h w g _ Hg Hm) as Hgm.
  destruct (normalize (Np.mul_mask g (mask h w)) (mask h w)) as [g1|] eqn:En;
    [|discriminate].
  inversion E; subst g'; clear E.
  unfold normalize in En. rewrite select_mul_mask in En.
  destruct (Np.amax (Np.select g (mask h w))) as [mx|] eqn:Emx; [|discriminate].
  destruct (Np.amin (Np.select g (mask h w))) as [mn|] eqn:Emn; [|discriminate].
  exists g1, mx, mn. split; [reflexivity|]. split; [reflexivity|].
  split; [reflexivity|].
  destruct (Np.Qltb mn mx) eqn:Elt; inversion En; subst g1; clear En.
  - rewrite <- (select_mul_mask g (mask h w)).
    rewrite <- (app_nil_r (map _ _)).
    rewrite (assign_map_select _ h w) by assumption.
    split; [now apply zip_with_rows_shape|].
    intros y x Hy Hx.
    rewrite (zip_with_rows_get _ 0%Q false 0%Q h w) by assumption.
    rewrite (mul_mask_get h w) by assumption.
    now destruct (Np.get false (mask h w) y x).
  - split; [assumption|]. intros y x Hy Hx.
    now rewrite (mul_mask_get h w) by assumption.
Qed.

(** X1.  After the mask, the normalisation and the threshold (lines 73-81)
    the map has kept its shape and every pixel outside the circular mask is
    zero, whatever the gradient. *)
Theorem outside_mask_is_zero (h w : nat) (g g' : Np.array2 Q) :
  Np.has_shape h w g -> masked_saliency g = Some g' ->
  Np.has_shape h w g' /\
  forall y x, (y < h)%nat -> (x < w)%nat ->
    Np.get false (mask h w) y x = false -> Np.get 0%Q g' y x = 0%Q.
Proof.
  intros Hg E.
  destruct h as [|h].
  { destruct g; [|destruct Hg; discriminate].
    vm_compute in E. discriminate E. }
  destruct (masked_saliency_inv (S h) w g g' Hg ltac:(lia) E)
    as [g1 [mx [mn [_ [_ [-> [S1 H1]]]]]]].
  split; [now apply apply_threshold_shape|].
  intros y x Hy Hx Hout.
  unfold apply_threshold, Np.zero_below.
  rewrite (map_map_get _ 0%Q 0%Q (S h) w) by assumption.
  rewrite H1, Hout by assumption.
  now destruct (Np.Qltb 0 _).
Qed.

(** X2.  When the maximum under the mask exceeds the minimum, a pixel that
    carries the maximum has the value 1 after the threshold step: the
    threshold never exceeds the largest normalised value, so the map that is
    blurred and coloured is not all zero. *)
Theorem maximum_survives_threshold (h w : nat) (g g' : Np.array2 Q) (mx mn : Q) :
  Np.has_shape h w g -> masked_saliency g = Some g' ->
  Np.amax (Np.select g (mask h w)) = Some mx ->
  Np.amin (Np.select g (mask h w)) = Some mn ->
  (mn < mx)%Q ->
  exists y x, (y < h)%nat /\ (x < w)%nat /\
    Np.get false (mask h w) y x = true /\
    Np.get 0%Q g y x = mx /\
    (Np.get 0%Q g' y x == 1)%Q.
Proof.
  intros Hg E Hmx Hmn Hlt.
  destruct (select_inv 0%Q g (mask h w) mx (amax_In _ _ Hmx))
    as [y [x [Hy [Hx [Hb Hv]]]]].
  pose proof Hg as [Hl _]. rewrite Hl in Hy.
  rewrite (has_shape_row h w g y Hg Hy) in Hx.
  destruct (masked_saliency_inv h w g g' Hg ltac:(lia) E)
    as [g1 [mx' [mn' [Emx [Emn [-> [S1 H1]]]]]]].
  rewrite Hmx in Emx. rewrite Hmn in Emn.
  inversion Emx; inversion Emn; subst mx' mn'.
  exists y, x. repeat (split; [assumption|]).
  assert (Hltb : Np.Qltb mn mx = true) by now apply Qltb_lt.
  assert (Hone : (Np.get 0%Q g1 y x == 1)%Q).
  { rewrite H1, Hb, Hltb, Hv by assumption. field. lra. }
  assert (Hsel : Np.select g1 (mask h w) <> []).
  { apply (select_nonempty _ _ h w y x); auto. }
  assert (Hbound : forall v, In v (Np.select g1 (mask h w)) ->
                     (0 <= v)%Q /\ (v <= 1)%Q).
  { intros v Hin.
    destruct (select_inv 0%Q g1 (mask h w) v Hin)
      as [y' [x' [Hy' [Hx' [Hb' Hv']]]]].
    pose proof S1 as [Hl1 _]. rewrite Hl1 in Hy'.
    rewrite (has_shape_row h w g1 y' S1 Hy') in Hx'.
    rewrite <- Hv', H1, Hb', Hltb by assumption.
    apply rescale_range; auto.
    - apply (amin_le _ _ _ Hmn). apply select_In; auto.
      + destruct Hg; lia.
      + now rewrite (has_shape_row h w g y' Hg Hy').
    - apply (amax_ge _ _ _ Hmx). apply select_In; auto.
      + destruct Hg; lia.
      + now rewrite (has_shape_row h w g y' Hg Hy'). }
  destruct (percentile_between _ 0 1 Hsel Hbound) as [_ Ht].
  unfold apply_threshold, Np.zero_below.
  rewrite (map_map_get _ 0%Q 0%Q h w) by assumption.
  fold (threshold g1 (mask h w)) in Ht.
  assert (Hk : Np.Qltb (Np.get 0%Q g1 y x) (threshold g1 (mask h w)) = false).
  { apply Qltb_ge. rewrite Hone. exact Ht. }
  now rewrite Hk.
Qed.

Lemma sum_nonneg (ks : list Q) :
  Forall (fun k => 0 <= k)%Q ks -> (0 <= fold_right Qplus 0 ks)%Q.
Proof.
  induction 1 as [|k ks Hk _ IH]; cbn [fold_right]; [apply Qle_refl | lra].
Qed.

(** A weighted sum of samples of [0, 1] stays in [0, 1]: the weights are
    not negative and sum to one. *)
Lemma weighted_sum_gen (ks samples : list Q) :
  Forall (fun k => 0 <= k)%Q ks -> Forall in_unit samples ->
  (0 <= fold_right (fun t acc => Qred (t + acc)) 0 (Np.zip_with Qmult ks samples))%Q /\
  (fold_right (fun t acc => Qred (t + acc)) 0 (Np.zip_with Qmult ks samples)
   <= fold_right Qplus 0 ks)%Q.
Proof.
  intros Hk. revert samples.
  induction Hk as [|k ks Hk0 Hks IH]; intros samples Hs;
    cbn [Np.zip_with fold_right]; [split; apply Qle_refl|].
  pose proof (sum_nonneg ks Hks) as Hsum.
  destruct Hs as [|s samples [Hs0 Hs1] Hs]; cbn [fold_right].
  - split; [apply Qle_refl | lra].
  - destruct (IH samples Hs) as [I0 I1].
    rewrite Qred_correct.
    assert (P0 : (0 <= k * s)%Q) by (apply Qmult_le_0_compat; assumption).
    assert (P1 : (0 <= k * (1 - s))%Q) by (apply Qmult_le_0_compat; lra).
    split; lra.
Qed.

Lemma weighted_sum_unit (samples : list Q) :
  Forall in_unit samples -> in_unit (Cv2.weighted_sum samples).
Proof.
  intros Hs. unfold Cv2.weighted_sum.
  assert (Hk : Forall (fun k => 0 <= k)%Q Cv2.gaussian_kernel).
  { unfold Cv2.gaussian_kernel, Cv2.gaussian_weights.
    repeat constructor; discriminate. }
  destruct (weighted_sum_gen _ _ Hk Hs) as [H0 H1].
  split; [exact H0|].
  eapply Qle_trans; [exact H1|]. vm_compute. discriminate.
Qed.

Lemma in_unit_zero : in_unit 0.
Proof. split; [apply Qle_refl | discriminate]. Qed.

Lemma blur_rows_unit (g : Np.array2 Q) :
  all_entries in_unit g -> all_entries in_unit (Cv2.blur_rows g).
Proof.
  intros Hg. unfold Cv2.blur_rows, all_entries in *. rewrite Forall_forall in *.
  intros r' Hr'. apply in_map_iff in Hr'. destruct Hr' as [r [<- Hr]].
  specialize (Hg r Hr). apply Forall_forall. intros v Hv.
  apply in_map_iff in Hv. destruct Hv as [x [<- _]].
  apply weighted_sum_unit. apply Forall_forall. intros s Hs.
  apply in_map_iff in Hs. destruct Hs as [k [<- _]].
  destruct (Nat.lt_ge_cases (Cv2.reflect101 (length r) (Z.of_nat x + k - 5))
              (length r)) as [Hlt | Hge].
  - rewrite Forall_forall in Hg. apply Hg, nth_In, Hlt.
  - rewrite nth_overflow by assumption. apply in_unit_zero.
Qed.

Lemma blur_cols_unit (g : Np.array2 Q) :
  all_entries in_unit g -> all_entries in_unit (Cv2.blur_cols g).
Proof.
  intros Hg. unfold Cv2.blur_cols, all_entries. apply Forall_forall.
  intros r' Hr'. apply in_map_iff in Hr'. destruct Hr' as [y [<- _]].
  apply Forall_forall. intros v Hv.
  apply in_map_iff in Hv. destruct Hv as [x [<- _]].
  apply weighted_sum_unit. apply Forall_forall. intros s Hs.
  apply in_map_iff in Hs. destruct Hs as [k [<- _]].
  apply (all_entries_get in_unit); [exact Hg | apply in_unit_zero].
Qed.

Lemma all_entries_of_get {A} (P : A -> Prop) (d : A) (h w : nat) (a : Np.array2 A) :
  Np.has_shape h w a ->
  (forall y x, (y < h)%nat -> (x < w)%nat -> P (Np.get d a y x)) ->
  all_entries P a.
Proof.
  intros Hs Hp. unfold all_entries. apply Forall_forall. intros r Hr.
  apply (In_nth _ _ []) in Hr. destruct Hr as [y [Hy <-]].
  pose proof Hs as [Hl _]. rewrite Hl in Hy.
  pose proof (has_shape_row h w a y Hs Hy) as Hrow.
  apply Forall_forall. intros v Hv.
  apply (In_nth _ _ d) in Hv. destruct Hv as [x [Hx <-]].
  rewrite Hrow in Hx. now apply Hp.
Qed.

(** X3.  When the maximum under the mask exceeds the minimum, the map stays
    within [0, 1] through the threshold and the blur (lines 77-83), so the
    conversion [np.uint8(255 * gradients)] of line 85 receives values of
    [0, 255]: it truncates them and never wraps. *)
Theorem heat_values_do_not_wrap (h w : nat) (g g' : Np.array2 Q) (mx mn : Q) :
  Np.has_shape h w g -> masked_saliency g = Some g' ->
  Np.amax (Np.select g (mask h w)) = Some mx ->
  Np.amin (Np.select g (mask h w)) = Some mn ->
  (mn < mx)%Q ->
  forall y x, (y < h)%nat -> (x < w)%nat ->
    in_unit (Np.get 0%Q g' y x) /\
    in_unit (Np.get 0%Q (Cv2.GaussianBlur g') y x) /\
    (Np.get 0 (to_uint8 (Cv2.GaussianBlur g')) y x
     = Qfloor (255 * Np.get 0%Q (Cv2.GaussianBlur g') y x)) /\
    (0 <= Qfloor (255 * Np.get 0%Q (Cv2.GaussianBlur g') y x) <= 255).
Proof.
  intros Hg E Hmx Hmn Hlt y x Hy Hx.
  destruct (masked_saliency_inv h w g g' Hg ltac:(lia) E)
    as [g1 [mx' [mn' [Emx [Emn [-> [S1 H1]]]]]]].
  rewrite Hmx in Emx. rewrite Hmn in Emn.
  inversion Emx; inversion Emn; subst mx' mn'.
  assert (Hltb : Np.Qltb mn mx = true) by now apply Qltb_lt.
  assert (U1 : forall y x, (y < h)%nat -> (x < w)%nat ->
                 in_unit (Np.get 0%Q g1 y x)).
  { intros y' x' Hy' Hx'. rewrite H1, Hltb by assumption.
    destruct (Np.get false (mask h w) y' x') eqn:Hb; [|apply in_unit_zero].
    apply rescale_range; auto.
    - apply (amin_le _ _ _ Hmn). apply select_In; auto.
      + destruct Hg; lia.
      + now rewrite (has_shape_row h w g y' Hg Hy').
    - apply (amax_ge _ _ _ Hmx). apply select_In; auto.
      + destruct Hg; lia.
      + now rewrite (has_shape_row h w g y' Hg Hy'). }
  pose proof (apply_threshold_shape h w g1 (mask h w) S1) as S2.
  assert (U2 : all_entries in_unit (apply_threshold g1 (mask h w))).
  { apply (all_entries_of_get in_unit 0%Q h w); [exact S2|].
    intros y' x' Hy' Hx'. unfold apply_threshold, Np.zero_below.
    rewrite (map_map_get _ 0%Q 0%Q h w) by assumption.
    match goal with
    | |- context [Np.Qltb ?a ?b] => destruct (Np.Qltb a b)
    end; [apply in_unit_zero | now apply U1]. }
  assert (U3 : all_entries in_unit (Cv2.GaussianBlur (apply_threshold g1 (mask h w))))
    by (unfold Cv2.GaussianBlur; now apply blur_cols_unit, blur_rows_unit).
  pose proof (GaussianBlur_shape h w _ S2) as S3.
  pose proof (all_entries_get_in in_unit 0%Q h w _ y x U3 S3 Hy Hx) as [B0 B1].
  split; [apply (all_entries_get_in in_unit 0%Q h w _ y x U2 S2 Hy Hx)|].
  split; [split; assumption|].
  set (v := Np.get 0%Q (Cv2.GaussianBlur (apply_threshold g1 (mask h w))) y x) in *.
  assert (Q0 : (0 <= 255 * v)%Q) by lra.
  assert (Q1 : (255 * v <= 255)%Q) by lra.
  pose proof (Qtrunc_range _ Q0 Q1) as Hr.
  assert (Et : Np.Qtrunc (255 * v) = Qfloor (255 * v)).
  { unfold Np.Qtrunc. apply Qle_bool_iff in Q0. now rewrite Q0. }
  rewrite Et in Hr. split; [|exact Hr].
  unfold to_uint8. rewrite (map_map_get _ 0%Q 0 h w) by assumption.
  fold v. unfold Np.astype_uint8. rewrite Et. apply Z.mod_small. lia.
Qed.

(** ** The composite outside the mask (lines 83-92) *)




(** ** The files written by the call (lines 94-100) *)

Lemma path_join_output_dir (b : string) :
  path_join output_dir b
  = if is_absolute b then b else ("saliency_maps/" ++ b)%string.
Proof.
  destruct b as [|c b]; [reflexivity|].
  destruct c as [[] [] [] [] [] [] [] []]; reflexivity.
Qed.

Lemma read_file_tensor_only (ops w : world) (p : string) :
  tensor_only ops -> read_file (ops ++ w) p = read_file w p.
Proof.
  induction 1 as [|ev ops [op ->] _ IH]; simpl; auto.
Qed.

Lemma gradient_ops_tensor_only : tensor_only gradient_ops.
Proof. unfold gradient_ops. repeat constructor; eexists; reflexivity. Qed.

(** The world after lines 55-64: tensor operations have been added, and
    all seven of them when the step returns. *)
Lemma class_gradients_world (model : Tf.classifier) (t : Tf.tensor) (k : Z)
    (w : world) :
  (exists ops, snd (class_gradients model t k w) = ops ++ w /\ tensor_only ops) /\
  (forall g w1, class_gradients model t k w = (Returned g, w1) ->
                w1 = gradient_ops ++ w).
Proof.
  unfold class_gradients, Tf.slice_column; unfold_run. simpl.
  destruct ((- Z.of_nat (length (Tf.predict model t)) <=? k)
            && (k <? Z.of_nat (length (Tf.predict model t)))).
  - destruct (Tf.score_gradient model _ t); simpl.
    + split.
      * exists gradient_ops. split; [reflexivity | apply gradient_ops_tensor_only].
      * intros g w1 E. now inversion E.
    + split.
      * exists [TensorOp OpGradient; TensorOp OpStridedSlice; TensorOp OpCall;
                TensorOp OpWatch; TensorOp OpConvertToTensor].
        split; [reflexivity | repeat constructor; eexists; reflexivity].
      * intros g w1 E. discriminate E.
  - split.
    + exists [TensorOp OpCall; TensorOp OpWatch; TensorOp OpConvertToTensor].
      split; [reflexivity | repeat constructor; eexists; reflexivity].
    + intros g w1 E. discriminate E.
Qed.

(** The world after a call that returns. *)
Lemma returned_world (G : globals) (model : Tf.classifier) (t : Tf.tensor)
    (k : Z) (size : nat * nat) (w w' : world) (c : Np.array2 (Z * Z * Z)) :
  generate_saliency_map G model t k size w = (Returned c, w') ->
  w' = file_writes G c ++ gradient_ops ++ w.
Proof.
  intros E.
  destruct (generate_saliency_map_inv _ _ _ _ _ _ _ _ E) as [g [w1 [E1 E2]]].
  rewrite (generate_saliency_map_returns G model t k size w w1 g c E1 E2) in E.
  destruct (class_gradients_world model t k w) as [_ Hw].
  rewrite (Hw g w1 E1) in E. now inversion E.
Qed.

(** X5.  When the name of the upload does not begin with a slash, the copy
    of the upload written by lines 94-96 and the composite written by line
    100 go to the same file: after a call that returns, that file holds the
    composite (in BGR order for [imwrite]), the bytes of the upload are
    gone, and no other file has changed. *)
Theorem composite_overwrites_upload (G : globals) (model : Tf.classifier)
    (img_array : Tf.tensor) (class_index : Z) (img_size : nat * nat)
    (w w' : world) (c : Np.array2 (Z * Z * Z)) :
  is_absolute (name (uploaded_file G)) = false ->
  generate_saliency_map G model img_array class_index img_size w
  = (Returned c, w') ->
  path_join output_dir (name (uploaded_file G))
  = ("saliency_maps/" ++ name (uploaded_file G))%string /\
  read_file w' ("saliency_maps/" ++ name (uploaded_file G))
  = Some (Encoded (Cv2.swap_channels c)) /\
  forall p, p <> ("saliency_maps/" ++ name (uploaded_file G))%string ->
            read_file w' p = read_file w p.
Proof.
  intros Hrel E.
  assert (Hp : path_join output_dir (name (uploaded_file G))
               = ("saliency_maps/" ++ name (uploaded_file G))%string)
    by now rewrite path_join_output_dir, Hrel.
  rewrite (returned_world _ _ _ _ _ _ _ _ E). unfold file_writes. rewrite Hp.
  split; [reflexivity|]. split.
  - cbn [app read_file]. now rewrite String.eqb_refl.
  - intros p Hne. cbn [app read_file].
    assert (Hq : String.eqb ("saliency_maps/" ++ name (uploaded_file G)) p = false)
      by (apply String.eqb_neq; congruence).
    rewrite Hq.
    apply (read_file_tensor_only gradient_ops w p), gradient_ops_tensor_only.
Qed.

(** X6.  When the name of the upload begins with a slash, [os.path.join]
    drops the output directory: line 96 writes the bytes of the upload to
    the file of that very name, outside the output directory, and they are
    still there when the call has returned. *)
Theorem absolute_name_escapes_output_dir (G : globals) (model : Tf.classifier)
    (img_array : Tf.tensor) (class_index : Z) (img_size : nat * nat)
    (w w' : world) (c : Np.array2 (Z * Z * Z)) :
  is_absolute (name (uploaded_file G)) = true ->
  generate_saliency_map G model img_array class_index img_size w
  = (Returned c, w') ->
  path_join output_dir (name (uploaded_file G)) = name (uploaded_file G) /\
  read_file w' (name (uploaded_file G))
  = Some (Raw (getbuffer (uploaded_file G))).
Proof.
  intros Habs E.
  assert (Hp : path_join output_dir (name (uploaded_file G))
               = name (uploaded_file G))
    by now rewrite path_join_output_dir, Habs.
  rewrite (returned_world _ _ _ _ _ _ _ _ E). unfold file_writes. rewrite Hp.
  split; [reflexivity|].
  cbn [app read_file]. rewrite !String.eqb_refl.
  destruct (name (uploaded_file G)) as [|ch rest]; [discriminate Habs|].
  destruct ch as [[] [] [] [] [] [] [] []]; try discriminate Habs.
  reflexivity.
Qed.

(** X7.  A call that raises InvalidArgumentError or ValueError has written
    no file: these failures come from lines 55-92, before the writes of
    lines 94-100, so the world the call leaves differs from the one it
    found by tensor operations only. *)
Theorem failure_writes_no_file (G : globals) (model : Tf.classifier)
    (img_array : Tf.tensor) (class_index : Z) (img_size : nat * nat)
    (w w' : world) (e : exn) :
  generate_saliency_map G model img_array class_index img_size w
  = (Raised e, w') ->
  e = InvalidArgumentError \/ e = ValueError ->
  (exists ops, w' = ops ++ w /\ tensor_only ops) /\
  forall p, read_file w' p = read_file w p.
Proof.
  intros E _.
  assert (H : exists ops, w' = ops ++ w /\ tensor_only ops).
  { unfold generate_saliency_map, bind at 1 in E.
    destruct (class_gradients_world model img_array class_index w)
      as [[ops [Hops Ht]] _].
    destruct (class_gradients model img_array class_index w) as [[g|e1] w1] eqn:E1.
    - unfold bind at 1 in E.
      pose proof (composite_world G g img_size w1) as Hw.
      destruct (composite G g img_size w1) as [[c|e2] w2] eqn:E2.
      + unfold save_files in E. unfold_run. simpl in E. discriminate E.
      + simpl in Hw, Hops. inversion E; subst. now exists ops.
    - simpl in Hops. inversion E; subst. now exists ops. }
  split; [exact H|].
  destruct H as [ops [-> Ht]]. intros p. now apply read_file_tensor_only.
Qed.

(** ** An output size whose mask is empty (lines 66-76) *)

Lemma select_empty_mask {A} (a : Np.array2 A) (h w : nat) (m : Np.array2 bool) :
  Np.has_shape h w a ->
  (forall y x, (y < h)%nat -> (x < w)%nat -> Np.get false m y x = false) ->
  Np.select a m = [].
Proof.
  intros Ha Hm.
  destruct (Np.select a m) as [|v l] eqn:E; [reflexivity|].
  assert (Hin : In v (Np.select a m)) by (rewrite E; now left).
  destruct (select_inv v a m v Hin) as [y [x [Hy [Hx [Hb _]]]]].
  pose proof Ha as [Hl _]. rewrite Hl in Hy.
  rewrite (has_shape_row h w a y Ha Hy) in Hx.
  rewrite (Hm y x Hy Hx) in Hb. discriminate Hb.
Qed.

(** X8.  When no pixel of the output size is under the circular mask (as
    for the width 300 and the height 100, where the circle is centred on
    row 150), the call raises ValueError at [brain_gradients.max()], after
    the gradient has been computed and before anything is written. *)
Theorem empty_mask_raises (G : globals) (model : Tf.classifier)
    (img_array : Tf.tensor) (class_index : Z) (img_size : nat * nat)
    (w : world) (g : Tf.tensor) (h0 w0 : nat) :
  0 <= class_index < Z.of_nat (length (Tf.predict model img_array)) ->
  Tf.score_gradient model (Z.to_nat class_index) img_array = Some g ->
  Np.has_shape h0 w0 g -> (0 < h0)%nat -> (0 < w0)%nat ->
  (0 < fst img_size)%nat -> (0 < snd img_size)%nat ->
  (forall y x, (y < snd img_size)%nat -> (x < fst img_size)%nat ->
     in_circle (snd img_size) (fst img_size) (Z.of_nat y) (Z.of_nat x) = false) ->
  generate_saliency_map G model img_array class_index img_size w
  = (Raised ValueError, gradient_ops ++ w).
Proof.
  intros Hk Hg Hs Hh0 Hw0 Hwd Hht Hempty.
  destruct img_size as [wd ht]. simpl in *.
  destruct (resize_shape 0%Q Cv2.blend_float h0 w0 ht wd (Tf.abs_reduce_max g))
    as [g1 [E1 S1]]; auto.
  { unfold Tf.abs_reduce_max. now apply map_map_shape. }
  assert (E2 : masked_saliency g1 = None).
  { unfold masked_saliency.
    rewrite (has_shape_length ht wd g1 S1), (has_shape_width ht wd g1 S1) by lia.
    unfold normalize.
    rewrite (select_empty_mask _ ht wd); [reflexivity | |].
    - apply mul_mask_shape; [assumption | apply mask_shape].
    - intros y x Hy Hx. rewrite mask_get by assumption. now apply Hempty. }
  unfold generate_saliency_map, bind at 1.
  rewrite (class_gradients_returns model img_array class_index g w Hk Hg).
  unfold bind at 1, composite; unfold_run.
  fold (Cv2.resize_float (Tf.abs_reduce_max g) (wd, ht)).
  unfold Cv2.resize_float. rewrite E1. simpl. rewrite E2. reflexivity.
Qed.


Lemma wide_size_mask_empty (y x : nat) :
  (y < 100)%nat -> (x < 300)%nat ->
  in_circle 100 300 (Z.of_nat y) (Z.of_nat x) = false.
Proof.
  intros Hy Hx. unfold in_circle, radius, center. cbn [fst snd].
  change (Z.of_nat 100 / 2) with 50. change (Z.of_nat 300 / 2) with 150.
  change (Z.min 50 150 - 10) with 40.
  apply Z.leb_gt. rewrite !Z.pow_2_r.
  assert (H1 : 2601 <= (Z.of_nat y - 150) * (Z.of_nat y - 150)) by nia.
  pose proof (Z.square_nonneg (Z.of_nat x - 50)) as H2.
  lia.
Qed.


(** ** The class chosen by the script (lines 197-200) *)

Lemma argmax_from_spec (l : list Q) :
  forall best bi i, (bi < i)%nat ->
    (argmax_from best bi i l = bi /\ Forall (fun v => v <= best)%Q l) \/
    (exists d, argmax_from best bi i l = (i + d)%nat /\ (d < length l)%nat /\
       (best < nth d l 0)%Q /\
       Forall (fun v => v <= nth d l 0)%Q l /\
       forall j, (j < d)%nat -> (nth j l 0 < nth d l 0)%Q).
Proof.
  induction l as [|v t IH]; intros best bi i Hbi; simpl.
  - left. split; [reflexivity | constructor].
  - destruct (Np.Qltb best v) eqn:E.
    + apply Qltb_lt in E.
      destruct (IH v i (S i) ltac:(lia)) as [[Hr Hall] | [d [Hr [Hd [Hlt [Hall Hfirst]]]]]].
      * right. exists 0%nat. rewrite Hr. simpl.
        split; [lia|]. split; [lia|]. split; [exact E|].
        split; [constructor; [apply Qle_refl | exact Hall] | intros j Hj; lia].
      * right. exists (S d). rewrite Hr. simpl.
        split; [lia|]. split; [lia|]. split; [lra|].
        split.
        -- constructor; [lra | exact Hall].
        -- intros [|j] Hj; [exact Hlt | apply Hfirst; lia].
    + apply Qltb_ge in E.
      destruct (IH best bi (S i) ltac:(lia)) as [[Hr Hall] | [d [Hr [Hd [Hlt [Hall Hfirst]]]]]].
      * left. split; [exact Hr | constructor; assumption].
      * right. exists (S d). rewrite Hr. simpl.
        split; [lia|]. split; [lia|]. split; [exact Hlt|].
        split.
        -- constructor; [lra | exact Hall].
        -- intros [|j] Hj; [lra | apply Hfirst; lia].
Qed.

(** [np.argmax] returns an index of the sequence, of a largest entry, and
    the first such index. *)
Lemma argmax_spec (l : list Q) (r : nat) :
  argmax l = Some r ->
  (r < length l)%nat /\
  (forall j, (j < length l)%nat -> (nth j l 0 <= nth r l 0)%Q) /\
  (forall j, (j < r)%nat -> (nth j l 0 < nth r l 0)%Q).
Proof.
  destruct l as [|v t]; [discriminate|]. simpl. intros E. inversion E; clear E.
  destruct (argmax_from_spec t v 0%nat 1%nat ltac:(lia))
    as [[Hr Hall] | [d [Hr [Hd [Hlt [Hall Hfirst]]]]]]; rewrite Hr.
  - split; [lia|]. split.
    + intros [|j] Hj; [apply Qle_refl|].
      rewrite Forall_forall in Hall. apply Hall, nth_In. lia.
    + intros j Hj. lia.
  - simpl. split; [lia|]. split.
    + intros [|j] Hj; [lra|].
      rewrite Forall_forall in Hall. apply Hall, nth_In. lia.
    + intros [|j] Hj; [exact Hlt | apply Hfirst; lia].
Qed.





(** ** The explanation (lines 27-51 and 266-267) *)

(** X10.  The explanation is asked about the composite: in every run on an
    upload with a plain image name the file opened by generate_explanation
    exists, because line 100 of the call before has written it, and it
    holds the composite of this run in the channel order of OpenCV; the
    explanation is the answer of the generative model to this picture and
    to the prompt that names the label and the score of the chosen
    class. *)
Theorem explanation_reads_the_composite
    (load_img : upload -> nat * nat -> option (Np.array2 (byte * byte * byte)))
    (models : selected_model -> Tf.classifier)
    (llm : string -> file -> option string) (float_repr : Q -> string)
    (selected : selected_model) (up : upload) (w w' : world)
    (o : script_outcome analysis) :
  plain_image_name (name up) = true ->
  analyse load_img models llm float_repr selected up w = (o, w') ->
  o <> Failed FileNotFoundError /\
  forall a, o = Done a ->
    read_file w' ("saliency_maps/" ++ name up)
    = Some (Encoded (Cv2.swap_channels (saliency_map a))) /\
    llm (explanation_prompt float_repr (result a)
           (nth (class_index a) (prediction a) 0%Q))
        (Encoded (Cv2.swap_channels (saliency_map a)))
    = Some (explanation a).
Proof.
  intros _. unfold analyse.
  destruct (load_img up (img_size_of selected)) as [i|].
  2:{ intros E; injection E as Eo Ew; subst o w'.
      split; [discriminate | intros a Ha; discriminate Ha]. }
  destruct (argmax _) as [k|].
  2:{ intros E; injection E as Eo Ew; subst o w'.
      split; [discriminate | intros a Ha; discriminate Ha]. }
  destruct (nth_error labels k) as [lab|].
  2:{ intros E; injection E as Eo Ew; subst o w'.
      split; [discriminate | intros a Ha; discriminate Ha]. }
  destruct (generate_saliency_map _ _ _ _ _ w) as [[c|e] w1] eqn:Erun.
  2:{ intros E; injection E as Eo Ew; subst o w'.
      split; [discriminate | intros a Ha; discriminate Ha]. }
  apply returned_world in Erun. subst w1.
  unfold generate_explanation, file_writes. cbn [app read_file uploaded_file].
  rewrite String.eqb_refl.
  destruct (llm _ _) as [text|] eqn:Ellm.
  2:{ intros E; injection E as Eo Ew; subst o w'.
      split; [discriminate | intros a Ha; discriminate Ha]. }
  intros E. injection E as Eo Ew. subst o w'. split; [discriminate|].
  intros a Ha. injection Ha as Ha. subst a.
  cbn [saliency_map explanation result class_index prediction read_file].
  rewrite String.eqb_refl. split; [reflexivity | exact Ellm].
Qed.

(** ** The bar chart (lines 242-251) *)

Lemma take_indices_some {A} (d : A) (l : list A) (idx : list nat) :
  Forall (fun i => (i < length l)%nat) idx ->
  take_indices l idx = Some (map (fun i => nth i l d) idx).
Proof.
  induction 1 as [|i t Hi _ IH]; simpl; [reflexivity|].
  rewrite (nth_error_nth' l d Hi), IH. reflexivity.
Qed.

Lemma map_nth_seq {A} (d : A) (l : list A) :
  map (fun i => nth i l d) (seq 0 (length l)) = l.
Proof.
  apply (nth_ext _ _ d d).
  - now rewrite length_map, length_seq.
  - intros n Hn. rewrite length_map, length_seq in Hn.
    rewrite (nth_indep _ d (nth 0%nat l d)) by now rewrite length_map, length_seq.
    rewrite (map_nth (fun i => nth i l d) (seq 0 (length l)) 0%nat n).
    now rewrite seq_nth.
Qed.

Lemma StronglySorted_snoc {A} (R : A -> A -> Prop) (l : list A) (a : A) :
  StronglySorted R l -> Forall (fun x => R x a) l -> StronglySorted R (l ++ [a]).
Proof.
  induction 1 as [|b t Ht IH Hb]; intros Ha; simpl.
  - repeat constructor.
  - inversion Ha; subst. constructor; [now apply IH|].
    apply Forall_app. split; [exact Hb | now repeat constructor].
Qed.

Lemma StronglySorted_rev {A} (R : A -> A -> Prop) (l : list A) :
  StronglySorted R l -> StronglySorted (fun a b => R b a) (rev l).
Proof.
  induction 1 as [|a t Ht IH Ha]; simpl; [constructor|].
  apply StronglySorted_snoc; [exact IH|].
  apply Forall_rev. exact Ha.
Qed.

Lemma StronglySorted_map {A B} (R : B -> B -> Prop) (f : A -> B) (l : list A) :
  StronglySorted (fun a b => R (f a) (f b)) l -> StronglySorted R (map f l).
Proof.
  induction 1 as [|a t Ht IH Ha]; simpl; constructor; [exact IH|].
  rewrite Forall_map. exact Ha.
Qed.

Lemma StronglySorted_nth {A} (R : A -> A -> Prop) (d : A) (l : list A) :
  StronglySorted R l ->
  forall i j, (i < j)%nat -> (j < length l)%nat -> R (nth i l d) (nth j l d).
Proof.
  induction 1 as [|a t Ht IH Ha]; intros i j Hij Hj; simpl in Hj; [lia|].
  destruct j as [|j]; [lia|]. destruct i as [|i]; simpl.
  - rewrite Forall_forall in Ha. apply Ha, nth_In. lia.
  - apply IH; lia.
Qed.

Lemma is_argsort_indices (p : list Q) (idx : list nat) :
  is_argsort p idx ->
  Permutation (rev idx) (seq 0 (length p)) /\
  NoDup (rev idx) /\
  length (rev idx) = length p /\
  Forall (fun i => (i < length p)%nat) (rev idx) /\
  StronglySorted (fun i j => (nth j p 0 <= nth i p 0)%Q) (rev idx).
Proof.
  intros [Hperm Hsorted].
  assert (Hp : Permutation (rev idx) (seq 0 (length p))).
  { eapply Permutation_trans; [apply Permutation_sym, Permutation_rev | exact Hperm]. }
  split; [exact Hp|]. split.
  { eapply Permutation_NoDup; [apply Permutation_sym, Hp | apply seq_NoDup]. }
  split.
  { rewrite (Permutation_length Hp). apply length_seq. }
  split.
  { apply Forall_forall. intros i Hi.
    apply (Permutation_in _ Hp), in_seq in Hi. lia. }
  apply StronglySorted_rev in Hsorted. exact Hsorted.
Qed.

Lemma labels_NoDup : NoDup labels.
Proof.
  unfold labels.
  repeat (constructor; [simpl; intros H; repeat destruct H as [H|H]; discriminate H || exact H|]).
  constructor.
Qed.

(** The chart as the code builds it, when no index is past the labels. *)
Lemma chart_lists (argsort : list Q -> list nat) (p : list Q) :
  is_argsort p (argsort p) -> (length p <= length labels)%nat ->
  sorted_labels argsort p
  = Some (map (fun i => nth i labels EmptyString) (sorted_indices argsort p)) /\
  sorted_probabilities argsort p
  = Some (map (fun i => nth i p 0%Q) (sorted_indices argsort p)).
Proof.
  intros Ha Hlen.
  destruct (is_argsort_indices _ _ Ha) as [_ [_ [_ [Hall _]]]].
  unfold sorted_labels, sorted_probabilities, sorted_indices. split.
  - apply take_indices_some. eapply Forall_impl; [|exact Hall].
    cbv beta. intros i Hi. lia.
  - apply take_indices_some. exact Hall.
Qed.

Lemma nth_map_in {A B} (f : A -> B) (l : list A) (d : A) (d' : B) (j : nat) :
  (j < length l)%nat -> nth j (map f l) d' = f (nth j l d).
Proof.
  intros Hj. rewrite (nth_indep _ d' (f d)) by now rewrite length_map.
  apply map_nth.
Qed.

(** X11.  The bars of the chart: with at most four scores the two lists of
    lines 244-245 exist, have one entry per class, the probabilities are
    those of the prediction in descending order, and the label and the
    probability at the same place belong to the same class. *)
Theorem chart_bars_descending (argsort : list Q -> list nat) (p : list Q) :
  is_argsort p (argsort p) -> (length p <= length labels)%nat ->
  exists sl sp,
    sorted_labels argsort p = Some sl /\
    sorted_probabilities argsort p = Some sp /\
    length sl = length p /\ length sp = length p /\
    Permutation sp p /\
    StronglySorted (fun a b => (b <= a)%Q) sp /\
    forall j, (j < length p)%nat ->
      exists i, (i < length p)%nat /\
        nth_error labels i = Some (nth j sl EmptyString) /\
        nth_error p i = Some (nth j sp 0%Q).
Proof.
  intros Ha Hlen.
  destruct (chart_lists argsort p Ha Hlen) as [Hsl Hsp].
  destruct (is_argsort_indices _ _ Ha) as [Hperm [_ [Hl [Hall Hsorted]]]].
  fold (sorted_indices argsort p) in *.
  eexists. eexists. split; [exact Hsl|]. split; [exact Hsp|].
  split; [now rewrite length_map|]. split; [now rewrite length_map|].
  split.
  { rewrite <- (map_nth_seq 0%Q p) at 2. now apply Permutation_map. }
  split.
  { apply StronglySorted_map. exact Hsorted. }
  intros j Hj. exists (nth j (sorted_indices argsort p) 0%nat).
  assert (Hi : (nth j (sorted_indices argsort p) 0 < length p)%nat).
  { rewrite Forall_forall in Hall. apply Hall, nth_In. lia. }
  split; [exact Hi|]. split.
  - rewrite (nth_map_in _ _ 0%nat) by lia.
    apply nth_error_nth'. lia.
  - rewrite (nth_map_in _ _ 0%nat) by lia.
    apply nth_error_nth'. exact Hi.
Qed.

(** X12.  The highlighted bar: exactly one bar of the chart is red, it
    carries the predicted label, its probability is the largest one, and it
    is the first bar when no other class has the same score. *)
Theorem one_red_bar (argsort : list Q -> list nat) (p : list Q) (k : nat)
    (result : string) (sl : list string) (sp : list Q) :
  is_argsort p (argsort p) -> (length p <= length labels)%nat ->
  argmax p = Some k -> nth_error labels k = Some result ->
  sorted_labels argsort p = Some sl ->
  sorted_probabilities argsort p = Some sp ->
  exists j, (j < length p)%nat /\
    nth j sl EmptyString = result /\
    nth j (marker_color result sl) EmptyString = "red"%string /\
    (forall j', (j' < length p)%nat -> j' <> j ->
       nth j' (marker_color result sl) EmptyString = "blue"%string) /\
    (nth j sp 0 == nth 0 sp 0)%Q /\
    ((forall i, (i < length p)%nat -> i <> k -> (nth i p 0 < nth k p 0)%Q) ->
     j = 0%nat).
Proof.
  intros Ha Hlen Hk Hres Hsl Hsp.
  destruct (chart_lists argsort p Ha Hlen) as [Hsl' Hsp'].
  assert (Esl : sl = map (fun i => nth i labels EmptyString)
                         (sorted_indices argsort p)) by congruence.
  assert (Esp : sp = map (fun i => nth i p 0%Q) (sorted_indices argsort p))
    by congruence.
  subst sl sp. clear Hsl Hsp Hsl' Hsp'.
  destruct (is_argsort_indices _ _ Ha) as [Hperm [Hnd [Hl [Hall Hsorted]]]].
  fold (sorted_indices argsort p) in *.
  set (idx := sorted_indices argsort p) in *.
  destruct (argmax_spec p k Hk) as [Hkn [Hmax _]].
  assert (Hin : In k idx).
  { apply (Permutation_in _ (Permutation_sym Hperm)), in_seq. lia. }
  destruct (In_nth idx k 0%nat Hin) as [j [Hj Hjk]].
  assert (Hlab : forall i, (i < length labels)%nat ->
            nth i labels EmptyString = result -> i = k).
  { intros i Hi E.
    apply (proj1 (NoDup_nth labels EmptyString) labels_NoDup); try lia.
    rewrite E. symmetry. apply nth_error_nth. exact Hres. }
  exists j. rewrite Hl in Hj. split; [exact Hj|].
  assert (Hsj : nth j (map (fun i => nth i labels EmptyString) idx) EmptyString
                = result).
  { rewrite (nth_map_in _ _ 0%nat) by lia. rewrite Hjk.
    apply nth_error_nth. exact Hres. }
  split; [exact Hsj|]. split.
  { unfold marker_color.
    rewrite (nth_map_in _ _ EmptyString) by (rewrite length_map; lia).
    rewrite Hsj, String.eqb_refl. reflexivity. }
  split.
  { intros j' Hj' Hne. unfold marker_color.
    rewrite (nth_map_in _ _ EmptyString) by (rewrite length_map; lia).
    rewrite (nth_map_in _ _ 0%nat) by lia.
    destruct (String.eqb_spec (nth (nth j' idx 0%nat) labels EmptyString) result)
      as [E|E]; [|reflexivity].
    exfalso. apply Hne.
    assert (Hi' : (nth j' idx 0 < length p)%nat).
    { rewrite Forall_forall in Hall. apply Hall, nth_In. lia. }
    apply Hlab in E; [|lia].
    apply (proj1 (NoDup_nth idx 0%nat) Hnd); lia. }
  assert (H0 : (0 < length idx)%nat) by lia.
  assert (Hi0 : (nth 0 idx 0 < length p)%nat).
  { rewrite Forall_forall in Hall. apply Hall, nth_In. lia. }
  rewrite !(nth_map_in _ _ 0%nat) by lia. rewrite Hjk.
  split.
  { apply Qle_antisym.
    - destruct j as [|j]; [rewrite Hjk; apply Qle_refl|].
      rewrite <- Hjk.
      apply (StronglySorted_nth _ 0%nat idx Hsorted 0%nat (S j)); lia.
    - apply Hmax. exact Hi0. }
  intros Huniq.
  destruct (Nat.eq_dec (nth 0 idx 0%nat) k) as [E|E].
  - apply (proj1 (NoDup_nth idx 0%nat) Hnd); lia.
  - exfalso. pose proof (Huniq _ Hi0 E) as Hlt.
    destruct j as [|j]; [congruence|].
    pose proof (StronglySorted_nth _ 0%nat idx Hsorted 0%nat (S j)
                  ltac:(lia) ltac:(lia)) as Hge.
    simpl in Hge. rewrite Hjk in Hge. lra.
Qed.

(** ** An instance of the sorting routine *)

Lemma insert_index_perm (p : list Q) (i : nat) (idx : list nat) :
  Permutation (insert_index p i idx) (i :: idx).
Proof.
  induction idx as [|j t IH]; simpl; [apply Permutation_refl|].
  destruct (Np.Qltb _ _).
  - eapply Permutation_trans; [apply perm_skip, IH | apply perm_swap].
  - apply Permutation_refl.
Qed.

Lemma insert_index_sorted (p : list Q) (i : nat) (idx : list nat) :
  StronglySorted (fun i j => (nth i p 0 <= nth j p 0)%Q) idx ->
  StronglySorted (fun i j => (nth i p 0 <= nth j p 0)%Q) (insert_index p i idx).
Proof.
  induction 1 as [|j t Ht IH Hj]; simpl.
  - repeat constructor.
  - destruct (Np.Qltb (nth j p 0%Q) (nth i p 0%Q)) eqn:E.
    + apply Qltb_lt in E. constructor; [exact IH|].
      apply (Permutation_Forall (Permutation_sym (insert_index_perm p i t))).
      constructor; [lra | exact Hj].
    + apply Qltb_ge in E. constructor; [now constructor|].
      constructor; [exact E|].
      eapply Forall_impl; [|exact Hj]. cbv beta. intros a Ha. lra.
Qed.

Lemma insertion_argsort_ok (p : list Q) : is_argsort p (insertion_argsort p).
Proof.
  unfold is_argsort, insertion_argsort.
  generalize (seq 0 (length p)) as l.
  induction l as [|i l [IH1 IH2]]; simpl.
  - split; constructor.
  - split.
    + eapply Permutation_trans; [apply insert_index_perm | now apply perm_skip].
    + now apply insert_index_sorted.
Qed.

(** ** The report (lines 104-143) *)

Lemma string_app_assoc (a b c : string) :
  ((a ++ b) ++ c = a ++ (b ++ c))%string.
Proof. induction a as [|x a IH]; simpl; [reflexivity | now rewrite IH]. Qed.

Lemma string_app_nil_r (a : string) : (a ++ EmptyString)%string = a.
Proof. induction a as [|x a IH]; simpl; [reflexivity | now rewrite IH]. Qed.

(** The lines added by the loop of lines 120-121 follow what was there. *)
Lemma report_lines_append (fmt2 : Q -> string) (pairs : list (string * Q))
    (init : string) :
  fold_left (fun report '(label, prob) =>
               (report ++ report_line fmt2 label prob)%string) pairs init
  = (init ++ fold_left (fun report '(label, prob) =>
                          (report ++ report_line fmt2 label prob)%string)
                       pairs EmptyString)%string.
Proof.
  revert init. induction pairs as [|[l q] t IH]; intros init; simpl.
  - now rewrite string_app_nil_r.
  - rewrite IH. rewrite (IH (report_line fmt2 l q)).
    now rewrite string_app_assoc.
Qed.

Lemma report_lines_split (fmt2 : Q -> string) (l1 l2 : list (string * Q))
    (label : string) (prob : Q) (init : string) :
  fold_left (fun report '(label, prob) =>
               (report ++ report_line fmt2 label prob)%string)
            (l1 ++ (label, prob) :: l2) init
  = (init
     ++ fold_left (fun report '(label, prob) =>
                     (report ++ report_line fmt2 label prob)%string)
                  l1 EmptyString
     ++ report_line fmt2 label prob
     ++ fold_left (fun report '(label, prob) =>
                     (report ++ report_line fmt2 label prob)%string)
                  l2 EmptyString)%string.
Proof.
  rewrite fold_left_app. cbn [fold_left].
  rewrite (report_lines_append fmt2 l2).
  rewrite (report_lines_append fmt2 l1 init).
  now rewrite !string_app_assoc.
Qed.

Lemma combine_longer_l {A B} (a x : list A) (b : list B) :
  length a = length b -> combine (a ++ x) b = combine a b.
Proof.
  revert b. induction a as [|v a IH]; intros [|u b] E; simpl in *;
    try discriminate; try reflexivity.
  - now destruct x.
  - f_equal. apply IH. lia.
Qed.

Lemma combine_longer_r {A B} (a : list A) (b y : list B) :
  length a = length b -> combine a (b ++ y) = combine a b.
Proof.
  revert b. induction a as [|v a IH]; intros [|u b] E; simpl in *;
    try discriminate; try reflexivity.
  f_equal. apply IH. lia.
Qed.

(** X13.  The loop of the report runs over the pairs of a label and a
    probability: entries of the longer list that have no partner are left
    out without an error. *)
Theorem report_drops_unpaired_entries (fmt2 : Q -> string)
    (img_path model_prediction : string) (confidence : Q)
    (explanation : string) (sl more_labels : list string)
    (sp more_probabilities : list Q) :
  length sl = length sp ->
  generate_report fmt2 img_path model_prediction confidence explanation
    (sl ++ more_labels) sp
  = generate_report fmt2 img_path model_prediction confidence explanation sl sp
  /\
  generate_report fmt2 img_path model_prediction confidence explanation
    sl (sp ++ more_probabilities)
  = generate_report fmt2 img_path model_prediction confidence explanation sl sp.
Proof.
  intros E. unfold generate_report.
  now rewrite (combine_longer_l sl more_labels sp E),
              (combine_longer_r sl sp more_probabilities E).
Qed.

(** ** The report of a run (lines 315-322) *)

(** X15.  The report of a run: it is produced whenever the classifier has
    at most four classes, and among the lines of the probabilities there is
    the line of the predicted class, with the percentage that the summary
    gives as the confidence. *)
Theorem report_lists_the_predicted_class (argsort : list Q -> list nat)
    (fmt2 : Q -> string) (up : upload) (a : analysis) :
  is_argsort (prediction a) (argsort (prediction a)) ->
  (length (prediction a) <= length labels)%nat ->
  argmax (prediction a) = Some (class_index a) ->
  nth_error labels (class_index a) = Some (result a) ->
  exists before after,
    comprehensive_report argsort fmt2 up a
    = Some (report_head fmt2 (result a)
              (nth (class_index a) (prediction a) 0%Q) (explanation a)
            ++ before
            ++ report_line fmt2 (result a)
                 (nth (class_index a) (prediction a) 0 * 100)%Q
            ++ after
            ++ report_tail)%string.
Proof.
  intros Ha Hlen Hk Hres.
  destruct (chart_lists argsort (prediction a) Ha Hlen) as [Hsl Hsp].
  destruct (is_argsort_indices _ _ Ha) as [Hperm [_ [Hl _]]].
  fold (sorted_indices argsort (prediction a)) in *.
  set (idx := sorted_indices argsort (prediction a)) in *.
  destruct (argmax_spec _ _ Hk) as [Hkn _].
  assert (Hin : In (class_index a) idx).
  { apply (Permutation_in _ (Permutation_sym Hperm)), in_seq. lia. }
  destruct (In_nth idx _ 0%nat Hin) as [j [Hj Hjk]].
  unfold comprehensive_report. rewrite Hsl, Hsp.
  set (pairs := combine (map (fun i => nth i labels EmptyString) idx)
                  (map (fun q => (q * 100)%Q)
                     (map (fun i => nth i (prediction a) 0%Q) idx))).
  assert (Hlp : length pairs = length idx).
  { unfold pairs. rewrite length_combine, !length_map. lia. }
  destruct (nth_split pairs (EmptyString, (0 * 100)%Q) (n := j)) as [l1 [l2 [E _]]];
    [lia|].
  unfold pairs in E at 2.
  rewrite combine_nth in E by now rewrite !length_map.
  rewrite (nth_map_in _ _ 0%nat) in E by lia.
  rewrite (map_nth (fun q => (q * 100)%Q)) in E.
  rewrite (nth_map_in _ _ 0%nat) in E by lia.
  rewrite Hjk in E. rewrite (nth_error_nth _ _ EmptyString Hres) in E.
  unfold generate_report. fold pairs. rewrite E.
  rewrite report_lines_split, !string_app_assoc.
  eexists. eexists. reflexivity.
Qed.

(** ** The chat (lines 273-310) *)




(** ** Instances of the further properties *)

Lemma ramp_map_shape (n : nat) : Np.has_shape n n (ramp_map n).
Proof. apply tabulate_shape. Qed.

Lemma ramp_map_saliency :
  exists g', masked_saliency (ramp_map 22) = Some g'.
Proof.
  destruct (masked_saliency_some 22 22 (ramp_map 22) 11 11) as [g' [E _]];
    [apply ramp_map_shape | lia | lia | reflexivity |].
  now exists g'.
Qed.

Lemma outside_mask_is_zero_witness :
  exists g', masked_saliency (ramp_map 22) = Some g' /\
    Np.has_shape 22 22 g' /\
    forall y x, (y < 22)%nat -> (x < 22)%nat ->
      Np.get false (mask 22 22) y x = false -> Np.get 0%Q g' y x = 0%Q.
Proof.
  destruct ramp_map_saliency as [g' E]. exists g'. split; [exact E|].
  apply (outside_mask_is_zero 22 22 (ramp_map 22) g');
    [apply ramp_map_shape | exact E].
Defined.

Lemma maximum_survives_threshold_witness :
  exists g', masked_saliency (ramp_map 22) = Some g' /\
    exists y x, (y < 22)%nat /\ (x < 22)%nat /\
      Np.get false (mask 22 22) y x = true /\
      Np.get 0%Q (ramp_map 22) y x = 275%Q /\
      (Np.get 0%Q g' y x == 1)%Q.
Proof.
  destruct ramp_map_saliency as [g' E]. exists g'. split; [exact E|].
  apply (maximum_survives_threshold 22 22 (ramp_map 22) g' 275 231);
    [apply ramp_map_shape | exact E | reflexivity | reflexivity | reflexivity].
Defined.

Lemma heat_values_do_not_wrap_witness :
  exists g', masked_saliency (ramp_map 22) = Some g' /\
    forall y x, (y < 22)%nat -> (x < 22)%nat ->
      in_unit (Np.get 0%Q g' y x) /\
      in_unit (Np.get 0%Q (Cv2.GaussianBlur g') y x) /\
      (Np.get 0 (to_uint8 (Cv2.GaussianBlur g')) y x
       = Qfloor (255 * Np.get 0%Q (Cv2.GaussianBlur g') y x)) /\
      (0 <= Qfloor (255 * Np.get 0%Q (Cv2.GaussianBlur g') y x) <= 255).
Proof.
  destruct ramp_map_saliency as [g' E]. exists g'. split; [exact E|].
  apply (heat_values_do_not_wrap 22 22 (ramp_map 22) g' 275 231);
    [apply ramp_map_shape | exact E | reflexivity | reflexivity | reflexivity].
Defined.



(** Calls with the stub on a square tensor are valid for every pair of
    globals whose picture has the size. *)
Lemma stub_call_valid_for (G : globals) (n : nat) (c q : Q) :
  (1 <= n)%nat -> Np.has_shape n n (img G) ->
  valid_call G (constant_gradient_stub c) (gray_tensor n q) 0 (n, n).
Proof.
  intros Hn Himg. constructor.
  - simpl. lia.
  - exists (map (map (fun _ => (c, c, c))) (gray_tensor n q)), n, n.
    split; [reflexivity|]. split; [|lia].
    apply map_map_shape, repeat_shape.
  - exact Himg.
  - apply square_valid_mask, Hn.
Qed.

Lemma stub_call_returns (G : globals) (n : nat) (c q : Q) (w : world) :
  (1 <= n)%nat -> Np.has_shape n n (img G) ->
  exists comp w',
    generate_saliency_map G (constant_gradient_stub c) (gray_tensor n q) 0
      (n, n) w = (Returned comp, w').
Proof.
  intros Hn Himg.
  destruct (valid_call_steps _ _ _ _ _ (stub_call_valid_for G n c q Hn Himg))
    as [g [g1 [g2 [comp [_ [_ [_ [_ [_ [_ [_ [_ [_ Hrun]]]]]]]]]]]]].
  exists comp. eexists. apply Hrun.
Qed.

Lemma composite_overwrites_upload_witness :
  exists c w',
    generate_saliency_map (gray_globals 30 x80) (constant_gradient_stub 1)
      (gray_tensor 30 (128 # 255)) 0 (30%nat, 30%nat) []
    = (Returned c, w') /\
    path_join output_dir "scan.png" = "saliency_maps/scan.png"%string /\
    read_file w' "saliency_maps/scan.png"
    = Some (Encoded (Cv2.swap_channels c)) /\
    forall p, p <> "saliency_maps/scan.png"%string ->
              read_file w' p = read_file [] p.
Proof.
  destruct (stub_call_returns (gray_globals 30 x80) 30 1 (128 # 255) [])
    as [c [w' E]]; [lia | apply repeat_shape |].
  exists c, w'. split; [exact E|].
  apply (composite_overwrites_upload (gray_globals 30 x80)
           (constant_gradient_stub 1) (gray_tensor 30 (128 # 255)) 0
           (30%nat, 30%nat) [] w' c); [reflexivity | exact E].
Defined.

Lemma absolute_name_escapes_output_dir_witness :
  exists c w',
    generate_saliency_map
      {| img := gray_image 30 x80; uploaded_file := absolute_scan |}
      (constant_gradient_stub 1) (gray_tensor 30 (128 # 255)) 0
      (30%nat, 30%nat) []
    = (Returned c, w') /\
    path_join output_dir "/tmp/scan.png" = "/tmp/scan.png"%string /\
    read_file w' "/tmp/scan.png" = Some (Raw [x89; x50; x4e; x47]).
Proof.
  destruct (stub_call_returns
              {| img := gray_image 30 x80; uploaded_file := absolute_scan |}
              30 1 (128 # 255) [])
    as [c [w' E]]; [lia | apply repeat_shape |].
  exists c, w'. split; [exact E|].
  apply (absolute_name_escapes_output_dir
           {| img := gray_image 30 x80; uploaded_file := absolute_scan |}
           (constant_gradient_stub 1) (gray_tensor 30 (128 # 255)) 0
           (30%nat, 30%nat) [] w' c); [reflexivity | exact E].
Defined.

Lemma failure_writes_no_file_witness :
  (exists ops,
     [TensorOp OpCall; TensorOp OpWatch; TensorOp OpConvertToTensor]
     = ops ++ [] /\ tensor_only ops) /\
  forall p,
    read_file [TensorOp OpCall; TensorOp OpWatch; TensorOp OpConvertToTensor] p
    = read_file [] p.
Proof.
  apply (failure_writes_no_file (gray_globals 3 x80) (constant_gradient_stub 1)
           (gray_tensor 3 (128 # 255)) 4 (3%nat, 3%nat) []
           [TensorOp OpCall; TensorOp OpWatch; TensorOp OpConvertToTensor]
           InvalidArgumentError).
  - reflexivity.
  - left. reflexivity.
Defined.

Lemma empty_mask_raises_witness :
  generate_saliency_map (gray_globals 3 x80) (constant_gradient_stub 1)
    (gray_tensor 3 (128 # 255)) 0 (300%nat, 100%nat) []
  = (Raised ValueError, gradient_ops ++ []).
Proof.
  apply (empty_mask_raises (gray_globals 3 x80) (constant_gradient_stub 1)
           (gray_tensor 3 (128 # 255)) 0 (300%nat, 100%nat) []
           (map (map (fun _ => (1%Q, 1%Q, 1%Q))) (gray_tensor 3 (128 # 255)))
           3 3).
  - simpl. lia.
  - reflexivity.
  - apply map_map_shape, repeat_shape.
  - lia.
  - lia.
  - cbn [fst]. lia.
  - cbn [snd]. lia.
  - cbn [fst snd]. apply wide_size_mask_empty.
Defined.


Lemma explanation_reads_the_composite_witness :
  let run := analyse gray_load_img stub_models canned_llm canned_fmt
               CustomCNN scan [] in
  fst run <> Failed FileNotFoundError /\
  forall a, fst run = Done a ->
    read_file (snd run) "saliency_maps/scan.png"
    = Some (Encoded (Cv2.swap_channels (saliency_map a))) /\
    canned_llm (explanation_prompt canned_fmt (result a)
                  (nth (class_index a) (prediction a) 0%Q))
      (Encoded (Cv2.swap_channels (saliency_map a)))
    = Some (explanation a).
Proof.
  intros run.
  apply (explanation_reads_the_composite gray_load_img stub_models canned_llm
           canned_fmt CustomCNN scan [] (snd run) (fst run)).
  - reflexivity.
  - apply surjective_pairing.
Defined.

Lemma chart_bars_descending_witness :
  exists sl sp,
    sorted_labels insertion_argsort sample_scores = Some sl /\
    sorted_probabilities insertion_argsort sample_scores = Some sp /\
    length sl = 4%nat /\ length sp = 4%nat /\
    Permutation sp sample_scores /\
    StronglySorted (fun a b => (b <= a)%Q) sp /\
    forall j, (j < 4)%nat ->
      exists i, (i < 4)%nat /\
        nth_error labels i = Some (nth j sl EmptyString) /\
        nth_error sample_scores i = Some (nth j sp 0%Q).
Proof.
  apply (chart_bars_descending insertion_argsort sample_scores).
  - apply insertion_argsort_ok.
  - simpl. lia.
Defined.

Lemma one_red_bar_witness :
  exists j, (j < 4)%nat /\
    nth j ["Meningioma"; "Pituitary"; "No tumor"; "Glioma"]%string EmptyString
    = "Meningioma"%string /\
    nth j (marker_color "Meningioma"
             ["Meningioma"; "Pituitary"; "No tumor"; "Glioma"]%string)
        EmptyString = "red"%string /\
    (forall j', (j' < 4)%nat -> j' <> j ->
       nth j' (marker_color "Meningioma"
                 ["Meningioma"; "Pituitary"; "No tumor"; "Glioma"]%string)
           EmptyString = "blue"%string) /\
    (nth j [6 # 10; 2 # 10; 1 # 10; 1 # 10] 0 == nth 0 [6 # 10; 2 # 10; 1 # 10; 1 # 10] 0)%Q /\
    ((forall i, (i < 4)%nat -> i <> 1%nat ->
        (nth i sample_scores 0 < nth 1 sample_scores 0)%Q) ->
     j = 0%nat).
Proof.
  apply (one_red_bar insertion_argsort sample_scores 1 "Meningioma"
           ["Meningioma"; "Pituitary"; "No tumor"; "Glioma"]%string
           [6 # 10; 2 # 10; 1 # 10; 1 # 10]%Q).
  - apply insertion_argsort_ok.
  - simpl. lia.
  - reflexivity.
  - reflexivity.
  - reflexivity.
  - reflexivity.
Defined.

Lemma report_drops_unpaired_entries_witness :
  generate_report canned_fmt "saliency_maps/scan.png" "Meningioma" (6 # 10)
    "see the map" (["Meningioma"; "Pituitary"]%string ++ ["No tumor"; "Glioma"]%string)
    [60; 20]%Q
  = generate_report canned_fmt "saliency_maps/scan.png" "Meningioma" (6 # 10)
      "see the map" ["Meningioma"; "Pituitary"]%string [60; 20]%Q
  /\
  generate_report canned_fmt "saliency_maps/scan.png" "Meningioma" (6 # 10)
    "see the map" ["Meningioma"; "Pituitary"]%string ([60; 20]%Q ++ [10; 10]%Q)
  = generate_report canned_fmt "saliency_maps/scan.png" "Meningioma" (6 # 10)
      "see the map" ["Meningioma"; "Pituitary"]%string [60; 20]%Q.
Proof.
  apply (report_drops_unpaired_entries canned_fmt "saliency_maps/scan.png"
           "Meningioma" (6 # 10) "see the map"
           ["Meningioma"; "Pituitary"]%string ["No tumor"; "Glioma"]%string
           [60; 20]%Q [10; 10]%Q).
  reflexivity.
Defined.

Lemma report_lists_the_predicted_class_witness :
  exists before after,
    comprehensive_report insertion_argsort canned_fmt scan sample_analysis
    = Some (report_head canned_fmt "Meningioma" (6 # 10) "see the map"
            ++ before
            ++ report_line canned_fmt "Meningioma" ((6 # 10) * 100)%Q
            ++ after
            ++ report_tail)%string.
Proof.
  apply (report_lists_the_predicted_class insertion_argsort canned_fmt scan
           sample_analysis).
  - apply insertion_argsort_ok.
  - simpl. lia.
  - reflexivity.
  - reflexivity.
Defined.

